(** * lmfetch: retrieval pipeline, shallow embedding and verified properties

    The development follows the TypeScript sources of [lmfetch-bun/src]:
    - [chunkers/types.ts]   : [Chunk], [ScoredChunk]
    - [builder.ts]          : [ContextBuilder.selectWithinBudget], cached chunk load
    - [tokens.ts]           : [parseBudget]
    - [chunking-parallel.ts]: [TokenCache]
    - [chunkers/code.ts]    : [CodeChunker]
    - [cache.ts]            : the SQLite chunk cache
    - [rankers/keyword.ts]  : [stem], [KeywordRanker]
    - [rankers/hybrid.ts]   : [HybridRanker]
    - [utils.ts]            : [normalize], [cosineSimilarity], [hashContent]

    Conventions.  JavaScript strings are modelled as [string] (8-bit
    characters); array indices and line numbers as [nat]; token counts as
    [N]; budgets as [Z]; scores as exact rationals [Q].  The two
    transcendental library functions used by the rankers, [Math.log] and
    [Math.sqrt], are parameters of the definitions that call them.  The
    numbers of [parseBudget] are binary64 doubles: every operation rounds
    to the nearest double, ties to even, and overflows to infinity. *)

From Stdlib Require Import ZArith NArith QArith Qround Qminmax List String Ascii Lia Lqa Bool.
From Stdlib Require Import Sorting.Permutation Sorting.Sorted.
From Stdlib Require Import Decimal DecimalFacts DecimalNat DecimalString.
From stdpp Require Import gmap strings list.

Import ListNotations.
Local Open Scope Z_scope.

(* ===================================================================== *)
(** * JavaScript string primitives used by the sources                    *)
(* ===================================================================== *)

Module JS.

Definition code (c : ascii) : nat := nat_of_ascii c.

Definition isUpper (c : ascii) : bool := ((65 <=? code c) && (code c <=? 90))%nat.
Definition isLower (c : ascii) : bool := ((97 <=? code c) && (code c <=? 122))%nat.
Definition isDigit (c : ascii) : bool := ((48 <=? code c) && (code c <=? 57))%nat.

(** The regular-expression class [\w], i.e. [[A-Za-z0-9_]]. *)
Definition isWord (c : ascii) : bool :=
  isUpper c || isLower c || isDigit c || Ascii.eqb c "_".

Definition toLowerChar (c : ascii) : ascii :=
  if isUpper c then ascii_of_nat (code c + 32) else c.

Fixpoint smap (f : ascii -> ascii) (s : string) : string :=
  match s with
  | EmptyString => EmptyString
  | String c s' => String (f c) (smap f s')
  end.

(** [s.toLowerCase()] *)
Definition toLowerCase (s : string) : string := smap toLowerChar s.

(** [s.slice(i, j)] for [0 <= i <= j]. *)
Definition slice (s : string) (i j : nat) : string := String.substring i (j - i) s.

(** [s.slice(-k)]: the last [k] characters. *)
Definition sliceLast (s : string) (k : nat) : string :=
  String.substring (String.length s - k) k s.

(** [s.includes(t)] *)
Fixpoint includes (s t : string) : bool :=
  String.prefix t s ||
  match s with
  | EmptyString => false
  | String _ s' => includes s' t
  end.

(** [s.endsWith(suf)]; this is also [/suf$/.test(s)] for a literal [suf]. *)
Definition endsWith (s suf : string) : bool :=
  (String.length suf <=? String.length s)%nat &&
  String.eqb (sliceLast s (String.length suf)) suf.

(** Decimal rendering of a number inside a template literal. *)
Definition showNat (n : nat) : string := NilZero.string_of_uint (Nat.to_uint n).

(** [parts.join(sep)] *)
Fixpoint join (sep : string) (parts : list string) : string :=
  match parts with
  | [] => EmptyString
  | [p] => p
  | p :: rest => p +:+ sep +:+ join sep rest
  end.

(** [s.split(sep)] for a one-character separator: the fields between the
    occurrences of [sep]; always at least one field. *)
Fixpoint splitChar (sep : ascii) (s : string) : list string :=
  match s with
  | EmptyString => [EmptyString]
  | String c s' =>
      if Ascii.eqb c sep then EmptyString :: splitChar sep s'
      else match splitChar sep s' with
           | [] => [String c EmptyString]
           | f :: fs => String c f :: fs
           end
  end.

End JS.

(* ===================================================================== *)
(** * Data model ([chunkers/types.ts])                                    *)
(* ===================================================================== *)

Inductive ChunkType : Type :=
  | TFunction | TClass | TMethod | TInterface | TType
  | TEnum | TModule | TSection | TConstant | TVariable.

Record Chunk : Type := mkChunk {
  id : string;
  filePath : string;
  relativePath : string;
  content : string;
  startLine : nat;
  endLine : nat;
  type : ChunkType;
  name : option string;
  language : string;
  tokens : N
}.

(** [ScoredChunk extends Chunk] with a relevance score. *)
Record ScoredChunk : Type := mkScored {
  chunk :> Chunk;
  score : Q
}.

(** [Array.prototype.sort(cmp)]: a stable sort; [cmp a b <= 0] keeps [a]
    before [b].  Realised as insertion from the right, so that an element
    stays in front of the later elements it compares equal to. *)
Module JSArray.
Local Open Scope Q_scope.

Fixpoint insertBy {A} (cmp : A -> A -> Q) (x : A) (l : list A) : list A :=
  match l with
  | [] => [x]
  | y :: l' => if Qle_bool (cmp x y) 0 then x :: l else y :: insertBy cmp x l'
  end.

Definition sortBy {A} (cmp : A -> A -> Q) (l : list A) : list A :=
  fold_right (insertBy cmp) [] l.

(** The comparator [(a, b) => key(b) - key(a)] of a descending sort. *)
Definition desc {A} (key : A -> Q) (a b : A) : Q := key b - key a.

End JSArray.

(** A discovered file ([sources/types.ts]). *)
Record SourceFile : Type := mkSourceFile {
  path : string;
  sf_relativePath : string;
  sf_content : string;
  sf_language : string;
  size : nat;
  mtime : Z
}.

(* ===================================================================== *)
(** * SHA-256, as computed by [Bun.CryptoHasher("sha256")]                *)
(* ===================================================================== *)

Module Sha256.

Definition mask32 : Z := 0xffffffff.
Definition add32 (a b : Z) : Z := (a + b) mod 2 ^ 32.
Definition not32 (a : Z) : Z := Z.lxor a mask32.
Definition rotr (n x : Z) : Z :=
  Z.lor (Z.shiftr x n) (Z.land (Z.shiftl x (32 - n)) mask32).
Definition shr (n x : Z) : Z := Z.shiftr x n.

Definition Ch (x y z : Z) : Z := Z.lxor (Z.land x y) (Z.land (not32 x) z).
Definition Maj (x y z : Z) : Z :=
  Z.lxor (Z.lxor (Z.land x y) (Z.land x z)) (Z.land y z).
Definition bigSigma0 (x : Z) : Z := Z.lxor (Z.lxor (rotr 2 x) (rotr 13 x)) (rotr 22 x).
Definition bigSigma1 (x : Z) : Z := Z.lxor (Z.lxor (rotr 6 x) (rotr 11 x)) (rotr 25 x).
Definition smallSigma0 (x : Z) : Z := Z.lxor (Z.lxor (rotr 7 x) (rotr 18 x)) (shr 3 x).
Definition smallSigma1 (x : Z) : Z := Z.lxor (Z.lxor (rotr 17 x) (rotr 19 x)) (shr 10 x).

(** The first 64 primes. *)
Definition primes : list Z :=
  [ 2; 3; 5; 7; 11; 13; 17; 19; 23; 29; 31; 37; 41; 43; 47; 53;
    59; 61; 67; 71; 73; 79; 83; 89; 97; 101; 103; 107; 109; 113; 127; 131;
    137; 139; 149; 151; 157; 163; 167; 173; 179; 181; 191; 193; 197; 199;
    211; 223; 227; 229; 233; 239; 241; 251; 257; 263; 269; 271; 277; 281;
    283; 293; 307; 311 ].

(** The largest [r] below [2 ^ bits] with [r ^ k <= n], found bit by bit. *)
Fixpoint floorRoot (k n : Z) (bits : nat) (r : Z) : Z :=
  match bits with
  | O => r
  | S b =>
      let candidate := r + 2 ^ Z.of_nat b in
      if candidate ^ k <=? n then floorRoot k n b candidate else floorRoot k n b r
  end.

(** The round constants: the first 32 bits of the fractional parts of the
    cube roots of the first 64 primes. *)
Definition K : list Z :=
  map (fun p => floorRoot 3 (p * 2 ^ 96) 36 0 mod 2 ^ 32) primes.

(** The initial hash value: the first 32 bits of the fractional parts of
    the square roots of the first 8 primes. *)
Definition H0 : list Z :=
  map (fun p => floorRoot 2 (p * 2 ^ 64) 36 0 mod 2 ^ 32) (firstn 8 primes).

(** The most significant of [n] bytes first. *)
Fixpoint bigEndian (n : nat) (x : Z) : list Z :=
  match n with
  | O => []
  | S n' => (Z.shiftr x (8 * Z.of_nat n')) mod 256 :: bigEndian n' x
  end.

(** Padding: the byte [0x80], zero bytes up to 56 modulo 64, and the bit
    length on 8 bytes. *)
Definition pad (msg : list Z) : list Z :=
  let l := length msg in
  let zeros := ((64 - (l + 9) mod 64) mod 64)%nat in
  msg ++ [128] ++ repeat 0 zeros ++ bigEndian 8 (8 * Z.of_nat l).

Fixpoint toWords (bytes : list Z) : list Z :=
  match bytes with
  | a :: b :: c :: d :: rest =>
      (Z.shiftl a 24 + Z.shiftl b 16 + Z.shiftl c 8 + d) :: toWords rest
  | _ => []
  end.

(** The message schedule, most recent word first: [sched] holds
    [W(t-1), W(t-2), ...]. *)
Fixpoint extend (n : nat) (sched : list Z) : list Z :=
  match n with
  | O => sched
  | S n' =>
      let w := add32 (add32 (smallSigma1 (nth 1 sched 0)) (nth 6 sched 0))
                     (add32 (smallSigma0 (nth 14 sched 0)) (nth 15 sched 0)) in
      extend n' (w :: sched)
  end.

Definition schedule (block : list Z) : list Z := rev (extend 48 (rev block)).

Definition round (st : list Z) (kw : Z * Z) : list Z :=
  match st with
  | [a; b; c; d; e; f; g; h] =>
      let t1 := add32 (add32 (add32 h (bigSigma1 e)) (add32 (Ch e f g) (fst kw))) (snd kw) in
      let t2 := add32 (bigSigma0 a) (Maj a b c) in
      [add32 t1 t2; a; b; c; add32 d t1; e; f; g]
  | _ => st
  end.

Definition compress (h : list Z) (block : list Z) : list Z :=
  let st := fold_left round (combine K (schedule block)) h in
  map (fun p => add32 (fst p) (snd p)) (combine h st).

Fixpoint blocksLoop (fuel : nat) (h : list Z) (words : list Z) : list Z :=
  match fuel with
  | O => h
  | S fuel' =>
      match words with
      | [] => h
      | _ => blocksLoop fuel' (compress h (firstn 16 words)) (skipn 16 words)
      end
  end.

Definition digest (msg : list Z) : list Z :=
  let words := toWords (pad msg) in
  flat_map (bigEndian 4) (blocksLoop (length words) H0 words).

Definition hexDigit (n : Z) : ascii :=
  if n <? 10 then ascii_of_nat (48 + Z.to_nat n) else ascii_of_nat (87 + Z.to_nat n).

Fixpoint hex (bytes : list Z) : string :=
  match bytes with
  | [] => EmptyString
  | b :: rest => String (hexDigit (b / 16)) (String (hexDigit (b mod 16)) (hex rest))
  end.

Definition bytesOf (s : string) : list Z :=
  map (fun c => Z.of_nat (nat_of_ascii c)) (list_ascii_of_string s).

End Sha256.

(* ===================================================================== *)
(** * Utility functions ([utils.ts])                                      *)
(* ===================================================================== *)

Module Utils.
Local Open Scope Q_scope.

(** [hashContent]: the SHA-256 digest in hexadecimal. *)
Definition hashContent (content : string) : string :=
  Sha256.hex (Sha256.digest (Sha256.bytesOf content)).

(** [normalize]: scores mapped linearly onto the range 0..1. *)
Definition normalize (scores : list Q) : list Q :=
  match scores with
  | [] => []
  | s0 :: rest =>
      let min := fold_left Qmin rest s0 in
      let max := fold_left Qmax rest s0 in
      let range := max - min in
      if Qeq_bool range 0
      then map (fun _ => 1 # 2) scores
      else map (fun s => (s - min) / range) scores
  end.

Section Cosine.

(** [Math.sqrt] *)
Variable Math_sqrt : Q -> Q.

(** [cosineSimilarity]; [None] stands for the thrown error
    (vectors of different lengths). *)
Definition cosineSimilarity (a b : list Q) : option Q :=
  if negb (length a =? length b)%nat then None
  else
    let '(dot, normA, normB) :=
      fold_left (fun (acc : Q * Q * Q) (xy : Q * Q) =>
                   let '(dot, normA, normB) := acc in
                   (dot + fst xy * snd xy,
                    normA + fst xy * fst xy,
                    normB + snd xy * snd xy))
                (combine a b) (0, 0, 0) in
    let magnitude := Math_sqrt normA * Math_sqrt normB in
    Some (if Qeq_bool magnitude 0 then 0 else dot / magnitude).

End Cosine.

End Utils.

(* ===================================================================== *)
(** * Token utilities ([tokens.ts])                                       *)
(* ===================================================================== *)

Module Tokens.

(** The longest prefix of decimal digits, and what follows it. *)
Fixpoint spanDigits (s : string) : string * string :=
  match s with
  | EmptyString => (EmptyString, EmptyString)
  | String c s' =>
      if JS.isDigit c
      then let '(d, r) := spanDigits s' in (String c d, r)
      else (EmptyString, s)
  end.

(** The match of [/^(\d+(?:\.\d+)?)(k|m)?$/i]: the digits before the
    point, the digits after it (empty without a point), and the suffix
    letter in lower case. *)
Definition matchBudget (budget : string) : option (string * string * option ascii) :=
  match spanDigits budget with
  | (EmptyString, _) => None
  | (int, rest) =>
      let '(frac, rest) :=
        match rest with
        | String c rest' =>
            if Ascii.eqb c "."
            then match spanDigits rest' with
                 | (EmptyString, _) => (EmptyString, rest)
                 | (frac, rest'') => (frac, rest'')
                 end
            else (EmptyString, rest)
        | EmptyString => (EmptyString, rest)
        end in
      match rest with
      | EmptyString => Some (int, frac, None)
      | String c EmptyString =>
          let c := JS.toLowerChar c in
          if Ascii.eqb c "k" || Ascii.eqb c "m" then Some (int, frac, Some c) else None
      | _ => None
      end
  end.

(** The number written by a string of decimal digits. *)
Fixpoint digitsValue (acc : Z) (s : string) : Z :=
  match s with
  | EmptyString => acc
  | String c s' => digitsValue (10 * acc + (Z.of_nat (JS.code c) - 48)) s'
  end.

(** The decimal number [int.frac]. *)
Definition decimal (int frac : string) : Q :=
  inject_Z (digitsValue 0 (int +:+ frac)) / inject_Z (10 ^ Z.of_nat (String.length frac)).

Definition invalidBudget (budget : string) : string :=
  "Invalid budget format: " +:+ budget +:+ ". Use formats like 50k, 100k, 1m".

(** ** Numbers

    A [number] is a binary64 double: a finite one, given by its exact
    value, or an infinity.  The finite doubles are the multiples
    [m * 2 ^ s] of [2 ^ -1074] with [m < 2 ^ 53] that lie below
    [2 ^ 1024] in absolute value.  ([parseBudget] never meets [NaN].) *)
Inductive Number : Type :=
  | Finite (value : Q)
  | Infinity (negative : bool).

(** The integer nearest to [a / b], for [0 <= a] and [0 < b], ties going
    to the even one. *)
Definition roundHalfEven (a b : Z) : Z :=
  let f := a / b in
  let r := a mod b in
  if 2 * r <? b then f
  else if b <? 2 * r then f + 1
  else if Z.even f then f else f + 1.

(** The multiple [m * 2 ^ s] of [2 ^ -1074] with a significand [m] of at
    most 53 bits that is nearest to [a / d], for [0 <= a] and [0 < d],
    ties going to the even significand; the result counts units of
    [2 ^ -1074].  Below [2 ^ -1022] the spacing is [2 ^ -1074] ([s = 0]). *)
Definition nearest (a d : Z) : Z :=
  let n := a * 2 ^ 1074 in
  let s := Z.max 0 (Z.log2 (n / d) - 52) in
  roundHalfEven n (d * 2 ^ s) * 2 ^ s.

(** The rounding of a real to a [number]: the nearest double, ties to
    even, and an infinity from [2 ^ 1024] on. *)
Definition toNumber (x : Q) : Number :=
  let r := nearest (Z.abs (Qnum x)) (Zpos (Qden x)) in
  let negative := Qnum x <? 0 in
  if 2 ^ 2098 <=? r then Infinity negative
  else Finite (Qmake (if negative then - r else r) (2 ^ 1074)).

(** [parseFloat(num)] on a matched [num]: the double nearest to the
    decimal read, every digit of which counts. *)
Definition parseFloat (int frac : string) : Number := toNumber (decimal int frac).

(** [value * k] for a positive integer literal [k]: the double nearest to
    the product. *)
Definition times (value : Number) (k : Z) : Number :=
  match value with
  | Finite q => toNumber (q * inject_Z k)
  | Infinity negative => Infinity negative
  end.

(** [Math.floor(value)] *)
Definition floor (value : Number) : Number :=
  match value with
  | Finite q => Finite (inject_Z (Qfloor q))
  | Infinity negative => Infinity negative
  end.

(** [parseBudget]; [inl] carries the message of the thrown error. *)
Definition parseBudget (budget : string) : string + Number :=
  match matchBudget budget with
  | None => inl (invalidBudget budget)
  | Some (int, frac, suffix) =>
      let value := parseFloat int frac in
      match suffix with
      | Some c =>
          if Ascii.eqb c "k" then inr (floor (times value 1000))
          else if Ascii.eqb c "m" then inr (floor (times value 1000000))
          else inr (floor value)
      | None => inr (floor value)
      end
  end.

(** ** The budget grammar of the specification

    [^\d+(\.\d+)?(k|m)?$], case-insensitive: one or more digits, then
    optionally a point and one or more digits, then optionally one of the
    letters k, K (times 1000) and m, M (times 1000000). *)

Fixpoint allDigits (s : string) : bool :=
  match s with
  | EmptyString => true
  | String c s' => JS.isDigit c && allDigits s'
  end.

Definition digits1 (s : string) : Prop := s <> EmptyString /\ allDigits s = true.

Inductive Suffix : string -> Z -> Prop :=
  | suffix_none : Suffix "" 1
  | suffix_k : Suffix "k" 1000
  | suffix_K : Suffix "K" 1000
  | suffix_m : Suffix "m" 1000000
  | suffix_M : Suffix "M" 1000000.

(** [budget] is the number [int.frac] (or [int] when [frac] is empty)
    followed by a suffix of multiplier [mult]. *)
Definition InGrammar (budget int frac : string) (mult : Z) : Prop :=
  digits1 int /\
  exists suffix, Suffix suffix mult /\
    ((frac = EmptyString /\ budget = int +:+ suffix) \/
     (digits1 frac /\ budget = int +:+ "." +:+ frac +:+ suffix)).

(** The number that a string of decimal digits writes, digit by digit:
    the digit at distance [i] from the end counts [10 ^ i]. *)
Fixpoint digitsNumber (s : string) : Z :=
  match s with
  | EmptyString => 0
  | String c s' =>
      (Z.of_nat (JS.code c) - 48) * 10 ^ Z.of_nat (String.length s') + digitsNumber s'
  end.

(** The real number that the numeral [int.frac] writes: the integer part
    plus the fraction digits over [10 ^ length frac]. *)
Definition numeral (int frac : string) : Q :=
  inject_Z (digitsNumber int) +
  inject_Z (digitsNumber frac) / inject_Z (10 ^ Z.of_nat (String.length frac)).

(** The multiplier of a matched suffix. *)
Definition multiplier (suffix : option ascii) : Z :=
  match suffix with
  | Some c => if Ascii.eqb c "k" then 1000 else if Ascii.eqb c "m" then 1000000 else 1
  | None => 1
  end.

(** A string that does not begin with a digit. *)
Definition nonDigitStart (r : string) : Prop :=
  match r with
  | String c _ => JS.isDigit c = false
  | EmptyString => True
  end.

End Tokens.

(* ===================================================================== *)
(** * In-memory token-count cache ([chunking-parallel.ts], [TokenCache])  *)
(* ===================================================================== *)

Module TokenCache.

(** [private hash(text)] *)
Definition hash (text : string) : string :=
  if (String.length text <? 1000)%nat
  then JS.slice text 0 100 +:+ JS.showNat (String.length text)
  else JS.slice text 0 100 +:+ JS.sliceLast text 100 +:+ JS.showNat (String.length text).

(** Two texts agree on what [hash] reads of them: the length, the first
    100 characters and, from 1000 characters on, the last 100. *)
Definition sameKey (t1 t2 : string) : Prop :=
  String.length t1 = String.length t2 /\
  JS.slice t1 0 100 = JS.slice t2 0 100 /\
  ((1000 <= String.length t1)%nat -> JS.sliceLast t1 100 = JS.sliceLast t2 100).

Section WithTokenizer.

(** [countTokens] of [tokens.ts]: the length of the [cl100k_base]
    encoding, computed by the [js-tiktoken] package. *)
Variable countTokens : string -> N.

(** [count(text)]: the returned count and the cache after the call. *)
Definition count (cache : gmap string N) (text : string) : N * gmap string N :=
  let h := hash text in
  match cache !! h with
  | Some n => (n, cache)
  | None =>
      let tokens := countTokens text in
      (tokens, <[h := tokens]> cache)
  end.

Definition clear (cache : gmap string N) : gmap string N := ∅.

(** The cache after the texts of [history] have been counted, in order,
    starting from [cache]. *)
Definition countAll (cache : gmap string N) (history : list string) : gmap string N :=
  fold_left (fun c t => snd (count c t)) history cache.

End WithTokenizer.

End TokenCache.

(* ===================================================================== *)
(** * Chunker ([chunkers/code.ts], [CodeChunker])                         *)
(* ===================================================================== *)

Module Chunker.
Local Open Scope nat_scope.

Definition MAX_CHUNK_LINES : nat := 200.
Definition MIN_CHUNK_LINES : nat := 10.
Definition maxLines : nat := MAX_CHUNK_LINES.
Definition minLines : nat := MIN_CHUNK_LINES.

(** A boundary pattern.  [regex line] is the result of
    [line.match(pattern.regex)]: [None] for [null], otherwise the match
    array (the whole match, then the capture groups, an unset group being
    [None]). *)
Record Pattern : Type := mkPattern {
  regex : string -> option (list (option string));
  ptype : ChunkType;
  nameGroup : nat
}.

Record Boundary : Type := mkBoundary {
  line : nat;
  btype : ChunkType;
  bname : option string
}.

(** [lines.slice(i, j)] *)
Definition sliceLines (lines : list string) (i j : nat) : list string :=
  firstn (j - i) (skipn i lines).

Definition newline : string := String "010"%char EmptyString.
Definition splitLines (content : string) : list string := JS.splitChar "010"%char content.
Definition joinLines (lines : list string) : string := JS.join newline lines.

(** The inner [for (const pattern of patterns)] loop of [findBoundaries]:
    the first pattern matching the line. *)
Fixpoint firstMatch (patterns : list Pattern) (l : string)
    : option (ChunkType * option string) :=
  match patterns with
  | [] => None
  | p :: rest =>
      match regex p l with
      | Some m => Some (ptype p, nth (nameGroup p) m None)
      | None => firstMatch rest l
      end
  end.

(** [findBoundaries], reading the lines from index [i] on. *)
Fixpoint findBoundariesFrom (i : nat) (lines : list string) (patterns : list Pattern)
    : list Boundary :=
  match lines with
  | [] => []
  | l :: rest =>
      match firstMatch patterns l with
      | Some (t, n) => mkBoundary i t n :: findBoundariesFrom (S i) rest patterns
      | None => findBoundariesFrom (S i) rest patterns
      end
  end.

Definition findBoundaries (lines : list string) (patterns : list Pattern) : list Boundary :=
  findBoundariesFrom 0 lines patterns.

Section WithEnvironment.

(** The pattern table [PATTERNS], by language ([PATTERNS[language] || []]),
    and the tokenizer. *)
Variable PATTERNS : string -> list Pattern.
Variable countTokens : string -> N.

Definition chunkId (filePath : string) (start : nat) : string :=
  Utils.hashContent (filePath +:+ ":" +:+ JS.showNat start).

(** The name of a continuation slice: the template literal renders a
    missing name as [undefined]. *)
Definition continued (name : option string) : string :=
  match name with
  | Some n => n +:+ " (continued)"
  | None => "undefined (continued)"
  end.

(** The loop [for (let i = 0; i < lines.length; i += this.maxLines)] of
    [splitLargeChunk]; [fuel] bounds the number of iterations. *)
Fixpoint splitLoop (fuel i : nat) (lines : list string) (startOffset : nat)
    (filePath relativePath language : string) (type : ChunkType) (name : option string)
    : list Chunk :=
  match fuel with
  | O => []
  | S fuel' =>
      if i <? length lines then
        let end_ := Nat.min (i + maxLines) (length lines) in
        let chunkLines := sliceLines lines i end_ in
        let chunkContent := joinLines chunkLines in
        mkChunk (chunkId filePath (startOffset + i)) filePath relativePath chunkContent
                (startOffset + i + 1) (startOffset + end_) type
                (if i =? 0 then name else Some (continued name))
                language (countTokens chunkContent)
        :: splitLoop fuel' (i + maxLines) lines startOffset
                     filePath relativePath language type name
      else []
  end.

Definition splitLargeChunk (lines : list string) (startOffset : nat)
    (filePath relativePath language : string) (type : ChunkType) (name : option string)
    : list Chunk :=
  splitLoop (length lines) 0 lines startOffset filePath relativePath language type name.

(** The loop of [chunkBySize] for a file longer than [maxLines]. *)
Fixpoint sizeLoop (fuel i : nat) (lines : list string)
    (filePath relativePath language : string) : list Chunk :=
  match fuel with
  | O => []
  | S fuel' =>
      if i <? length lines then
        let end_ := Nat.min (i + maxLines) (length lines) in
        let chunkLines := sliceLines lines i end_ in
        let chunkContent := joinLines chunkLines in
        mkChunk (chunkId filePath i) filePath relativePath chunkContent
                (i + 1) end_ TSection None language (countTokens chunkContent)
        :: sizeLoop fuel' (i + maxLines) lines filePath relativePath language
      else []
  end.

Definition chunkBySize (content filePath relativePath language : string) : list Chunk :=
  let lines := splitLines content in
  if length lines <=? maxLines then
    [ mkChunk (chunkId filePath 0) filePath relativePath content
              1 (length lines) TSection None language (countTokens content) ]
  else sizeLoop (length lines) 0 lines filePath relativePath language.

(** The loop [for (let i = 0; i < boundaries.length; i++)] of [chunk],
    over the boundaries from the [i]-th on; [total] is
    [boundaries.length]. *)
Fixpoint boundaryLoop (bs : list Boundary) (total : nat) (lines : list string)
    (filePath relativePath language : string) : list Chunk :=
  match bs with
  | [] => []
  | b :: rest =>
      let start := line b in
      let end_ :=
        match rest with
        | next :: _ => line next - 1
        | [] => length lines - 1
        end in
      let chunkLines := sliceLines lines start (end_ + 1) in
      let chunkContent := joinLines chunkLines in
      let later := boundaryLoop rest total lines filePath relativePath language in
      if (length chunkLines <? minLines) && (1 <? total) then later
      else if maxLines <? length chunkLines then
        splitLargeChunk chunkLines start filePath relativePath language (btype b) (bname b)
        ++ later
      else
        mkChunk (chunkId filePath start) filePath relativePath chunkContent
                (start + 1) (end_ + 1) (btype b) (bname b)
                language (countTokens chunkContent)
        :: later
  end.

(** [CodeChunker.chunk] *)
Definition chunk (content filePath relativePath language : string) : list Chunk :=
  let lines := splitLines content in
  let patterns := PATTERNS language in
  if length patterns =? 0 then chunkBySize content filePath relativePath language
  else
    let boundaries := findBoundaries lines patterns in
    if length boundaries =? 0 then chunkBySize content filePath relativePath language
    else
      let chunks :=
        boundaryLoop boundaries (length boundaries) lines filePath relativePath language in
      match boundaries with
      | b0 :: _ =>
          if 0 <? line b0 then
            let preambleLines := sliceLines lines 0 (line b0) in
            if minLines <=? length preambleLines then
              let preambleContent := joinLines preambleLines in
              mkChunk (chunkId filePath 0) filePath relativePath preambleContent
                      1 (line b0) TSection (Some "imports/preamble")
                      language (countTokens preambleContent)
              :: chunks
            else chunks
          else chunks
      | [] => chunks
      end.

(** [chunkFilesParallel]: the chunks of the files, in file order. *)
Definition chunkFilesParallel (files : list SourceFile) : list Chunk :=
  flat_map (fun f => chunk (sf_content f) (path f) (sf_relativePath f) (sf_language f)) files.

End WithEnvironment.

(** [fileChunks.sort((a, b) => a.startLine - b.startLine)], the sort the
    formatter applies to the chunks of one file. *)
Definition sortByStartLine (chunks : list Chunk) : list Chunk :=
  JSArray.sortBy (fun a b => inject_Z (Z.of_nat (startLine a) - Z.of_nat (startLine b))) chunks.

End Chunker.

(* ===================================================================== *)
(** * Selector ([builder.ts], [ContextBuilder.selectWithinBudget])        *)
(* ===================================================================== *)

Module Builder.

(** [Math.floor(this.budget * 0.95)] *)
Definition effectiveBudget (budget : Z) : Z := Qfloor (inject_Z budget * (95 # 100)).

(** [const overhead = 50; const chunkCost = chunk.tokens + overhead] *)
Definition overhead : Z := 50.
Definition chunkCost (c : ScoredChunk) : Z := Z.of_N (tokens c) + overhead.

(** [currentTokens >= effectiveBudget * 0.98] *)
Definition budgetMostlyUsed (eff currentTokens : Z) : bool :=
  Qle_bool (inject_Z eff * (98 # 100)) (inject_Z currentTokens).

(** The body of the [for (const chunk of chunks)] loop, with the two
    mutable locals [selected] and [currentTokens] threaded through. *)
Fixpoint selectLoop (eff : Z) (chunks : list ScoredChunk)
    (selected : list ScoredChunk) (currentTokens : Z)
    : list ScoredChunk * Z :=
  match chunks with
  | [] => (selected, currentTokens)
  | c :: rest =>
      let '(selected', current') :=
        if currentTokens + chunkCost c <=? eff
        then (selected ++ [c], currentTokens + chunkCost c)
        else (selected, currentTokens) in
      if budgetMostlyUsed eff current'
      then (selected', current')
      else selectLoop eff rest selected' current'
  end.

Definition selectWithinBudget (budget : Z) (chunks : list ScoredChunk)
    : list ScoredChunk :=
  fst (selectLoop (effectiveBudget budget) chunks [] 0).

(** The sum over a selection of [tokens + 50]. *)
Definition totalCost (l : list ScoredChunk) : Z :=
  fold_right (fun c acc => chunkCost c + acc) 0 l.

End Builder.

(* ===================================================================== *)
(** * Keyword ranker ([rankers/keyword.ts])                               *)
(* ===================================================================== *)


Module Keyword.
Local Open Scope Q_scope.

Definition CONTENT_WEIGHT : Q := 1.
Definition PATH_WEIGHT : Q := 2.
Definition NAME_WEIGHT : Q := 3.

Definition STOPWORDS : gset string := list_to_set
  [ "a"; "an"; "and"; "are"; "as"; "at"; "be"; "by"; "for"; "from";
    "has"; "have"; "he"; "in"; "is"; "it"; "its"; "of"; "on"; "or";
    "that"; "the"; "to"; "was"; "were"; "will"; "with"; "this"; "which";
    "how"; "what"; "when"; "where"; "who"; "why"; "can"; "could"; "would";
    "should"; "may"; "might"; "must"; "do"; "does"; "did"; "done";
    "explain"; "describe"; "show"; "tell"; "find"; "get"; "called";
    "function"; "class"; "file"; "code" ].

(** [STEM_RULES]: a suffix pattern [/suf$/] and its replacement. *)
Definition STEM_RULES : list (string * string) :=
  [ ("tion", "t"); ("sion", "s"); ("ies", "y"); ("ied", "y");
    ("ation", ""); ("ement", ""); ("ment", ""); ("ing", "");
    ("ed", ""); ("es", ""); ("er", ""); ("ly", ""); ("e", ""); ("s", "") ].

(** [word.replace(/suf$/, replacement)], defined when [/suf$/.test(word)]. *)
Definition rewrite (rule : string * string) (word : string) : option string :=
  let '(suf, replacement) := rule in
  if JS.endsWith word suf
  then Some (JS.slice word 0 (String.length word - String.length suf) +:+ replacement)
  else None.

(** The [for (const [pattern, replacement] of STEM_RULES)] loop. *)
Fixpoint stemLoop (rules : list (string * string)) (word : string) : string :=
  match rules with
  | [] => word
  | rule :: rest =>
      match rewrite rule word with
      | Some stemmed =>
          if (3 <=? String.length stemmed)%nat then stemmed else stemLoop rest word
      | None => stemLoop rest word
      end
  end.

Definition stem (word : string) : string :=
  if (String.length word <? 4)%nat then word else stemLoop STEM_RULES word.

(** A rule is refused for a word when its pattern does not match, or when
    the rewritten word would have fewer than 3 characters. *)
Definition refused (word : string) (rule : string * string) : Prop :=
  match rewrite rule word with
  | None => True
  | Some stemmed => (String.length stemmed < 3)%nat
  end.

(** The reading of the stemmer in which only the first rule whose pattern
    matches is ever applied: its rewrite is taken when it leaves at least
    3 characters, and the word is returned unchanged otherwise. *)
Definition firstMatching (word : string) : option (string * string) :=
  List.find (fun rule => JS.endsWith word (fst rule)) STEM_RULES.

Definition stemFirstMatch (word : string) : string :=
  if (String.length word <? 4)%nat then word
  else match firstMatching word with
       | None => word
       | Some rule =>
           match rewrite rule word with
           | Some stemmed => if (3 <=? String.length stemmed)%nat then stemmed else word
           | None => word
           end
       end.

(** ** [extractImportantTerms] *)

(** The longest prefix of word characters, and what follows it. *)
Fixpoint spanWord (s : string) : string * string :=
  match s with
  | EmptyString => (EmptyString, EmptyString)
  | String c s' =>
      if JS.isWord c
      then let '(w, r) := spanWord s' in (String c w, r)
      else (EmptyString, s)
  end.

(** [query.match(/\.\w+/g)]: the successive matches, left to right.  The
    recursion consumes one character per step; a match is recorded at each
    dot that is followed by a word character, and the characters of the
    match cannot start another one since they are not dots. *)
Fixpoint dotMethods (s : string) : list string :=
  match s with
  | EmptyString => []
  | String c s' =>
      if Ascii.eqb c "."
      then match spanWord s' with
           | (EmptyString, _) => dotMethods s'
           | (w, _) => String c w :: dotMethods s'
           end
      else dotMethods s'
  end.

(** The characters up to the next occurrence of [q], and what follows that
    occurrence; [None] when [q] does not occur. *)
Fixpoint untilQuote (q : ascii) (s : string) : option (string * string) :=
  match s with
  | EmptyString => None
  | String c s' =>
      if Ascii.eqb c q then Some (EmptyString, s')
      else match untilQuote q s' with
           | Some (w, r) => Some (String c w, r)
           | None => None
           end
  end.

(** The double quote (code 34) and the single quote (code 39). *)
Definition dquote : ascii := "034"%char.
Definition squote : ascii := "039"%char.
Definition isQuote (c : ascii) : bool := Ascii.eqb c dquote || Ascii.eqb c squote.

(** The global match of the quoted-term pattern of [extractImportantTerms]
    (a double quote, one or more characters other than a double quote, a
    double quote; or the same with single quotes): the successive matches,
    quotes included.  [skip] counts the characters still covered by the
    last match, where no new match may start. *)
Fixpoint quotedFrom (skip : nat) (s : string) : list string :=
  match s with
  | EmptyString => []
  | String c s' =>
      match skip with
      | S k => quotedFrom k s'
      | O =>
          if isQuote c
          then match untilQuote c s' with
               | Some (String d w, _) =>
                   (String c (String d w) +:+ String c EmptyString)
                     :: quotedFrom (S (String.length w) + 1) s'
               | _ => quotedFrom 0 s'
               end
          else quotedFrom 0 s'
      end
  end.

Definition quoted (query : string) : list string := quotedFrom 0 query.

(** The removal of every quote character, single or double, from a
    matched term. *)
Fixpoint stripQuotes (s : string) : string :=
  match s with
  | EmptyString => EmptyString
  | String c s' => if isQuote c then stripQuotes s' else String c (stripQuotes s')
  end.

Definition extractImportantTerms (query : string) : gset string :=
  let important : gset string := ∅ in
  let important :=
    fold_left (fun (acc : gset string) method =>
                 {[ JS.toLowerCase (JS.slice method 1 (String.length method)) ]} ∪ acc)
              (dotMethods query) important in
  fold_left (fun (acc : gset string) term =>
               {[ JS.toLowerCase (stripQuotes term) ]} ∪ acc)
            (quoted query) important.

(** ** [tokenize] *)

(** The camel-case replacement [/([a-z])([A-Z])/g] by [$1 $2]: a space goes between every
    lower-case letter and the upper-case letter that follows it (two
    matches never overlap, their first letters being lower-case and their
    second ones upper-case). *)
Fixpoint splitCamel (s : string) : string :=
  match s with
  | EmptyString => EmptyString
  | String a s' =>
      match s' with
      | String b _ =>
          if JS.isLower a && JS.isUpper b
          then String a (String " " (splitCamel s'))
          else String a (splitCamel s')
      | EmptyString => String a EmptyString
      end
  end.

(** The replacement of every [_] and [-] by a space. *)
Definition unSnake (s : string) : string :=
  JS.smap (fun c => if Ascii.eqb c "_" || Ascii.eqb c "-" then " "%char else c) s.

(** [.split(/[\s\W]+/)]: the fields between the maximal runs of non-word
    characters (white space is not a word character).  [cur] is the field
    being read, reversed; [inSep] tells that the previous character was a
    separator. *)
Fixpoint splitNonWord (s : string) (cur : list ascii) (inSep : bool) : list string :=
  match s with
  | EmptyString => [string_of_list_ascii (rev cur)]
  | String c s' =>
      if JS.isWord c then splitNonWord s' (c :: cur) false
      else if inSep then splitNonWord s' cur true
      else string_of_list_ascii (rev cur) :: splitNonWord s' [] true
  end.

Definition tokenize (text : string) (filterStopwords applyStemming : bool) : list string :=
  let tokens := splitNonWord (JS.toLowerCase (unSnake (splitCamel text))) [] false in
  let tokens := List.filter (fun t => (1 <? String.length t)%nat) tokens in
  let tokens :=
    if filterStopwords
    then List.filter (fun t => negb (bool_decide (t ∈ STOPWORDS))) tokens
    else tokens in
  if applyStemming then map stem tokens else tokens.

(** ** [score] *)

(** [t.includes(qt) || qt.includes(t)] *)
Definition related (qt t : string) : bool := JS.includes t qt || JS.includes qt t.

(** [array.includes(x)] on strings. *)
Definition hasToken (l : list string) (x : string) : bool := existsb (String.eqb x) l.

(** [importantTerms.has(qt) ? 5.0 : 1.0] *)
Definition boostMultiplier (importantTerms : gset string) (qt : string) : Q :=
  if bool_decide (qt ∈ importantTerms) then 5 else 1.

Definition ofNat (n : nat) : Q := inject_Z (Z.of_nat n).

Section Score.

(** [Math.log], restricted to the arguments it receives here. *)
Variable Math_log : Q -> Q.

(** One iteration of [for (const qt of queryTokens)]: the increment of
    [score] made for the query token [qt]. *)
Definition tokenScore (contentTokens pathTokens nameTokens : list string)
    (densityFactor : Q) (importantTerms : gset string) (score : Q) (qt : string) : Q :=
  let boost := boostMultiplier importantTerms qt in
  let contentMatches := length (List.filter (related qt) contentTokens) in
  let normalizedContentScore :=
    if (0 <? contentMatches)%nat
    then (1 + Math_log (ofNat contentMatches)) * (1 + densityFactor)
    else 0 in
  let score := score + normalizedContentScore * CONTENT_WEIGHT * boost in
  let pathMatches := length (List.filter (related qt) pathTokens) in
  let score := score + ofNat pathMatches * PATH_WEIGHT * boost in
  let nameMatches := length (List.filter (related qt) nameTokens) in
  let score := score + ofNat nameMatches * NAME_WEIGHT * boost in
  let score := if hasToken contentTokens qt then score + 2 * boost else score in
  let score := if hasToken pathTokens qt then score + 10 * boost else score in
  let score := if hasToken nameTokens qt then score + 20 * boost else score in
  score.

Definition scoreOf (c : Chunk) (queryTokens : list string)
    (importantTerms : gset string) : Q :=
  let contentTokens := tokenize (content c) false true in
  let pathTokens := tokenize (relativePath c) false true in
  let nameTokens :=
    match name c with
    | Some n => tokenize n false true
    | None => []
    end in
  let densityFactor := Qmin 1 (200 / Qmax (ofNat (length contentTokens)) 1) in
  let score :=
    fold_left (tokenScore contentTokens pathTokens nameTokens densityFactor importantTerms)
              queryTokens 0 in
  let allTokensPresent :=
    forallb (fun qt => existsb (related qt) contentTokens
                       || existsb (related qt) pathTokens
                       || existsb (related qt) nameTokens) queryTokens in
  let score :=
    if allTokensPresent && (1 <? length queryTokens)%nat then score * (3 # 2) else score in
  let score :=
    if JS.includes (relativePath c) ".test." || JS.includes (relativePath c) ".spec."
       || JS.includes (relativePath c) "__fixtures__"
       || JS.includes (relativePath c) "__tests__"
    then score * (1 # 2) else score in
  let score :=
    if JS.includes (relativePath c) "/codemod/" || JS.includes (relativePath c) "/codemods/"
    then score * (3 # 10) else score in
  let score :=
    if JS.includes (relativePath c) "prepare"
       && negb (existsb (fun t => JS.includes t "prepar") queryTokens)
    then score * (7 # 10) else score in
  score.

(** [KeywordRanker.rank].  The comparator of the final sort is
    [(a, b) => b.score - a.score]. *)
Definition rank (chunks : list Chunk) (query : string) : list ScoredChunk :=
  let queryTokens := tokenize query true true in
  if (length queryTokens =? 0)%nat
  then map (fun c => mkScored c 0) chunks
  else
    let importantTerms := extractImportantTerms query in
    let scored := map (fun c => mkScored c (scoreOf c queryTokens importantTerms)) chunks in
    JSArray.sortBy (fun a b => score b - score a) scored.

(** The score [rank] gives to a chunk for a query. *)
Definition scoreFor (query : string) (c : Chunk) : Q :=
  let queryTokens := tokenize query true true in
  if (length queryTokens =? 0)%nat then 0
  else scoreOf c queryTokens (extractImportantTerms query).

End Score.

End Keyword.

(* ===================================================================== *)
(** * Embedding and hybrid rankers ([rankers/embedding.ts], [hybrid.ts])  *)
(* ===================================================================== *)

(** The external collaborators of the hybrid ranker: the text generator
    behind [generateHyDE] (its result, or the query itself on failure) and
    the embedding provider behind [embedQuery] and [embedTexts] (the vector
    finally associated with a text: the provider's answer, a cached one, or
    the zero vector substituted for a failed batch). *)
Record Oracles : Type := mkOracles {
  generateHyDE : string -> string;
  embed : string -> list Q
}.

Module Embedding.
Local Open Scope Q_scope.

Definition MAX_EMBED_CHARS : nat := 80 * 100.

Definition typeName (t : ChunkType) : string :=
  match t with
  | TFunction => "function" | TClass => "class" | TMethod => "method"
  | TInterface => "interface" | TType => "type" | TEnum => "enum"
  | TModule => "module" | TSection => "section" | TConstant => "constant"
  | TVariable => "variable"
  end.

(** [enrichWithContext] *)
Definition enrichWithContext (c : Chunk) : string :=
  let parts := ["File: " +:+ relativePath c] in
  let parts :=
    match name c with
    | Some (String a n) => parts ++ [typeName (type c) +:+ ": " +:+ String a n]
    | _ => parts
    end in
  let parts := parts ++ [JS.slice (content c) 0 MAX_EMBED_CHARS] in
  JS.join (String "010"%char EmptyString) parts.

Section Rank.
Variable Math_sqrt : Q -> Q.
Variable oracles : Oracles.

(** All similarities, or [None] as soon as one of them throws. *)
Fixpoint scoreAll (queryEmbedding : list Q) (chunks : list Chunk)
    : option (list ScoredChunk) :=
  match chunks with
  | [] => Some []
  | c :: rest =>
      match Utils.cosineSimilarity Math_sqrt queryEmbedding
                                   (embed oracles (enrichWithContext c)) with
      | None => None
      | Some sim =>
          match scoreAll queryEmbedding rest with
          | None => None
          | Some l => Some (mkScored c sim :: l)
          end
      end
  end.

(** [EmbeddingRanker.rank] *)
Definition rank (chunks : list Chunk) (query : string) : option (list ScoredChunk) :=
  let queryEmbedding := embed oracles query in
  match scoreAll queryEmbedding chunks with
  | None => None
  | Some scored => Some (JSArray.sortBy (fun a b => score b - score a) scored)
  end.

End Rank.
End Embedding.

Module Hybrid.
Local Open Scope Q_scope.

Definition KEYWORD_WEIGHT : Q := 4 # 10.
Definition EMBEDDING_WEIGHT : Q := 4 # 10.
Definition IMPORTANCE_WEIGHT : Q := 2 # 10.
Definition MARKDOWN_PENALTY : Q := 6 # 10.

(** [getImportance] *)
Definition getImportance (importanceScores : gmap string Q) (c : Chunk) : Q :=
  let importance := default (1 # 2) (importanceScores !! filePath c) in
  if String.eqb (language c) "markdown" || String.eqb (language c) "mdx"
  then importance * MARKDOWN_PENALTY
  else importance.

(** [chunks.map((chunk, i) => f(chunk, i))], from index [i] on. *)
Fixpoint mapIndexed {A B} (f : A -> nat -> B) (i : nat) (l : list A) : list B :=
  match l with
  | [] => []
  | x :: rest => f x i :: mapIndexed f (S i) rest
  end.

Section Rank.
Variable Math_log : Q -> Q.
Variable Math_sqrt : Q -> Q.
Variable importanceScores : gmap string Q.
Variable oracles : Oracles.

(** The three signals fused for the chunk at index [i] of the input:
    keyword, embedding, importance. *)
Definition keywordSignal (normalizedKeyword : list Q) (i : nat) : Q :=
  nth i normalizedKeyword 0.

Definition embeddingSignal (embeddingScoreMap : gmap string Q) (c : Chunk) : Q :=
  default 0 (embeddingScoreMap !! id c).

Definition finalScore (keywordScore embeddingScore importanceScore : Q) : Q :=
  keywordScore * KEYWORD_WEIGHT
  + embeddingScore * EMBEDDING_WEIGHT
  + importanceScore * IMPORTANCE_WEIGHT.

(** [normalize(keywordScored.map((c) => c.score))], the list the fusion
    step indexes by the position of a chunk in the input. *)
Definition normalizedKeyword (chunks : list Chunk) (query : string) : list Q :=
  Utils.normalize (map score (Keyword.rank Math_log chunks query)).

(** [HybridRanker.rank]; [fast] is [this.options.fast], and [None] stands
    for a thrown error. *)
Definition rank (fast : bool) (chunks : list Chunk) (query : string)
    : option (list ScoredChunk) :=
  if fast then Some (Keyword.rank Math_log chunks query)
  else
    let hydeDoc := generateHyDE oracles query in
    match Embedding.rank Math_sqrt oracles chunks hydeDoc with
    | None => None
    | Some embeddingScored =>
        let embeddingScoreMap : gmap string Q :=
          fold_left (fun (m : gmap string Q) (s : ScoredChunk) => <[id s := score s]> m)
                    embeddingScored ∅ in
        let normalizedKeyword := normalizedKeyword chunks query in
        let scored :=
          mapIndexed (fun c i =>
                        mkScored c (finalScore (keywordSignal normalizedKeyword i)
                                               (embeddingSignal embeddingScoreMap c)
                                               (getImportance importanceScores c)))
                     0%nat chunks in
        Some (JSArray.sortBy (fun a b => score b - score a) scored)
    end.

End Rank.
End Hybrid.

(* ===================================================================== *)
(** * Chunk cache ([cache.ts]) and the chunking step of [build]           *)
(* ===================================================================== *)

Module Cache.

Record FileRecord : Type := mkFileRecord {
  f_path : string;
  f_hash : string;
  f_mtime : Z;
  f_size : nat;
  last_accessed : Z;
  f_language : string
}.

Record ChunkRecord : Type := mkChunkRecord {
  row_id : nat;
  file_path : string;
  r_content : string;
  start_line : nat;
  end_line : nat;
  chunk_type : ChunkType;
  r_name : option string
}.

(** The two tables; [next_id] is the autoincrement counter of [chunks]. *)
Record DB : Type := mkDB {
  files : gmap string FileRecord;
  chunks : list ChunkRecord;
  next_id : nat
}.

Definition empty : DB := mkDB ∅ [] 1.

(** [x || null], [x || undefined] on an optional string. *)
Definition orNull (x : option string) : option string :=
  match x with
  | Some EmptyString => None
  | _ => x
  end.

(** [getFile]; [now] is [Date.now()]. *)
Definition getFile (db : DB) (now : Z) (path : string) (mtime : Z)
    : option FileRecord * DB :=
  match files db !! path with
  | Some r =>
      if mtime <=? f_mtime r
      then (Some r,
            mkDB (<[path := mkFileRecord (f_path r) (f_hash r) (f_mtime r) (f_size r)
                                         now (f_language r)]> (files db))
                 (chunks db) (next_id db))
      else (None, db)
  | None => (None, db)
  end.

(** [getChunks] *)
Definition getChunks (db : DB) (filePath : string) : list ChunkRecord :=
  List.filter (fun r => String.eqb (file_path r) filePath) (chunks db).

(** [setFile] *)
Definition setFile (db : DB) (now : Z) (path content : string) (mtime : Z)
    (language : string) : DB :=
  mkDB (<[path := mkFileRecord path (Utils.hashContent content) mtime
                               (String.length content) now language]> (files db))
       (chunks db) (next_id db).

(** The [for (const chunk of chunks)] loop of [setChunks]. *)
Fixpoint insertChunks (rows : list ChunkRecord) (next : nat) (filePath : string)
    (cs : list Chunk) : list ChunkRecord * nat :=
  match cs with
  | [] => (rows, next)
  | c :: rest =>
      insertChunks (rows ++ [mkChunkRecord next filePath (content c) (startLine c)
                                           (endLine c) (type c) (orNull (name c))])
                   (S next) filePath rest
  end.

(** [setChunks] *)
Definition setChunks (db : DB) (filePath : string) (cs : list Chunk) : DB :=
  let kept := List.filter (fun r => negb (String.eqb (file_path r) filePath)) (chunks db) in
  let '(rows, next) := insertChunks kept (next_id db) filePath cs in
  mkDB (files db) rows next.

(** [hasCachedChunks] *)
Definition hasCachedChunks (db : DB) (now : Z) (filePath : string) (mtime : Z)
    : bool * DB :=
  match getFile db now filePath mtime with
  | (None, db') => (false, db')
  | (Some _, db') => ((0 <? length (getChunks db' filePath))%nat, db')
  end.

End Cache.

Module Build.

Section ChunkingStep.
Variable PATTERNS : string -> list Chunker.Pattern.
Variable countTokens : string -> N.

(** The state the chunking step works on: the chunk cache and the
    token-count cache. *)
Record State : Type := mkState {
  cache : Cache.DB;
  tokenCache : gmap string N
}.

(** The first loop of step 3: files split into cached and uncached ones. *)
Fixpoint partitionFiles (db : Cache.DB) (now : Z) (files : list SourceFile)
    : list SourceFile * list SourceFile * Cache.DB :=
  match files with
  | [] => ([], [], db)
  | f :: rest =>
      let '(hit, db1) := Cache.hasCachedChunks db now (path f) (mtime f) in
      let '(cached, uncached, db2) := partitionFiles db1 now rest in
      if hit then (f :: cached, uncached, db2) else (cached, f :: uncached, db2)
  end.

(** The chunk built from one cache row. *)
Definition fromRow (file : SourceFile) (cached : Cache.ChunkRecord) (tokens : N) : Chunk :=
  mkChunk (path file +:+ ":" +:+ JS.showNat (Cache.start_line cached))
          (path file) (sf_relativePath file) (Cache.r_content cached)
          (Cache.start_line cached) (Cache.end_line cached)
          (Cache.chunk_type cached) (Cache.orNull (Cache.r_name cached))
          (sf_language file) tokens.

(** The loop over the rows of one cached file. *)
Fixpoint loadRows (file : SourceFile) (rows : list Cache.ChunkRecord)
    (tc : gmap string N) : list Chunk * gmap string N :=
  match rows with
  | [] => ([], tc)
  | cached :: rest =>
      let '(tokens, tc1) := TokenCache.count countTokens tc (Cache.r_content cached) in
      let '(cs, tc2) := loadRows file rest tc1 in
      (fromRow file cached tokens :: cs, tc2)
  end.

(** The loop [for (const file of cachedFiles)]. *)
Fixpoint loadCached (db : Cache.DB) (cachedFiles : list SourceFile)
    (tc : gmap string N) : list Chunk * gmap string N :=
  match cachedFiles with
  | [] => ([], tc)
  | file :: rest =>
      let '(cs, tc1) := loadRows file (Cache.getChunks db (path file)) tc in
      let '(cs', tc2) := loadCached db rest tc1 in
      (cs ++ cs', tc2)
  end.

(** [cacheChunksAsync]: the new chunks grouped by file and written back. *)
Fixpoint cacheChunks (db : Cache.DB) (now : Z) (files : list SourceFile)
    (newChunks : list Chunk) : Cache.DB :=
  match files with
  | [] => db
  | file :: rest =>
      let fileChunks := List.filter (fun c => String.eqb (filePath c) (path file)) newChunks in
      let db' :=
        match fileChunks with
        | [] => db
        | _ => Cache.setChunks
                 (Cache.setFile db now (path file) (sf_content file) (mtime file)
                                (sf_language file))
                 (path file) fileChunks
        end in
      cacheChunks db' now rest newChunks
  end.

(** Step 3 of [ContextBuilder.build]: [allChunks], and the state left
    behind. *)
Definition chunkingStep (st : State) (now : Z) (files : list SourceFile)
    : list Chunk * State :=
  let '(cachedFiles, uncachedFiles, db1) := partitionFiles (cache st) now files in
  let '(fromCache, tc1) := loadCached db1 cachedFiles (tokenCache st) in
  let newChunks := Chunker.chunkFilesParallel PATTERNS countTokens uncachedFiles in
  (fromCache ++ newChunks, mkState (cacheChunks db1 now uncachedFiles newChunks) tc1).

End ChunkingStep.
End Build.

(* ===================================================================== *)
(** * Predicates of the specification                                     *)
(* ===================================================================== *)

Module Layout.
Local Open Scope nat_scope.

(** The chunks of [l], in list order, lie one after the other inside the
    lines [lo .. hi] (1-indexed, inclusive), each on a non-empty range. *)
Fixpoint laidOut (lo hi : nat) (l : list Chunk) : Prop :=
  match l with
  | [] => True
  | c :: rest =>
      lo <= startLine c /\ startLine c <= endLine c /\ endLine c <= hi /\
      laidOut (S (endLine c)) hi rest
  end.

(** The boundaries of [bs] are on strictly increasing line indices, all
    within [lo .. n - 1]. *)
Fixpoint increasing (lo n : nat) (bs : list Chunker.Boundary) : Prop :=
  match bs with
  | [] => True
  | b :: rest => lo <= Chunker.line b /\ Chunker.line b < n /\
                 increasing (S (Chunker.line b)) n rest
  end.

(** The identifier of a chunk is free of colons, as a digest is. *)
Definition digestId (c : Chunk) : Prop := JS.includes (id c) ":" = false.

(** Two chunks do not overlap and the first one comes first. *)
Definition before (a b : Chunk) : Prop :=
  startLine a < startLine b /\ endLine a < startLine b.

End Layout.

(* ===================================================================== *)
(** * Sample inputs                                                       *)
(* ===================================================================== *)

Module Samples.
Local Open Scope Q_scope.

(** A rational square root, exact on squares of rationals and rounded
    down elsewhere; it stands for [Math.sqrt] where a definition is run on
    concrete vectors. *)
Definition sqrtFloor (x : Q) : Q := Z.sqrt (Qnum x * Zpos (Qden x)) # Qden x.

(** A tokenizer to run the definitions with: one token per character. *)
Definition charTokens (s : string) : N := N.of_nat (String.length s).

(** A pattern table without any language. *)
Definition noPatterns (language : string) : list Chunker.Pattern := [].

(** The chunks of two one-line TypeScript files, as [chunkBySize] cuts
    them: [a.ts] has nothing to do with the query [login], [login.ts]
    matches it by its path. *)
Definition chunkA : Chunk :=
  mkChunk (Utils.hashContent "/repo/a.ts:0") "/repo/a.ts" "a.ts" "xx"
          1 1 TSection None "typescript" 1.
Definition chunkB : Chunk :=
  mkChunk (Utils.hashContent "/repo/login.ts:0") "/repo/login.ts" "login.ts" "yy"
          1 1 TSection None "typescript" 1.

(** The generator fails ([generateHyDE] falls back to the query) and every
    embedding batch fails (zero vectors of dimension 768). *)
Definition failingOracles : Oracles :=
  mkOracles (fun query => query) (fun _ => repeat 0 768).

(** A provider whose vector for the query is opposite to its vector for
    every other text. *)
Definition opposedOracles : Oracles :=
  mkOracles (fun query => query)
            (fun text => if String.eqb text "login" then [1] else [-1]).

(** Ten chunks of 10000 tokens each. *)
Definition bigChunk (i : nat) : ScoredChunk :=
  mkScored (mkChunk (JS.showNat i) "/repo/big.ts" "big.ts" "" 1 1 TSection None
                    "typescript" 10000) (inject_Z (Z.of_nat (10 - i))).
Definition tenChunks : list ScoredChunk := map bigChunk (seq 0 10).

(** A tokenizer to run the definitions with: one token per word. *)
Definition wordTokens (s : string) : N :=
  N.of_nat (length (List.filter (fun w => negb (String.eqb w ""))
                                (Keyword.splitNonWord s [] false))).

(** Two texts of 102 characters with the same first 100 characters. *)
Definition hundredA : string := string_of_list_ascii (repeat "a"%char 100).
Definition textOneWord : string := hundredA +:+ "bb".
Definition textTwoWords : string := hundredA +:+ " b".

(** The path and the score, in lowest terms, of a ranked chunk. *)
Definition pathAndScore (sc : ScoredChunk) : string * Q :=
  (relativePath sc, Qred (score sc)).

(** The query of the important-term scenario, and the chunk of a one-line
    file [execute.ts]. *)
Definition boostQuery : string := "explain .execute method".
Definition executeChunk : Chunk :=
  mkChunk (Utils.hashContent "/repo/execute.ts:0") "/repo/execute.ts" "execute.ts" "x"
          1 1 TSection None "typescript" 1.

(** A one-line text file. *)
Definition helloFile : SourceFile :=
  mkSourceFile "/repo/a.txt" "a.txt" "hello" "text" 5 100.

End Samples.

(* ===================================================================== *)
(** * Further functions of the sources                                   *)
(* ===================================================================== *)

(** [batch] of [utils.ts] and the batched loop of [chunkFilesParallel]. *)
Module Batch.
Local Open Scope nat_scope.

(** [arr.slice(i, j)] *)
Definition slice {A} (arr : list A) (i j : nat) : list A := firstn (j - i) (skipn i arr).

(** The loop [for (let i = 0; i < arr.length; i += size)] of [batch].
    [None] stands for a loop that never ends, which is what happens for
    [size = 0] on a non-empty array; [fuel] bounds the iterations. *)
Fixpoint batchLoop {A} (fuel i : nat) (arr : list A) (size : nat)
    : option (list (list A)) :=
  if i <? length arr then
    match fuel with
    | O => None
    | S fuel' =>
        match batchLoop fuel' (i + size) arr size with
        | Some batches => Some (slice arr i (i + size) :: batches)
        | None => None
        end
    end
  else Some [].

Definition batch {A} (arr : list A) (size : nat) : option (list (list A)) :=
  batchLoop (length arr) 0 arr size.

Section Files.
Variable PATTERNS : string -> list Chunker.Pattern.
Variable countTokens : string -> N.

(** The loop [for (let i = 0; i < files.length; i += batchSize)] of
    [chunkFilesParallel]: each batch is chunked file by file and the
    results are appended in order. *)
Fixpoint filesLoop (fuel i : nat) (files : list SourceFile) (batchSize : nat)
    : option (list Chunk) :=
  if i <? length files then
    match fuel with
    | O => None
    | S fuel' =>
        let batchChunks :=
          map (fun file => Chunker.chunk PATTERNS countTokens (sf_content file) (path file)
                             (sf_relativePath file) (sf_language file))
              (slice files i (i + batchSize)) in
        match filesLoop fuel' (i + batchSize) files batchSize with
        | Some later => Some (concat batchChunks ++ later)
        | None => None
        end
    end
  else Some [].

Definition chunkFilesBatched (files : list SourceFile) (batchSize : nat)
    : option (list Chunk) :=
  filesLoop (length files) 0 files batchSize.

End Files.

(** [Math.min(20, Math.max(5, Math.ceil(uncachedFiles.length / 10)))],
    the batch size [build] passes. *)
Definition buildBatchSize (n : nat) : nat := Nat.min 20 (Nat.max 5 ((n + 9) / 10)).

End Batch.

(** The characters of a hexadecimal digest. *)
Module Hex.

Definition lowerHex (c : ascii) : bool :=
  JS.isDigit c || ((97 <=? JS.code c) && (JS.code c <=? 102))%nat.

Fixpoint allChars (p : ascii -> bool) (s : string) : bool :=
  match s with
  | EmptyString => true
  | String c s' => p c && allChars p s'
  end.

End Hex.

(** [ContextBuilder.formatContext] ([builder.ts]). *)
Module Formatter.

(** [byFile.get(key) || []], [push], [byFile.set(key, existing)] on a
    [Map], whose entries stay in the order in which their keys were first
    set. *)
Fixpoint push (key : string) (c : ScoredChunk) (byFile : list (string * list ScoredChunk))
    : list (string * list ScoredChunk) :=
  match byFile with
  | [] => [(key, [c])]
  | (k, cs) :: rest =>
      if String.eqb k key then (k, cs ++ [c]) :: rest
      else (k, cs) :: push key c rest
  end.

Definition groupByFile (chunks : list ScoredChunk) : list (string * list ScoredChunk) :=
  fold_left (fun byFile (c : ScoredChunk) => push (relativePath c) c byFile) chunks [].

(** [fileChunks.sort((a, b) => a.startLine - b.startLine)] *)
Definition byStartLine (a b : ScoredChunk) : Q :=
  inject_Z (Z.of_nat (startLine a) - Z.of_nat (startLine b)).

Definition sortFile (g : string * list ScoredChunk) : string * list ScoredChunk :=
  (fst g, JSArray.sortBy byStartLine (snd g)).

(** The map after the sorting loop. *)
Definition grouped (chunks : list ScoredChunk) : list (string * list ScoredChunk) :=
  map sortFile (groupByFile chunks).

(** The invariant of the grouping loop: one entry per path, every entry
    non-empty and holding chunks of its own path. *)
Definition wellGrouped (m : list (string * list ScoredChunk)) : Prop :=
  NoDup (map fst m) /\
  Forall (fun g => snd g <> [] /\ Forall (fun c : ScoredChunk => relativePath c = fst g) (snd g)) m.

Definition newline : string := String "010"%char EmptyString.
Definition fence : string := "```".

Definition lineInfo (c : ScoredChunk) : string :=
  if (startLine c =? endLine c)%nat
  then "Line " +:+ JS.showNat (startLine c)
  else "Lines " +:+ JS.showNat (startLine c) +:+ "-" +:+ JS.showNat (endLine c).

Definition nameInfo (c : ScoredChunk) : string :=
  match name c with
  | Some (String a n) =>
      " (" +:+ Embedding.typeName (type c) +:+ ": " +:+ String a n +:+ ")"
  | _ => ""
  end.

(** The four parts pushed for one chunk. *)
Definition chunkParts (c : ScoredChunk) : list string :=
  [ "### " +:+ lineInfo c +:+ nameInfo c +:+ newline;
    fence +:+ language c;
    content c;
    fence +:+ newline ].

Definition fileParts (g : string * list ScoredChunk) : list string :=
  ("## " +:+ fst g +:+ newline) :: flat_map chunkParts (snd g).

Definition formatContext (chunks : list ScoredChunk) : string :=
  match chunks with
  | [] => "No relevant code found for the query."
  | _ => JS.join newline (flat_map fileParts (grouped chunks))
  end.

End Formatter.

(** What the keyword ranker compares a query token with. *)
Module Matching.

(** A lower-case letter or a digit. *)
Definition lowerAlnum (c : ascii) : bool := JS.isLower c || JS.isDigit c.

(** [contentTokens], [pathTokens] and [nameTokens] of [score]. *)
Definition contentTokens (c : Chunk) : list string := Keyword.tokenize (content c) false true.
Definition pathTokens (c : Chunk) : list string := Keyword.tokenize (relativePath c) false true.
Definition nameTokens (c : Chunk) : list string :=
  match name c with
  | Some n => Keyword.tokenize n false true
  | None => []
  end.

(** The query token [qt] is related to some token of the chunk: one
    contains the other. *)
Definition matches (qt : string) (c : Chunk) : bool :=
  existsb (Keyword.related qt) (contentTokens c)
  || existsb (Keyword.related qt) (pathTokens c)
  || existsb (Keyword.related qt) (nameTokens c).

(** Some token of the query, as [rank] tokenizes it, matches the chunk. *)
Definition relevant (query : string) (c : Chunk) : bool :=
  existsb (fun qt => matches qt c) (Keyword.tokenize query true true).

End Matching.

(** What a chunk says about the file it was cut from. *)
Module Coverage.
Local Open Scope nat_scope.

(** The text of the chunk is the lines [startLine .. endLine] of the
    file, joined by newlines. *)
Definition verbatim (lines : list string) (c : Chunk) : Prop :=
  content c = Chunker.joinLines (Chunker.sliceLines lines (startLine c - 1) (endLine c)).

(** The number of lines of a chunk. *)
Definition lineCount (c : Chunk) : nat := endLine c - startLine c + 1.

(** The chunks of [l], in order, cut the lines [lo .. hi] into
    consecutive non-empty ranges, leaving no line out. *)
Fixpoint tiles (lo hi : nat) (l : list Chunk) : Prop :=
  match l with
  | [] => lo = S hi
  | c :: rest => startLine c = lo /\ lo <= endLine c /\ tiles (S (endLine c)) hi rest
  end.

Definition isPreamble (c : Chunk) : Prop :=
  name c = Some "imports/preamble" /\ type c = TSection /\ startLine c = 1.

(** What holds of every chunk cut from the file with lines [lines]. *)
Definition faithful (countTokens : string -> N) (lines : list string)
    (fp rp lang : string) (c : Chunk) : Prop :=
  filePath c = fp /\ relativePath c = rp /\ language c = lang /\
  tokens c = countTokens (content c) /\
  id c = Chunker.chunkId fp (startLine c - 1) /\
  verbatim lines c /\
  (lineCount c <= Chunker.maxLines \/ isPreamble c).

End Coverage.

(** What the cache keeps of a chunk, and what a run shows of it. *)
Module Stored.

(** The columns of a row other than its key and its file. *)
Definition rowView (r : Cache.ChunkRecord)
    : string * nat * nat * ChunkType * option string :=
  (Cache.r_content r, Cache.start_line r, Cache.end_line r, Cache.chunk_type r, Cache.r_name r).

(** The same columns, as [setChunks] reads them off a chunk. *)
Definition chunkView (c : Chunk) : string * nat * nat * ChunkType * option string :=
  (content c, startLine c, endLine c, type c, Cache.orNull (name c)).

(** A chunk without its identifier and its token count; an empty name
    counts as no name. *)
Definition shown (c : Chunk)
    : string * string * string * nat * nat * ChunkType * option string * string :=
  (filePath c, relativePath c, content c, startLine c, endLine c, type c,
   Cache.orNull (name c), language c).

End Stored.

Module Warm.

(** Two states of the cache with the same rows and the same recorded
    modification times: they differ by access times at most. *)
Definition sameData (db1 db2 : Cache.DB) : Prop :=
  Cache.chunks db1 = Cache.chunks db2 /\
  forall p, Cache.f_mtime <$> (Cache.files db1 !! p) = Cache.f_mtime <$> (Cache.files db2 !! p).

(** The chunks the chunker cuts from a file. *)
Definition chunksOf (PATTERNS : string -> list Chunker.Pattern) (countTokens : string -> N)
    (f : SourceFile) : list Chunk :=
  Chunker.chunk PATTERNS countTokens (sf_content f) (path f) (sf_relativePath f)
                (sf_language f).

End Warm.

(** [retry] of [utils.ts]. *)
Module Retry.
Local Open Scope Q_scope.

Section Retry.
Context {T E : Type}.

(** The function retried, given by the outcome of each of its successive
    calls: an error ([inl]) or a value ([inr]). *)
Variable fn : nat -> E + T.

(** The options [retries], [delay] and [backoff]. *)
Variable retries : Z.
Variable delay backoff : Q.

(** The loop [for (let i = 0; i <= retries; i++)], with [n] iterations
    left: the outcome ([inl lastError] for [throw lastError], where
    [lastError] is [None] as long as nothing was caught) and the
    durations slept, in order. *)
Fixpoint attempts (n i : nat) (lastError : option E) (slept : list Q)
    : (option E + T) * list Q :=
  match n with
  | O => (inl lastError, slept)
  | S n' =>
      match fn i with
      | inr v => (inr v, slept)
      | inl err =>
          attempts n' (S i) (Some err)
                   (if (Z.of_nat i <? retries)%Z
                    then slept ++ [delay * backoff ^ Z.of_nat i]
                    else slept)
      end
  end.

Definition retry : (option E + T) * list Q :=
  attempts (Z.to_nat (retries + 1)) 0 None [].

End Retry.

(** The durations slept before the attempts [1 .. k]. *)
Definition pauses (delay backoff : Q) (k : nat) : list Q :=
  map (fun i => delay * backoff ^ Z.of_nat i) (seq 0 k).

End Retry.

(** [path.basename] and [path.dirname] of the runtime, for POSIX paths. *)
Module Path.

Definition isSlash (c : ascii) : bool := Ascii.eqb c "/".

Fixpoint dropWhile {A} (p : A -> bool) (l : list A) : list A :=
  match l with
  | [] => []
  | x :: l' => if p x then dropWhile p l' else l
  end.

Fixpoint takeWhile {A} (p : A -> bool) (l : list A) : list A :=
  match l with
  | [] => []
  | x :: l' => if p x then x :: takeWhile p l' else []
  end.

(** [basename(p)]: trailing slashes apart, what follows the last slash. *)
Definition basename (p : string) : string :=
  let backwards := dropWhile isSlash (rev (list_ascii_of_string p)) in
  string_of_list_ascii (rev (takeWhile (fun c => negb (isSlash c)) backwards)).

(** The scan of [dirname] from the last character down to the second:
    the index of the last slash that is followed by something else than
    slashes.  [chars] holds the characters with their indices, last
    first. *)
Fixpoint dirEnd (chars : list (nat * ascii)) (matchedSlash : bool) : option nat :=
  match chars with
  | [] => None
  | (i, c) :: more =>
      if isSlash c
      then if matchedSlash then dirEnd more true else Some i
      else dirEnd more false
  end.

Definition dirname (p : string) : string :=
  match p with
  | EmptyString => "."
  | String c0 rest =>
      let hasRoot := isSlash c0 in
      let chars := list_ascii_of_string rest in
      match dirEnd (rev (combine (seq 1 (length chars)) chars)) true with
      | None => if hasRoot then "/" else "."
      | Some e => if hasRoot && (e =? 1)%nat then "//" else String.substring 0 e p
      end
  end.

End Path.

(** File importance ([analyzers/importance.ts]). *)
Module Importance.
Local Open Scope Q_scope.

Definition ENTRY_POINTS : gset string := list_to_set
  [ "index.ts"; "index.js"; "index.tsx"; "index.jsx"; "main.ts"; "main.js";
    "main.py"; "mod.rs"; "lib.rs"; "main.rs"; "main.go"; "app.ts"; "app.js";
    "app.py"; "server.ts"; "server.js"; "cli.ts"; "cli.js"; "cli.py";
    "__init__.py"; "setup.py"; "package.json"; "Cargo.toml"; "go.mod" ].

Definition IMPORTANT_DIRS : gset string := list_to_set
  [ "src"; "lib"; "core"; "api"; "routes"; "controllers"; "services"; "models";
    "components"; "hooks"; "utils"; "helpers" ].

Definition LOW_IMPORTANCE_DIRS : gset string := list_to_set
  [ "test"; "tests"; "__tests__"; "spec"; "specs"; "e2e"; "fixtures"; "mocks";
    "stubs"; "examples"; "docs"; "scripts"; "tools"; "config"; "configs" ].

(** Some pattern of [LOW_IMPORTANCE_PATTERNS] matches the path. *)
Definition lowImportancePattern (p : string) : bool :=
  JS.includes p ".test." || JS.includes p ".spec." || JS.includes p "_test."
  || JS.includes p "_spec." || JS.endsWith p ".d.ts" || JS.includes p ".config."
  || JS.includes p ".mock.".

(** [dirPath.split("/").filter(Boolean)] *)
Definition dirsOf (relativePath : string) : list string :=
  List.filter (fun d => negb (String.eqb d "")) (JS.splitChar "/" (Path.dirname relativePath)).

(** [calculateFileImportance] *)
Definition calculateFileImportance (file : SourceFile) : Q :=
  let score := 1 # 2 in
  let fileName := Path.basename (sf_relativePath file) in
  let dirs := dirsOf (sf_relativePath file) in
  let score := if bool_decide (fileName ∈ ENTRY_POINTS) then score + (3 # 10) else score in
  let score :=
    if existsb (fun dir => bool_decide (dir ∈ IMPORTANT_DIRS)) dirs
    then score + (1 # 10) else score in
  let score :=
    if existsb (fun dir => bool_decide (dir ∈ LOW_IMPORTANCE_DIRS)) dirs
    then score - (2 # 10) else score in
  let score :=
    if lowImportancePattern (sf_relativePath file) then score - (15 # 100) else score in
  let depth := length dirs in
  let score :=
    if (3 <? depth)%nat then score - inject_Z (Z.of_nat (depth - 3)) * (5 # 100) else score in
  let score := if (depth =? 0)%nat then score + (1 # 10) else score in
  let score :=
    if String.eqb (sf_language file) "markdown" || String.eqb (sf_language file) "mdx"
    then score - (1 # 10) else score in
  let score :=
    if String.eqb (sf_language file) "json" || String.eqb (sf_language file) "yaml"
    then score - (5 # 100) else score in
  Qmax 0 (Qmin 1 score).

(** [calculateImportance]: every file is entered under its path and under
    its relative path. *)
Definition calculateImportance (files : list SourceFile) : gmap string Q :=
  fold_left (fun (scores : gmap string Q) file =>
               let score := calculateFileImportance file in
               <[sf_relativePath file := score]> (<[path file := score]> scores))
            files ∅.

(** [combineScores]; [importanceWeight] defaults to 0.6. *)
Definition combineScores (importance centrality : gmap string Q) (importanceWeight : Q)
    : gmap string Q :=
  let centralityWeight := 1 - importanceWeight in
  merge (fun imp cent =>
           match imp, cent with
           | None, None => None
           | _, _ => Some (default (1 # 2) imp * importanceWeight
                           + default (1 # 2) cent * centralityWeight)
           end)
        importance centrality.

Definition defaultImportanceWeight : Q := 6 # 10.

End Importance.

(** Dependency centrality ([analyzers/dependency.ts]). *)
Module Dependency.
Local Open Scope Q_scope.

Record DependencyGraph : Type := mkGraph {
  imports : gmap string (list string);
  importedBy : gmap string (list string)
}.

Definition dampingFactor : Q := 85 # 100.
Definition iterations : nat := 10.

(** [scores.get(importer) || 1] *)
Definition importerScore (scores : gmap string Q) (importer : string) : Q :=
  match scores !! importer with
  | Some s => if Qeq_bool s 0 then 1 else s
  | None => 1
  end.

(** [graph.imports.get(importer)?.length || 1] *)
Definition importerOutDegree (graph : DependencyGraph) (importer : string) : Q :=
  match imports graph !! importer with
  | Some l => if (length l =? 0)%nat then 1 else inject_Z (Z.of_nat (length l))
  | None => 1
  end.

(** The new score of [path] in one iteration. *)
Definition newScore (graph : DependencyGraph) (scores : gmap string Q) (path : string) : Q :=
  fold_left (fun score importer =>
               score + (dampingFactor * importerScore scores importer)
                       / importerOutDegree graph importer)
            (default [] (importedBy graph !! path)) (1 - dampingFactor).

(** One iteration: every path of [scores] gets its new score, computed
    from the scores before the iteration. *)
Definition iteration (graph : DependencyGraph) (scores : gmap string Q) : gmap string Q :=
  map_imap (fun path _ => Some (newScore graph scores path)) scores.

(** [Math.max(...values)]; [None] stands for the result on no value. *)
Definition maxOf (values : list Q) : option Q :=
  fold_right (fun v acc => Some (match acc with Some m => Qmax v m | None => v end))
             None values.

(** [calculateCentrality] *)
Definition calculateCentrality (graph : DependencyGraph) : gmap string Q :=
  let scores : gmap string Q := (fun _ => 1) <$> imports graph in
  let scores := Nat.iter iterations (iteration graph) scores in
  match maxOf (snd <$> map_to_list scores) with
  | Some maxScore =>
      if negb (Qle_bool maxScore 0)
      then (fun score => score / maxScore) <$> scores else scores
  | None => scores
  end.

(** Every score of the map is positive. *)
Definition positive (scores : gmap string Q) : Prop :=
  forall p s, scores !! p = Some s -> 0 < s.

End Dependency.

(** More sample inputs. *)
Module Examples.
Local Open Scope Q_scope.

(** Three scores, the smallest in the middle. *)
Definition threeScores : list Q := [3; 1; 2].

(** A logarithm that is 0 everywhere; it stands for [Math.log] where a
    definition is run on counts of one match. *)
Definition zeroLog (x : Q) : Q := 0.

(** A pattern table with one pattern for every language: a line that
    starts with [def ] opens a function named by the rest of the line. *)
Definition defPattern : Chunker.Pattern :=
  Chunker.mkPattern
    (fun l => if String.prefix "def " l
              then Some [Some l; Some (String.substring 4 (String.length l - 4) l)]
              else None)
    TFunction 1.
Definition defPatterns (language : string) : list Chunker.Pattern := [defPattern].

(** Two definitions on two lines. *)
Definition twoDefs : string := "def f" +:+ Chunker.newline +:+ "def g".

(** Ten lines of comment, then a definition. *)
Definition withPreamble : string :=
  Chunker.joinLines (repeat "# note" 10 ++ ["def f"]).

(** A second one-line text file. *)
Definition worldFile : SourceFile :=
  mkSourceFile "/repo/b.txt" "b.txt" "world" "text" 5 100.

(** A call that fails twice and then returns 42. *)
Definition flaky (i : nat) : string + Z :=
  if (i <? 2)%nat then inl "timeout" else inr 42%Z.

(** An entry point at the root of a repository. *)
Definition rootIndex : SourceFile :=
  mkSourceFile "/repo/index.ts" "index.ts" "" "typescript" 0 0.

End Examples.

(* ===================================================================== *)
(** * Theorems                                                            *)
(* ===================================================================== *)

Module StrFacts.

Lemma append_cons c (a b : string) : String c a +:+ b = String c (a +:+ b).
Proof. reflexivity. Qed.

Lemma append_nil_l (b : string) : "" +:+ b = b.
Proof. reflexivity. Qed.

Lemma append_nil_r (a : string) : a +:+ "" = a.
Proof. induction a as [|x a IH]; [reflexivity|]. now rewrite append_cons, IH. Qed.

Lemma append_assoc (a b c : string) : (a +:+ b) +:+ c = a +:+ (b +:+ c).
Proof.
  induction a as [|x a IH]; [reflexivity|]. now rewrite !append_cons, IH.
Qed.

Lemma length_append (a b : string) :
  String.length (a +:+ b) = (String.length a + String.length b)%nat.
Proof.
  induction a as [|x a IH]; [reflexivity|]. rewrite append_cons. simpl. now rewrite IH.
Qed.

Lemma length_substring0 n s :
  String.length (String.substring 0 n s) = Nat.min n (String.length s).
Proof.
  revert n. induction s as [|c s IH]; intros [|n]; simpl; auto.
Qed.

Lemma substring0_all n s : (String.length s <= n)%nat -> String.substring 0 n s = s.
Proof.
  revert n. induction s as [|c s IH]; intros [|n] H; simpl in *; auto; try lia.
  f_equal. apply IH. lia.
Qed.

Lemma length_substring i n s :
  (i + n <= String.length s)%nat -> String.length (String.substring i n s) = n.
Proof.
  revert i. induction s as [|c s IH]; intros i H.
  - simpl in H. assert (i = 0 /\ n = 0)%nat as [-> ->] by lia. reflexivity.
  - destruct i as [|i].
    + rewrite length_substring0. simpl in *. lia.
    + simpl in *. apply IH. lia.
Qed.

Lemma append_inj_length (a1 a2 b1 b2 : string) :
  String.length a1 = String.length a2 -> a1 +:+ b1 = a2 +:+ b2 -> a1 = a2 /\ b1 = b2.
Proof.
  revert a2. induction a1 as [|c a1 IH]; intros [|c2 a2] Hl H; simpl in Hl; try lia.
  - now rewrite !append_nil_l in H.
  - rewrite !append_cons in H. injection H as -> H.
    destruct (IH a2 ltac:(lia) H) as [-> ->]. auto.
Qed.

Lemma showNat_inj n m : JS.showNat n = JS.showNat m -> n = m.
Proof.
  unfold JS.showNat. intros H.
  assert (Hnn : forall k, Nat.to_uint k <> Decimal.Nil).
  { intros k. rewrite <- (DecimalNat.Unsigned.of_to k) at 1.
    rewrite DecimalNat.Unsigned.to_of. apply DecimalFacts.unorm_nonnil. }
  pose proof (NilZero.usu _ (Hnn n)) as Hn. pose proof (NilZero.usu _ (Hnn m)) as Hm.
  rewrite H in Hn. rewrite Hn in Hm. injection Hm as Hm.
  now apply DecimalNat.Unsigned.to_uint_inj.
Qed.

(** The number of digits of a number below 1000. *)
Lemma showNat_length_small n :
  (n < 1000)%nat ->
  String.length (JS.showNat n) =
    if (n <? 10)%nat then 1%nat else if (n <? 100)%nat then 2%nat else 3%nat.
Proof.
  intros Hn.
  assert (Hall : forallb (fun k => (String.length (JS.showNat k) =?
                   (if k <? 10 then 1 else if k <? 100 then 2 else 3))%nat)
                   (seq 0 1000) = true) by (vm_compute; reflexivity).
  rewrite forallb_forall in Hall. apply Nat.eqb_eq. apply Hall.
  apply in_seq. lia.
Qed.

End StrFacts.

Module BuilderFacts.
Import Builder.

Lemma chunkCost_pos c : 50 <= chunkCost c.
Proof. unfold chunkCost, overhead. lia. Qed.

Lemma totalCost_app l1 l2 : totalCost (l1 ++ l2) = totalCost l1 + totalCost l2.
Proof.
  induction l1 as [|c l1 IH]; simpl; [lia|].
  unfold totalCost in *. simpl. rewrite IH. lia.
Qed.

Lemma totalCost_nonneg l : 0 <= totalCost l.
Proof.
  induction l as [|c l IH]; unfold totalCost in *; simpl; [lia|].
  pose proof (chunkCost_pos c). lia.
Qed.

(** Loop invariant: the running counter is the cost of the selection, and
    it never exceeds the effective budget. *)
Lemma selectLoop_inv eff chunks sel cur :
  cur = totalCost sel -> cur <= eff ->
  let r := selectLoop eff chunks sel cur in
  snd r = totalCost (fst r) /\ snd r <= eff /\ cur <= snd r.
Proof.
  revert sel cur. induction chunks as [|c rest IH]; intros sel cur Hc Hle; simpl.
  - repeat split; auto; lia.
  - destruct (Z.leb_spec (cur + chunkCost c) eff) as [Hfit|Hno].
    + assert (Hc' : cur + chunkCost c = totalCost (sel ++ [c])).
      { rewrite totalCost_app. unfold totalCost at 2. simpl. lia. }
      pose proof (chunkCost_pos c).
      destruct (budgetMostlyUsed eff (cur + chunkCost c)); simpl.
      * repeat split; auto; lia.
      * destruct (IH (sel ++ [c]) (cur + chunkCost c) Hc' Hfit) as (A & B & C).
        repeat split; auto; lia.
    + destruct (budgetMostlyUsed eff cur); simpl.
      * repeat split; auto; lia.
      * apply IH; auto.
Qed.

(** Once the counter has reached 98% of the effective budget after a
    non-empty prefix, the rest of the input is not looked at. *)
Lemma selectLoop_stop eff pre rest sel cur :
  pre <> [] -> 0 <= eff -> cur = totalCost sel -> cur <= eff ->
  budgetMostlyUsed eff (snd (selectLoop eff pre sel cur)) = true ->
  selectLoop eff (pre ++ rest) sel cur = selectLoop eff pre sel cur.
Proof.
  revert sel cur. induction pre as [|c pre IH]; intros sel cur Hne He Hc Hle Hstop.
  - congruence.
  - simpl in *.
    destruct (cur + chunkCost c <=? eff) eqn:Hfit.
    + destruct (budgetMostlyUsed eff (cur + chunkCost c)) eqn:Hb; [reflexivity|].
      destruct pre as [|c' pre'].
      * simpl in Hstop. congruence.
      * apply IH; auto; try discriminate.
        -- rewrite totalCost_app. unfold totalCost at 2. simpl. lia.
        -- apply Z.leb_le in Hfit. lia.
    + destruct (budgetMostlyUsed eff cur) eqn:Hb; [reflexivity|].
      destruct pre as [|c' pre'].
      * simpl in Hstop. congruence.
      * apply IH; auto; discriminate.
Qed.

(** While the counter is still below 98% after a prefix, no [break] was
    taken inside the prefix, so the loop over [pre ++ rest] continues from
    the state reached after [pre]. *)
Lemma selectLoop_continue eff pre rest sel cur :
  cur = totalCost sel -> cur <= eff ->
  budgetMostlyUsed eff (snd (selectLoop eff pre sel cur)) = false ->
  selectLoop eff (pre ++ rest) sel cur =
  selectLoop eff rest (fst (selectLoop eff pre sel cur))
                      (snd (selectLoop eff pre sel cur)).
Proof.
  revert sel cur. induction pre as [|c pre IH]; intros sel cur Hc Hle Hgo.
  - reflexivity.
  - simpl in *.
    destruct (cur + chunkCost c <=? eff) eqn:Hfit.
    + destruct (budgetMostlyUsed eff (cur + chunkCost c)) eqn:Hb.
      * simpl in Hgo. congruence.
      * apply IH; auto.
        -- rewrite totalCost_app. unfold totalCost at 2. simpl. lia.
        -- apply Z.leb_le in Hfit. lia.
    + destruct (budgetMostlyUsed eff cur) eqn:Hb.
      * simpl in Hgo. congruence.
      * apply IH; auto.
Qed.

Lemma effectiveBudget_nonneg budget : 0 <= budget -> 0 <= effectiveBudget budget.
Proof.
  intros H. unfold effectiveBudget. change 0 with (Qfloor 0).
  apply Qfloor_resp_le. unfold Qle. simpl. lia.
Qed.

(** The effective budget is the integer quotient of [95 * budget] by 100. *)
Lemma effectiveBudget_quotient budget : effectiveBudget budget = (budget * 95) / 100.
Proof. reflexivity. Qed.

(** The running total against the two thresholds of the loop. *)
Lemma budgetMostlyUsed_spec eff cur :
  budgetMostlyUsed eff cur = true <-> 98 * eff <= 100 * cur.
Proof.
  unfold budgetMostlyUsed. rewrite Qle_bool_iff. unfold Qle. simpl. lia.
Qed.

Lemma budgetMostlyUsed_false eff cur :
  budgetMostlyUsed eff cur = false <-> 100 * cur < 98 * eff.
Proof.
  pose proof (budgetMostlyUsed_spec eff cur) as [H1 H2].
  destruct (budgetMostlyUsed eff cur); split; intros H'.
  - discriminate.
  - specialize (H1 eq_refl). lia.
  - destruct (Z.le_gt_cases (98 * eff) (100 * cur)) as [Hle|Hgt]; [|lia].
    specialize (H2 Hle). discriminate.
  - reflexivity.
Qed.

(** The effective budget is the floor of 95% of the budget. *)
Lemma effectiveBudget_floor budget :
  100 * effectiveBudget budget <= 95 * budget < 100 * (effectiveBudget budget + 1).
Proof.
  rewrite effectiveBudget_quotient.
  pose proof (Z.div_mod (budget * 95) 100 ltac:(lia)) as Hdm.
  pose proof (Z.mod_pos_bound (budget * 95) 100 ltac:(lia)) as Hmod. lia.
Qed.

(** The cost of a selection is the sum of [tokens + 50] over it. *)
Lemma totalCost_sum l :
  totalCost l = fold_right (fun (c : ScoredChunk) acc => Z.of_N (tokens c) + 50 + acc) 0 l.
Proof. reflexivity. Qed.

(** The steps of the loop, in terms of the running counter. *)
Lemma selectWithinBudget_steps (budget : Z) (chunks : list ScoredChunk) :
  0 <= budget ->
  let eff := effectiveBudget budget in
  (forall pre c rest, chunks = pre ++ c :: rest ->
     budgetMostlyUsed eff (totalCost (selectWithinBudget budget pre)) = false ->
     selectWithinBudget budget (pre ++ [c]) =
       if totalCost (selectWithinBudget budget pre) + (Z.of_N (tokens c) + 50) <=? eff
       then selectWithinBudget budget pre ++ [c]
       else selectWithinBudget budget pre) /\
  (forall pre rest, chunks = pre ++ rest -> pre <> [] ->
     budgetMostlyUsed eff (totalCost (selectWithinBudget budget pre)) = true ->
     selectWithinBudget budget chunks = selectWithinBudget budget pre) /\
  totalCost (selectWithinBudget budget chunks) <= eff.
Proof.
  intros Hb eff. pose proof (effectiveBudget_nonneg budget Hb) as He.
  fold eff in He. unfold selectWithinBudget. fold eff.
  assert (Hinv : forall l, snd (selectLoop eff l [] 0) = totalCost (fst (selectLoop eff l [] 0))
                          /\ snd (selectLoop eff l [] 0) <= eff).
  { intros l. destruct (selectLoop_inv eff l [] 0 eq_refl He) as (A & B & _). auto. }
  split; [|split].
  - intros pre c rest _ Hgo.
    destruct (Hinv pre) as [Hs Hle]. rewrite <- Hs in Hgo |- *.
    rewrite (selectLoop_continue eff pre [c] [] 0 eq_refl He Hgo).
    simpl. change (Z.of_N (tokens c) + 50) with (chunkCost c).
    clear Hgo.
    destruct (snd (selectLoop eff pre [] 0) + chunkCost c <=? eff);
      match goal with
      | |- context [budgetMostlyUsed eff ?x] => destruct (budgetMostlyUsed eff x)
      end; reflexivity.
  - intros pre rest -> Hne Hstop.
    destruct (Hinv pre) as [Hs _]. rewrite <- Hs in Hstop.
    now rewrite (selectLoop_stop eff pre rest [] 0 Hne He eq_refl He Hstop).
  - destruct (Hinv chunks) as [Hs Hle]. now rewrite <- Hs.
Qed.

(** C1.  For a non-negative budget, [selectWithinBudget] packs greedily
    under the effective budget [eff = floor (0.95 * budget)], that is
    [100 * eff <= 95 * budget < 100 * (eff + 1)].  With [spent] the sum of
    [tokens + 50] over a selection:
    (1) as long as the running total is below 98% of the effective budget
        ([100 * spent < 98 * eff]), the next candidate [c] is accepted
        exactly when the running total plus [tokens c + 50] is at most the
        effective budget;
    (2) once the running total has reached 98% of the effective budget
        ([98 * eff <= 100 * spent]), no later candidate is considered;
    (3) the sum of [tokens + 50] over the selected chunks is at most the
        effective budget, hence at most 95% of the budget. *)
Theorem select_within_budget_sound (budget : Z) (chunks : list ScoredChunk) :
  0 <= budget ->
  let eff := effectiveBudget budget in
  let spent := fun l : list ScoredChunk =>
                 fold_right (fun (c : ScoredChunk) acc => Z.of_N (tokens c) + 50 + acc) 0 l in
  100 * eff <= 95 * budget < 100 * (eff + 1) /\
  (forall pre c rest, chunks = pre ++ c :: rest ->
     100 * spent (selectWithinBudget budget pre) < 98 * eff ->
     selectWithinBudget budget (pre ++ [c]) =
       if spent (selectWithinBudget budget pre) + (Z.of_N (tokens c) + 50) <=? eff
       then selectWithinBudget budget pre ++ [c]
       else selectWithinBudget budget pre) /\
  (forall pre rest, chunks = pre ++ rest -> pre <> [] ->
     98 * eff <= 100 * spent (selectWithinBudget budget pre) ->
     selectWithinBudget budget chunks = selectWithinBudget budget pre) /\
  spent (selectWithinBudget budget chunks) <= eff /\
  100 * spent (selectWithinBudget budget chunks) <= 95 * budget.
Proof.
  intros Hb eff spent.
  pose proof (effectiveBudget_floor budget) as Hfloor. fold eff in Hfloor.
  destruct (selectWithinBudget_steps budget chunks Hb) as (Hstep & Hstop & Hsum).
  fold eff in Hstep, Hstop, Hsum.
  assert (Hsp : forall l, spent l = totalCost l) by (intros l; reflexivity).
  split; [exact Hfloor|]. split; [|split; [|split]].
  - intros pre c rest Hchunks Hgo. rewrite Hsp in *.
    apply (Hstep pre c rest Hchunks). now apply budgetMostlyUsed_false.
  - intros pre rest Hchunks Hne Hfull. rewrite Hsp in Hfull.
    apply (Hstop pre rest Hchunks Hne). now apply budgetMostlyUsed_spec.
  - rewrite Hsp. exact Hsum.
  - rewrite Hsp. lia.
Qed.

End BuilderFacts.

(* ===================================================================== *)
(** * The stemmer and the important-term boost                            *)
(* ===================================================================== *)

Module KeywordFacts.
Import Keyword Samples.

Lemma stemLoop_length rules word :
  stemLoop rules word = word \/ (3 <= String.length (stemLoop rules word))%nat.
Proof.
  induction rules as [|rule rest IH]; cbn [stemLoop]; [now left|].
  destruct (rewrite rule word) as [stemmed|]; [|exact IH].
  destruct (Nat.leb_spec 3 (String.length stemmed)); [now right|exact IH].
Qed.

(** The loop returns the rewrite of the first rule that is not refused,
    and the word itself when every rule is refused. *)
Lemma stemLoop_first_admissible rules word :
  (exists before rule after stemmed,
      rules = before ++ rule :: after /\
      Forall (refused word) before /\
      rewrite rule word = Some stemmed /\
      (3 <= String.length stemmed)%nat /\
      stemLoop rules word = stemmed)
  \/ (Forall (refused word) rules /\ stemLoop rules word = word).
Proof.
  induction rules as [|rule rest IH]; cbn [stemLoop].
  - right. split; [constructor|reflexivity].
  - assert (Hskip : refused word rule ->
        (exists before r after stemmed,
            rule :: rest = before ++ r :: after /\
            Forall (refused word) before /\
            rewrite r word = Some stemmed /\
            (3 <= String.length stemmed)%nat /\
            stemLoop rest word = stemmed)
        \/ (Forall (refused word) (rule :: rest) /\ stemLoop rest word = word)).
    { intros Hr.
      destruct IH as [(before & r & after & st & -> & Hb & Hrule & Hl & Hs)|[Hall Hs]].
      - left. exists (rule :: before), r, after, st.
        split; [reflexivity|]. split; [now constructor|]. auto.
      - right. split; [now constructor|exact Hs]. }
    destruct (rewrite rule word) as [stemmed|] eqn:Hrw.
    + destruct (Nat.leb_spec 3 (String.length stemmed)) as [Hlen|Hlen].
      * left. exists [], rule, rest, stemmed.
        split; [reflexivity|]. split; [constructor|]. auto.
      * apply Hskip. unfold refused. now rewrite Hrw.
    + apply Hskip. unfold refused. now rewrite Hrw.
Qed.

(** C7 (as stated).  Applying only the first rule whose pattern matches is
    not what [stem] does: for the word ties the first matching rule is
    ies -> y, whose result ty is refused, and the loop goes on to the
    last rule s -> (nothing), returning tie; under the claim the word
    would be left unchanged. *)
Lemma stem_is_not_first_matching_rule :
  firstMatching "ties" = Some ("ies", "y") /\
  rewrite ("ies", "y") "ties" = Some "ty" /\
  stemFirstMatch "ties" = "ties" /\
  stem "ties" = "tie" /\
  stem "ties" <> stemFirstMatch "ties".
Proof.
  repeat split; try (vm_compute; reflexivity).
  vm_compute. discriminate.
Qed.

(** C7 (amended).  Words shorter than 4 characters are returned unchanged.
    For a longer word, [stem] returns the rewrite of the first rule of
    [STEM_RULES], in order, whose pattern matches and whose result has at
    least 3 characters (a rule whose rewrite is refused is skipped, and
    the later rules are still tried); the word is returned unchanged when
    there is no such rule.  The stem of a word of at least 3 characters
    has at least 3 characters. *)
Theorem stem_first_admissible_rule (word : string) :
  STEM_RULES =
    [ ("tion", "t"); ("sion", "s"); ("ies", "y"); ("ied", "y");
      ("ation", ""); ("ement", ""); ("ment", ""); ("ing", "");
      ("ed", ""); ("es", ""); ("er", ""); ("ly", ""); ("e", ""); ("s", "") ] /\
  ((String.length word < 4)%nat -> stem word = word) /\
  ((4 <= String.length word)%nat ->
     (exists before rule after stemmed,
         STEM_RULES = before ++ rule :: after /\
         Forall (refused word) before /\
         rewrite rule word = Some stemmed /\
         (3 <= String.length stemmed)%nat /\
         stem word = stemmed)
     \/ (Forall (refused word) STEM_RULES /\ stem word = word)) /\
  ((3 <= String.length word)%nat -> (3 <= String.length (stem word))%nat).
Proof.
  split; [reflexivity|]. unfold stem. split; [|split].
  - intros H. apply Nat.ltb_lt in H. now rewrite H.
  - intros H. apply Nat.ltb_ge in H. rewrite H. apply stemLoop_first_admissible.
  - intros H. destruct (Nat.ltb_spec (String.length word) 4); [exact H|].
    destruct (stemLoop_length STEM_RULES word) as [-> | Hl]; [exact H|exact Hl].
Qed.

(** C5.  On the query [explain .execute method] the important term is
    [execute], the query tokens are [execut] and [method], and neither is
    a member of the important terms: the token that comes from the dotted
    term is scored with the multiplier 1, not 5, and the chunk of the file
    [execute.ts] gets 2 + 10 = 12 from its path instead of 5 times that. *)
Theorem dotted_term_not_boosted (Math_log : Q -> Q) :
  elements (extractImportantTerms boostQuery) = ["execute"] /\
  tokenize boostQuery true true = ["execut"; "method"] /\
  map (boostMultiplier (extractImportantTerms boostQuery))
      (tokenize boostQuery true true) = [1%Q; 1%Q] /\
  tokenize (relativePath executeChunk) false true = ["execut"; "ts"] /\
  Qred (scoreOf Math_log executeChunk
          (tokenize boostQuery true true) (extractImportantTerms boostQuery)) = 12%Q.
Proof.
  repeat split; vm_compute; reflexivity.
Qed.

End KeywordFacts.

(* ===================================================================== *)
(** * The stable sort                                                     *)
(* ===================================================================== *)

Module JSArrayFacts.
Import JSArray.
Local Open Scope Q_scope.

Section Sort.
Context {A : Type} (cmp : A -> A -> Q).

Lemma insertBy_perm x l : Permutation (insertBy cmp x l) (x :: l).
Proof.
  induction l as [|y l IH]; simpl; [reflexivity|].
  destruct (Qle_bool (cmp x y) 0); [reflexivity|].
  rewrite IH. apply perm_swap.
Qed.

Lemma sortBy_perm l : Permutation (sortBy cmp l) l.
Proof.
  induction l as [|x l IH]; simpl; [reflexivity|].
  unfold sortBy in *. simpl. rewrite insertBy_perm. now constructor.
Qed.

(** A list in which every element already precedes the later ones is left
    as it is. *)
Lemma sortBy_sorted_id l :
  StronglySorted (fun a b => cmp a b <= 0) l -> sortBy cmp l = l.
Proof.
  induction 1 as [|x l Hs IH Hx]; [reflexivity|].
  unfold sortBy in *. simpl. rewrite IH.
  destruct l as [|y l']; [reflexivity|]. simpl.
  inversion Hx as [|? ? Hxy _]; subst.
  apply Qle_bool_iff in Hxy. now rewrite Hxy.
Qed.

End Sort.

Section Descending.
Context {A : Type} (key : A -> Q).

Lemma insertBy_desc_sorted x l :
  StronglySorted (fun a b => key b <= key a) l ->
  StronglySorted (fun a b => key b <= key a) (insertBy (desc key) x l).
Proof.
  induction 1 as [|y l Hs IH Hy]; simpl.
  - constructor; constructor.
  - destruct (Qle_bool (desc key x y) 0) eqn:Hc.
    + apply Qle_bool_iff in Hc. unfold desc in Hc.
      assert (Hyx : key y <= key x) by lra.
      constructor; [now constructor|].
      constructor; [exact Hyx|].
      eapply List.Forall_impl; [|exact Hy]. simpl. intros z Hz. lra.
    + assert (Hxy : key x <= key y).
      { destruct (Qlt_le_dec (key y) (key x)) as [Hlt|Hle]; [|exact Hle].
        assert (Hd : desc key x y <= 0) by (unfold desc; lra).
        apply Qle_bool_iff in Hd. congruence. }
      constructor; [exact IH|].
      apply (Permutation_Forall (Permutation_sym (insertBy_perm (desc key) x l))).
      now constructor.
Qed.

Lemma sortBy_desc_sorted l :
  StronglySorted (fun a b => key b <= key a) (sortBy (desc key) l).
Proof.
  induction l as [|x l IH]; [constructor|].
  unfold sortBy in *. simpl. now apply insertBy_desc_sorted.
Qed.

(** Stability: the elements of one score keep their relative order. *)
Lemma insertBy_desc_class q x l :
  List.filter (fun a => Qeq_bool (key a) q) (insertBy (desc key) x l) =
  List.filter (fun a => Qeq_bool (key a) q) (x :: l).
Proof.
  induction l as [|y l IH]; [reflexivity|].
  cbn [insertBy]. destruct (Qle_bool (desc key x y) 0) eqn:Hc; [reflexivity|].
  cbn [List.filter] in *. rewrite IH.
  destruct (Qeq_bool (key x) q) eqn:Hx; [|reflexivity].
  destruct (Qeq_bool (key y) q) eqn:Hy; [|reflexivity].
  apply Qeq_bool_iff in Hx, Hy.
  assert (Hd : desc key x y <= 0) by (unfold desc; lra).
  apply Qle_bool_iff in Hd. congruence.
Qed.

Lemma sortBy_desc_stable q l :
  List.filter (fun a => Qeq_bool (key a) q) (sortBy (desc key) l) =
  List.filter (fun a => Qeq_bool (key a) q) l.
Proof.
  induction l as [|x l IH]; [reflexivity|].
  unfold sortBy in *. cbn [fold_right]. rewrite insertBy_desc_class.
  cbn [List.filter]. now rewrite IH.
Qed.

End Descending.
End JSArrayFacts.

(* ===================================================================== *)
(** * Keyword ranking in fast mode                                        *)
(* ===================================================================== *)

Module RankFacts.
Import Keyword JSArray JSArrayFacts.
Local Open Scope Q_scope.

(** [rank] sorts the chunks, each with its score for the query, by
    descending score; without query tokens every score is 0 and the sort
    changes nothing. *)
Lemma rank_as_sort Math_log chunks query :
  rank Math_log chunks query =
  sortBy (desc score) (map (fun c => mkScored c (scoreFor Math_log query c)) chunks).
Proof.
  unfold rank, scoreFor.
  destruct (length (tokenize query true true) =? 0)%nat; [|reflexivity].
  symmetry. apply sortBy_sorted_id.
  induction chunks as [|c l IH]; simpl; constructor; [exact IH|].
  apply List.Forall_forall. intros x Hx. apply in_map_iff in Hx as (c' & <- & _).
  unfold desc. simpl. lra.
Qed.

(** C9.  With [fast = true] the hybrid ranker returns the keyword
    ranking, whatever the text generator, the embedding provider, the
    importance map and the square root are: the result is a function of
    the chunks and the query.  That result holds every input chunk once,
    with the score of the chunk for the query, in descending order of
    score, and chunks of equal score are in their order of insertion. *)
Theorem fast_rank_deterministic_stable (Math_log : Q -> Q)
    (chunks : list Chunk) (query : string) :
  let out := rank Math_log chunks query in
  let scored := map (fun c => mkScored c (scoreFor Math_log query c)) chunks in
  (forall Math_sqrt importanceScores oracles,
      Hybrid.rank Math_log Math_sqrt importanceScores oracles true chunks query
      = Some out) /\
  Permutation out scored /\
  StronglySorted (fun a b => score b <= score a) out /\
  (forall q, List.filter (fun a => Qeq_bool (score a) q) out =
             List.filter (fun a => Qeq_bool (score a) q) scored).
Proof.
  intros out scored. subst out scored. rewrite rank_as_sort.
  split; [|split; [|split]].
  - intros. unfold Hybrid.rank. now rewrite rank_as_sort.
  - apply sortBy_perm.
  - apply sortBy_desc_sorted.
  - intros q. apply sortBy_desc_stable.
Qed.

End RankFacts.

(* ===================================================================== *)
(** * Scores of the keyword and hybrid rankers                            *)
(* ===================================================================== *)

Module ScoreFacts.
Import Keyword Samples.
Local Open Scope Q_scope.

Lemma ofNat_nonneg n : 0 <= ofNat n.
Proof. unfold ofNat, Qle. simpl. lia. Qed.

Lemma ofNat_ge_1 n : (0 < n)%nat -> 1 <= ofNat n.
Proof. intros H. unfold ofNat, Qle. simpl. lia. Qed.

Lemma boost_pos important qt : 0 < boostMultiplier important qt.
Proof. unfold boostMultiplier. destruct (bool_decide _); reflexivity. Qed.

Lemma density_nonneg n : 0 <= Qmin 1 (200 / Qmax (ofNat n) 1).
Proof.
  apply Q.min_glb; [discriminate|].
  assert (H : 0 < Qmax (ofNat n) 1).
  { eapply Qlt_le_trans; [|apply Q.le_max_r]. reflexivity. }
  apply Qle_shift_div_l; [exact H|]. lra.
Qed.

Section Nonneg.
Variable Math_log : Q -> Q.
Hypothesis Math_log_nonneg : forall x, 1 <= x -> 0 <= Math_log x.

Lemma tokenScore_nonneg ct pt nt d important acc qt :
  0 <= d -> 0 <= acc -> 0 <= tokenScore Math_log ct pt nt d important acc qt.
Proof.
  intros Hd Hacc. unfold tokenScore.
  pose proof (boost_pos important qt) as Hb.
  set (b := boostMultiplier important qt) in *.
  set (cm := length (List.filter (related qt) ct)).
  assert (Hn : 0 <= (if (0 <? cm)%nat then (1 + Math_log (ofNat cm)) * (1 + d) else 0)).
  { destruct (Nat.ltb_spec 0 cm) as [Hpos|_]; [|lra].
    pose proof (Math_log_nonneg _ (ofNat_ge_1 cm Hpos)).
    apply Qmult_le_0_compat; lra. }
  set (ncs := if (0 <? cm)%nat then _ else _) in *.
  pose proof (ofNat_nonneg (length (List.filter (related qt) pt))) as Hp.
  pose proof (ofNat_nonneg (length (List.filter (related qt) nt))) as Hnm.
  set (pm := ofNat (length (List.filter (related qt) pt))) in *.
  set (nm := ofNat (length (List.filter (related qt) nt))) in *.
  unfold CONTENT_WEIGHT, PATH_WEIGHT, NAME_WEIGHT.
  assert (H1 : 0 <= ncs * 1 * b) by (apply Qmult_le_0_compat; lra).
  assert (H2 : 0 <= pm * 2 * b).
  { apply Qmult_le_0_compat; [|lra]. apply Qmult_le_0_compat; lra. }
  assert (H3 : 0 <= nm * 3 * b).
  { apply Qmult_le_0_compat; [|lra]. apply Qmult_le_0_compat; lra. }
  assert (H4 : 0 <= 2 * b) by (apply Qmult_le_0_compat; lra).
  assert (H5 : 0 <= 10 * b) by (apply Qmult_le_0_compat; lra).
  assert (H6 : 0 <= 20 * b) by (apply Qmult_le_0_compat; lra).
  destruct (hasToken ct qt), (hasToken pt qt), (hasToken nt qt); lra.
Qed.

Lemma fold_tokenScore_nonneg ct pt nt d important qts acc :
  0 <= d -> 0 <= acc ->
  0 <= fold_left (tokenScore Math_log ct pt nt d important) qts acc.
Proof.
  intros Hd. revert acc. induction qts as [|qt qts IH]; intros acc Hacc; simpl.
  - exact Hacc.
  - apply IH. now apply tokenScore_nonneg.
Qed.

(** Every keyword score is non-negative. *)
Lemma scoreOf_nonneg c queryTokens important :
  0 <= scoreOf Math_log c queryTokens important.
Proof.
  unfold scoreOf.
  set (ct := tokenize (content c) false true).
  set (pt := tokenize (relativePath c) false true).
  set (nt := match name c with Some n => tokenize n false true | None => [] end).
  pose proof (fold_tokenScore_nonneg ct pt nt _ important queryTokens 0
                (density_nonneg (length ct)) (Qle_refl 0)) as H0.
  set (s0 := fold_left _ queryTokens 0) in *.
  assert (Hscale : forall (b : bool) (k x : Q), 0 <= k -> 0 <= x ->
                     0 <= (if b then x * k else x)).
  { intros b k x Hk Hx. destruct b; [|exact Hx]. now apply Qmult_le_0_compat. }
  repeat (apply Hscale; [discriminate|]). exact H0.
Qed.

Lemma scoreFor_nonneg query c : 0 <= scoreFor Math_log query c.
Proof.
  unfold scoreFor. destruct (length _ =? 0)%nat; [lra|apply scoreOf_nonneg].
Qed.

(** In fast mode every score of the ranking is non-negative. *)
Lemma fast_rank_nonneg chunks query :
  Forall (fun sc => 0 <= score sc) (rank Math_log chunks query).
Proof.
  rewrite RankFacts.rank_as_sort.
  apply (Permutation_Forall (Permutation_sym (JSArrayFacts.sortBy_perm _ _))).
  apply List.Forall_forall. intros sc Hin.
  apply in_map_iff in Hin as (c & <- & _). simpl. apply scoreFor_nonneg.
Qed.

End Nonneg.

(** C2.  Hybrid ranking of [chunkA; chunkB] for the query [login].  The
    keyword ranker returns [chunkB] (score 12) before [chunkA] (score 0),
    so the normalized keyword scores are 1 and 0 in that order; the fusion
    step reads them by input position, giving [chunkA] the keyword signal
    1 and [chunkB] the signal 0, whereas their own normalized scores are 0
    and 1.  With failing oracles the final scores are 1/2 for [chunkA]
    and 1/10 for [chunkB]: the chunk that matches the query comes last. *)
Theorem hybrid_keyword_signal_misaligned (Math_log : Q -> Q) :
  map pathAndScore (rank Math_log [chunkA; chunkB] "login")
    = [("login.ts", 12); ("a.ts", 0)] /\
  map Qred (Hybrid.normalizedKeyword Math_log [chunkA; chunkB] "login") = [1; 0] /\
  map Qred (Utils.normalize (map (scoreFor Math_log "login") [chunkA; chunkB])) = [0; 1] /\
  option_map (map pathAndScore)
    (Hybrid.rank Math_log sqrtFloor ∅ failingOracles false [chunkA; chunkB] "login")
    = Some [("a.ts", 1 # 2); ("login.ts", 1 # 10)].
Proof.
  repeat split; vm_compute; reflexivity.
Qed.

(** C10.  Hybrid ranking of [chunkA] alone for the query [login], with an
    embedding provider whose vector for the chunk is opposite to the one
    for the query: the cosine similarity is -1 and the final score is
    0.4 * 0.5 + 0.4 * (-1) + 0.2 * 0.5 = -1/10, a negative score. *)
Theorem hybrid_score_negative (Math_log : Q -> Q) :
  Utils.cosineSimilarity sqrtFloor [1] [-1] = Some (-1 / (1 * 1)) /\
  option_map (map pathAndScore)
    (Hybrid.rank Math_log sqrtFloor ∅ opposedOracles false [chunkA] "login")
    = Some [("a.ts", -1 # 10)] /\
  -1 # 10 < 0.
Proof.
  repeat split; vm_compute; reflexivity.
Qed.

End ScoreFacts.

(* ===================================================================== *)
(** * The budget grammar                                                  *)
(* ===================================================================== *)

Module TokensFacts.
Import Tokens StrFacts.

Lemma spanDigits_spec s :
  s = fst (spanDigits s) +:+ snd (spanDigits s) /\
  allDigits (fst (spanDigits s)) = true /\
  nonDigitStart (snd (spanDigits s)).
Proof.
  induction s as [|c s IH]; simpl; [auto|].
  destruct (JS.isDigit c) eqn:Hc.
  - destruct (spanDigits s) as [d r]. simpl in *.
    destruct IH as (Hs & Hd & Hr). rewrite append_cons, <- Hs, Hc. auto.
  - simpl. auto.
Qed.

Lemma spanDigits_app d r :
  allDigits d = true -> nonDigitStart r -> spanDigits (d +:+ r) = (d, r).
Proof.
  intros Hd Hr. induction d as [|c d IH].
  - rewrite append_nil_l. destruct r as [|c r]; [reflexivity|]. simpl in *. now rewrite Hr.
  - simpl in Hd. apply andb_true_iff in Hd as [Hc Hd].
    rewrite append_cons. simpl. rewrite Hc, (IH Hd). reflexivity.
Qed.

Lemma allDigits_app a b :
  allDigits a = true -> allDigits b = true -> allDigits (a +:+ b) = true.
Proof.
  intros Ha Hb. induction a as [|c a IH]; [exact Hb|].
  simpl in Ha. apply andb_true_iff in Ha as [Hc Ha].
  rewrite append_cons. simpl. rewrite Hc. now apply IH.
Qed.

Lemma digitsValue_nonneg s acc :
  allDigits s = true -> 0 <= acc -> 0 <= digitsValue acc s.
Proof.
  revert acc. induction s as [|c s IH]; intros acc Hs Hacc; simpl in *; [exact Hacc|].
  apply andb_true_iff in Hs as [Hc Hs]. apply IH; [exact Hs|].
  unfold JS.isDigit in Hc. apply andb_true_iff in Hc as [Hlo _].
  apply Nat.leb_le in Hlo. lia.
Qed.

(** The letters that [toLowerCase] sends to k and to m. *)
Lemma toLower_k c : JS.toLowerChar c = "k"%char -> c = "k"%char \/ c = "K"%char.
Proof.
  destruct c as [[] [] [] [] [] [] [] []]; vm_compute; intros H;
    first [discriminate H | now left | now right].
Qed.

Lemma toLower_m c : JS.toLowerChar c = "m"%char -> c = "m"%char \/ c = "M"%char.
Proof.
  destruct c as [[] [] [] [] [] [] [] []]; vm_compute; intros H;
    first [discriminate H | now left | now right].
Qed.

(** The end of a match: nothing, or one suffix letter. *)
Lemma suffix_sound (rest int frac : string) (m : string * string * option ascii) :
  match rest with
  | EmptyString => Some (int, frac, None)
  | String c EmptyString =>
      let c := JS.toLowerChar c in
      if Ascii.eqb c "k" || Ascii.eqb c "m" then Some (int, frac, Some c) else None
  | _ => None
  end = Some m ->
  exists suffix, m = (int, frac, suffix) /\ Suffix rest (multiplier suffix).
Proof.
  destruct rest as [|c [|c' rest]]; [| |discriminate].
  - intros [= <-]. exists None. split; [reflexivity|constructor].
  - cbn zeta. destruct (Ascii.eqb (JS.toLowerChar c) "k") eqn:Hk.
    + intros [= <-]. exists (Some (JS.toLowerChar c)). split; [reflexivity|].
      apply Ascii.eqb_eq in Hk. rewrite Hk.
      destruct (toLower_k c Hk) as [-> | ->]; constructor.
    + destruct (Ascii.eqb (JS.toLowerChar c) "m") eqn:Hm; [|discriminate].
      intros [= <-]. exists (Some (JS.toLowerChar c)). split; [reflexivity|].
      apply Ascii.eqb_eq in Hm. rewrite Hm.
      destruct (toLower_m c Hm) as [-> | ->]; constructor.
Qed.

Lemma matchBudget_sound budget int frac suffix :
  matchBudget budget = Some (int, frac, suffix) ->
  InGrammar budget int frac (multiplier suffix).
Proof.
  unfold matchBudget.
  destruct (spanDigits_spec budget) as (Hb & Hd & Hr).
  destruct (spanDigits budget) as [d rest]. simpl in Hb, Hd, Hr.
  destruct d as [|a d]; [discriminate|].
  assert (Hint : digits1 (String a d)) by (split; [discriminate|exact Hd]).
  destruct rest as [|c rest'].
  - intros [= <- <- <-]. split; [exact Hint|].
    exists "". split; [constructor|]. left. auto.
  - destruct (Ascii.eqb c ".") eqn:Hdot.
    + apply Ascii.eqb_eq in Hdot. subst c.
      destruct (spanDigits_spec rest') as (Hb' & Hd' & Hr').
      destruct (spanDigits rest') as [f rest'']. simpl in Hb', Hd', Hr'.
      destruct f as [|b f].
      * destruct rest' as [|? ?]; [|discriminate]. vm_compute. discriminate.
      * intros H. apply suffix_sound in H as (sfx & [= -> -> ->] & Hs).
        split; [exact Hint|]. exists rest''. split; [exact Hs|]. right.
        split; [split; [discriminate|exact Hd']|].
        rewrite Hb, Hb'. reflexivity.
    + intros H. apply (suffix_sound (String c rest')) in H as (sfx & [= -> -> ->] & Hs).
      split; [exact Hint|]. exists (String c rest'). split; [exact Hs|]. left.
      split; [reflexivity|exact Hb].
Qed.

Lemma matchBudget_complete budget int frac mult :
  InGrammar budget int frac mult ->
  exists suffix, matchBudget budget = Some (int, frac, suffix) /\ mult = multiplier suffix.
Proof.
  intros ([Hne Hd] & sfx & Hs & Hcase). unfold matchBudget.
  destruct int as [|a d]; [congruence|].
  destruct Hcase as [[-> ->] | [[Hfne Hfd] ->]].
  - rewrite (spanDigits_app (String a d) sfx Hd) by (destruct Hs; simpl; auto).
    destruct Hs; vm_compute; eauto.
  - rewrite (spanDigits_app (String a d) ("." +:+ frac +:+ sfx) Hd) by reflexivity.
    change ("." +:+ frac +:+ sfx) with (String "." (frac +:+ sfx)).
    cbn iota. change (Ascii.eqb "." ".") with true. cbn iota.
    rewrite (spanDigits_app frac sfx Hfd) by (destruct Hs; simpl; auto).
    destruct frac as [|b f]; [congruence|].
    destruct Hs; vm_compute; eauto.
Qed.

Lemma decimal_nonneg int frac :
  allDigits int = true -> allDigits frac = true -> (0 <= decimal int frac)%Q.
Proof.
  intros Hi Hf. unfold decimal.
  assert (H0 : 0 <= digitsValue 0 (int +:+ frac)).
  { apply digitsValue_nonneg; [now apply allDigits_app|lia]. }
  assert (H1 : 0 < 10 ^ Z.of_nat (String.length frac)) by (apply Z.pow_pos_nonneg; lia).
  apply Qle_shift_div_l.
  - unfold Qlt. simpl. lia.
  - unfold Qle. simpl. lia.
Qed.

(** ** Rounding to the nearest double *)

Lemma roundHalfEven_nonneg a b : 0 <= a -> 0 < b -> 0 <= roundHalfEven a b.
Proof.
  intros Ha Hb. unfold roundHalfEven.
  pose proof (Z.div_pos a b Ha Hb).
  destruct (2 * (a mod b) <? b); [lia|].
  destruct (b <? 2 * (a mod b)); [lia|]. destruct (Z.even (a / b)); lia.
Qed.

Lemma roundHalfEven_exact q b : 0 < b -> roundHalfEven (q * b) b = q.
Proof.
  intros Hb. unfold roundHalfEven.
  rewrite Z.div_mul, Z.mod_mul by lia.
  destruct (Z.ltb_spec (2 * 0) b); [reflexivity|lia].
Qed.

(** The rounded quotient is within half a unit of the quotient. *)
Lemma roundHalfEven_error a b :
  0 < b ->
  2 * (roundHalfEven a b * b - a) <= b /\ 2 * (a - roundHalfEven a b * b) <= b.
Proof.
  intros Hb. unfold roundHalfEven.
  pose proof (Z.div_mod a b ltac:(lia)) as Hdm.
  pose proof (Z.mod_pos_bound a b Hb) as Hmod.
  destruct (Z.ltb_spec (2 * (a mod b)) b); [nia|].
  destruct (Z.ltb_spec b (2 * (a mod b))); [nia|].
  destruct (Z.even (a / b)); nia.
Qed.

Lemma roundHalfEven_floor a b : 0 < b -> a / b <= roundHalfEven a b.
Proof.
  intros Hb. unfold roundHalfEven.
  destruct (2 * (a mod b) <? b); [lia|].
  destruct (b <? 2 * (a mod b)); [lia|]. destruct (Z.even (a / b)); lia.
Qed.

Lemma nearest_nonneg a d : 0 <= a -> 0 < d -> 0 <= nearest a d.
Proof.
  intros Ha Hd. unfold nearest. cbv zeta.
  set (s := Z.max 0 _).
  assert (Hs : 0 < 2 ^ s) by (apply Z.pow_pos_nonneg; lia).
  apply Z.mul_nonneg_nonneg; [|lia].
  apply roundHalfEven_nonneg; [|nia].
  apply Z.mul_nonneg_nonneg; [exact Ha|]. apply Z.pow_nonneg. lia.
Qed.

(** The error of [nearest]: at most [2 ^ -53] of the number, or half a
    unit of [2 ^ -1074] where the doubles are evenly spaced. *)
Lemma nearest_error a d :
  0 <= a -> 0 < d ->
  2 ^ 53 * (nearest a d * d - a * 2 ^ 1074) <= a * 2 ^ 1074 + 2 ^ 52 * d /\
  2 ^ 53 * (a * 2 ^ 1074 - nearest a d * d) <= a * 2 ^ 1074 + 2 ^ 52 * d.
Proof.
  intros Ha Hd. unfold nearest. cbv zeta.
  set (n := a * 2 ^ 1074).
  assert (Hn : 0 <= n).
  { subst n. apply Z.mul_nonneg_nonneg; [exact Ha|]. apply Z.pow_nonneg. lia. }
  set (L := Z.log2 (n / d)).
  set (s := Z.max 0 (L - 52)).
  assert (Hs : 0 < 2 ^ s) by (apply Z.pow_pos_nonneg; lia).
  assert (Hb : 0 < d * 2 ^ s) by nia.
  pose proof (roundHalfEven_error n (d * 2 ^ s) Hb) as [He1 He2].
  set (m := roundHalfEven n (d * 2 ^ s)) in *.
  replace (m * 2 ^ s * d) with (m * (d * 2 ^ s)) by ring.
  set (b := d * 2 ^ s) in *.
  change (2 ^ 53) with (2 * 2 ^ 52). set (T := 2 ^ 52).
  assert (HT : 0 < T) by reflexivity.
  destruct (Z.le_gt_cases (L - 52) 0) as [Hle|Hgt].
  - assert (Hs0 : s = 0) by lia.
    assert (Hbd : b = d) by (subst b; rewrite Hs0; simpl; lia).
    rewrite Hbd in *. nia.
  - assert (Hsl : s = L - 52) by lia.
    assert (Hq : 0 < n / d).
    { destruct (Z.lt_trichotomy 0 (n / d)) as [H|[H|H]]; [exact H| |].
      - subst L. rewrite <- H in Hgt. simpl in Hgt. lia.
      - subst L. rewrite Z.log2_nonpos in Hgt by lia. lia. }
    pose proof (Z.log2_spec (n / d) Hq) as [Hlo _]. fold L in Hlo.
    assert (HL : 2 ^ L = 2 ^ s * T).
    { subst T. rewrite <- Z.pow_add_r by lia. f_equal. lia. }
    pose proof (Z.mul_div_le n d Hd) as Hdq.
    assert (Hbn : b * T <= n).
    { subst b. rewrite HL in Hlo. nia. }
    nia.
Qed.

(** From [2 ^ 1024] on, the nearest multiple is beyond the doubles. *)
Lemma nearest_overflow a d :
  0 < d -> d * 2 ^ 1024 <= a -> 2 ^ 2098 <= nearest a d.
Proof.
  intros Hd Ha. unfold nearest. cbv zeta.
  set (n := a * 2 ^ 1074).
  set (L := Z.log2 (n / d)).
  assert (Hq : 2 ^ 2098 <= n / d).
  { apply Z.div_le_lower_bound; [exact Hd|]. subst n.
    change (2 ^ 2098) with (2 ^ 1024 * 2 ^ 1074).
    assert (0 < 2 ^ 1074) by reflexivity. nia. }
  assert (HL : 2098 <= L).
  { subst L. change 2098 with (Z.log2 (2 ^ 2098)). now apply Z.log2_le_mono. }
  assert (Hs : Z.max 0 (L - 52) = L - 52) by lia. rewrite Hs.
  assert (Hp : 0 < 2 ^ (L - 52)) by (apply Z.pow_pos_nonneg; lia).
  assert (Hq0 : 0 < n / d) by (assert (0 < 2 ^ 2098) by reflexivity; lia).
  pose proof (Z.log2_spec (n / d) Hq0) as [Hlo _]. fold L in Hlo.
  assert (HLs : 2 ^ L = 2 ^ 52 * 2 ^ (L - 52)).
  { rewrite <- Z.pow_add_r by lia. f_equal. lia. }
  assert (Hm : 2 ^ 52 <= roundHalfEven n (d * 2 ^ (L - 52))).
  { etransitivity; [|apply roundHalfEven_floor; nia].
    apply Z.div_le_lower_bound; [nia|].
    pose proof (Z.mul_div_le n d Hd) as Hdq.
    rewrite HLs in Hlo. nia. }
  assert (H98 : 2 ^ 2098 <= 2 ^ L) by (apply Z.pow_le_mono_r; lia).
  rewrite HLs in H98. nia.
Qed.

(** Up to [2 ^ 1023] the nearest multiple is a double. *)
Lemma nearest_bounded a d :
  0 <= a -> 0 < d -> a <= d * 2 ^ 1023 -> nearest a d < 2 ^ 2098.
Proof.
  intros Ha Hd Hle.
  pose proof (nearest_error a d Ha Hd) as [He _].
  set (r := nearest a d) in *.
  assert (Hn : a * 2 ^ 1074 <= d * 2 ^ 2097).
  { change (2 ^ 2097) with (2 ^ 1023 * 2 ^ 1074).
    assert (0 < 2 ^ 1074) by reflexivity. nia. }
  assert (H1 : 2 ^ 53 * r * d <= ((2 ^ 53 + 1) * 2 ^ 2097 + 2 ^ 52) * d) by lia.
  apply Z.mul_le_mono_pos_r in H1; [|exact Hd]. lia.
Qed.

(** Integers and half-integers below [2 ^ 53] are doubles. *)
Lemma nearest_exact a d k :
  0 < d -> 0 <= k < 2 ^ 53 -> 2 * a = k * d -> nearest a d = k * 2 ^ 1073.
Proof.
  intros Hd Hk Had. unfold nearest. cbv zeta.
  assert (Hn : a * 2 ^ 1074 = (k * 2 ^ 1073) * d).
  { change (2 ^ 1074) with (2 * 2 ^ 1073). nia. }
  rewrite Hn. rewrite Z.div_mul by lia.
  destruct (Z.eq_dec k 0) as [->|Hk0].
  { set (s := Z.max _ _).
    assert (0 < 2 ^ s) by (apply Z.pow_pos_nonneg; lia).
    replace (0 * 2 ^ 1073 * d) with (0 * (d * 2 ^ s)) by ring.
    rewrite roundHalfEven_exact by nia. ring. }
  assert (Hkp : 0 < k) by lia.
  rewrite Z.log2_mul_pow2 by lia.
  pose proof (Z.log2_spec k Hkp) as [Hlo Hhi].
  assert (Hl53 : Z.log2 k < 53).
  { apply Z.log2_lt_pow2; lia. }
  assert (Hl0 : 0 <= Z.log2 k) by apply Z.log2_nonneg.
  set (l := Z.log2 k) in *.
  assert (Hs : Z.max 0 (1073 + l - 52) = l + 1021) by lia. rewrite Hs.
  assert (Hsplit : 2 ^ 1073 = 2 ^ (52 - l) * 2 ^ (l + 1021)).
  { rewrite <- Z.pow_add_r by lia. f_equal. lia. }
  assert (Hp : 0 < 2 ^ (l + 1021)) by (apply Z.pow_pos_nonneg; lia).
  replace (k * 2 ^ 1073 * d) with ((k * 2 ^ (52 - l)) * (d * 2 ^ (l + 1021)))
    by (rewrite Hsplit; ring).
  rewrite roundHalfEven_exact by nia.
  rewrite Hsplit. ring.
Qed.

(** ** Numbers *)

Lemma Qnum_nonneg (x : Q) : (0 <= x)%Q -> 0 <= Qnum x.
Proof. unfold Qle. simpl. lia. Qed.

(** The rounding of a non-negative real: an infinity, or a double within
    [2 ^ -53] of the real, relatively, or within [2 ^ -1075]. *)
Lemma toNumber_nonneg (x : Q) :
  (0 <= x)%Q ->
  toNumber x = Infinity false \/
  exists q, toNumber x = Finite q /\ (0 <= q)%Q /\
    (q - x <= x * (1 # 2 ^ 53) + (1 # 2 ^ 1075))%Q /\
    (x - q <= x * (1 # 2 ^ 53) + (1 # 2 ^ 1075))%Q.
Proof.
  intros Hx. apply Qnum_nonneg in Hx. destruct x as [a dd]. cbn [Qnum] in Hx.
  unfold toNumber. cbn [Qnum Qden]. rewrite Z.abs_eq by exact Hx.
  destruct (Z.ltb_spec a 0) as [Hneg|_]; [lia|].
  pose proof (nearest_nonneg a (Z.pos dd) Hx ltac:(lia)) as Hr.
  pose proof (nearest_error a (Z.pos dd) Hx ltac:(lia)) as [He1 He2].
  set (r := nearest a (Z.pos dd)) in *.
  destruct (2 ^ 2098 <=? r); [left; reflexivity|right].
  exists (r # 2 ^ 1074)%Q. split; [reflexivity|].
  split; [unfold Qle; cbn [Qnum Qden]; lia|].
  unfold Qle, Qminus, Qplus, Qopp, Qmult. cbn [Qnum Qden].
  rewrite !Pos2Z.inj_mul.
  change (Z.pos (2 ^ 1075)) with (2 * Z.pos (2 ^ 1074)).
  change (2 ^ 1074) with (Z.pos (2 ^ 1074)) in He1, He2.
  change (Z.pos (2 ^ 53)) with (2 * 2 ^ 52).
  change (2 ^ 53) with (2 * 2 ^ 52) in He1, He2.
  set (S := Z.pos (2 ^ 1074)) in *. set (d := Z.pos dd) in *.
  assert (HS : 0 < S) by reflexivity. assert (Hd : 0 < d) by reflexivity.
  set (T := 2 ^ 52) in *. assert (HT : 0 < T) by reflexivity.
  clearbody S d T r.
  split.
  - replace ((r * d + - a * S) * (d * (2 * T) * (2 * S)))
      with ((S * d) * (2 * (2 * T * (r * d - a * S)))) by ring.
    replace ((a * 1 * (2 * S) + 1 * (d * (2 * T))) * (S * d))
      with ((S * d) * (2 * (a * S + T * d))) by ring.
    apply Z.mul_le_mono_nonneg_l; [nia|lia].
  - replace ((a * S + - r * d) * (d * (2 * T) * (2 * S)))
      with ((S * d) * (2 * (2 * T * (a * S - r * d)))) by ring.
    replace ((a * 1 * (2 * S) + 1 * (d * (2 * T))) * (d * S))
      with ((S * d) * (2 * (a * S + T * d))) by ring.
    apply Z.mul_le_mono_nonneg_l; [nia|lia].
Qed.

(** Up to [2 ^ 1023] the rounding is finite. *)
Lemma toNumber_finite (x : Q) :
  (0 <= x)%Q -> (x <= inject_Z (2 ^ 1023))%Q ->
  exists q, toNumber x = Finite q /\ (0 <= q)%Q /\
    (q - x <= x * (1 # 2 ^ 53) + (1 # 2 ^ 1075))%Q /\
    (x - q <= x * (1 # 2 ^ 53) + (1 # 2 ^ 1075))%Q.
Proof.
  intros Hx Hle. destruct (toNumber_nonneg x Hx) as [Hinf|H]; [|exact H].
  exfalso. revert Hinf. unfold toNumber.
  pose proof (Qnum_nonneg x Hx) as Hn. rewrite Z.abs_eq by exact Hn.
  assert (Hb : nearest (Qnum x) (Z.pos (Qden x)) < 2 ^ 2098).
  { apply nearest_bounded; [exact Hn|lia|].
    unfold Qle in Hle. cbn [Qnum Qden inject_Z] in Hle. lia. }
  destruct (Z.leb_spec (2 ^ 2098) (nearest (Qnum x) (Z.pos (Qden x)))); [lia|discriminate].
Qed.

(** From [2 ^ 1024] on the rounding is infinite. *)
Lemma toNumber_overflow (x : Q) :
  (inject_Z (2 ^ 1024) <= x)%Q -> toNumber x = Infinity false.
Proof.
  intros Hle. unfold Qle in Hle. cbn [Qnum Qden inject_Z] in Hle.
  assert (Hn : 0 <= Qnum x).
  { assert (0 < 2 ^ 1024) by reflexivity. nia. }
  unfold toNumber. rewrite Z.abs_eq by exact Hn.
  assert (Hb : 2 ^ 2098 <= nearest (Qnum x) (Z.pos (Qden x))).
  { apply nearest_overflow; lia. }
  destruct (Z.leb_spec (2 ^ 2098) (nearest (Qnum x) (Z.pos (Qden x)))); [|lia].
  destruct (Z.ltb_spec (Qnum x) 0); [lia|reflexivity].
Qed.

(** Integers and half-integers below [2 ^ 53] are read and multiplied
    without rounding error. *)
Lemma toNumber_exact (x : Q) (k : Z) :
  (x == k # 2)%Q -> 0 <= k < 2 ^ 53 ->
  exists q, toNumber x = Finite q /\ (q == x)%Q.
Proof.
  intros Hx Hk. unfold Qeq in Hx. cbn [Qnum Qden] in Hx.
  assert (Hn : 0 <= Qnum x) by lia.
  unfold toNumber. rewrite Z.abs_eq by exact Hn.
  rewrite (nearest_exact (Qnum x) (Z.pos (Qden x)) k) by lia.
  destruct (Z.ltb_spec (Qnum x) 0); [lia|].
  destruct (Z.leb_spec (2 ^ 2098) (k * 2 ^ 1073)) as [Hbig|_].
  { exfalso. change (2 ^ 2098) with (2 ^ 1025 * 2 ^ 1073) in Hbig.
    assert (0 < 2 ^ 1073) by reflexivity.
    assert (2 ^ 53 < 2 ^ 1025) by reflexivity. nia. }
  eexists. split; [reflexivity|].
  unfold Qeq. cbn [Qnum Qden].
  change (Z.pos (2 ^ 1074)) with (2 * 2 ^ 1073).
  assert (0 < 2 ^ 1073) by reflexivity. set (P := 2 ^ 1073) in *. clearbody P. nia.
Qed.

(** ** The numeral read *)

Lemma digitsValue_digitsNumber s acc :
  digitsValue acc s = acc * 10 ^ Z.of_nat (String.length s) + digitsNumber s.
Proof.
  revert acc. induction s as [|c s IH]; intros acc.
  - simpl. lia.
  - cbn [digitsValue digitsNumber String.length]. rewrite IH.
    rewrite Nat2Z.inj_succ, Z.pow_succ_r by lia. ring.
Qed.

Lemma digitsValue_app a b acc :
  digitsValue acc (a +:+ b) = digitsValue (digitsValue acc a) b.
Proof.
  revert acc. induction a as [|c a IH]; intros acc; [reflexivity|].
  rewrite append_cons. simpl. apply IH.
Qed.

(** [parseFloat] reads the number that the numeral writes. *)
Lemma decimal_numeral int frac : (decimal int frac == numeral int frac)%Q.
Proof.
  unfold decimal, numeral.
  rewrite digitsValue_app, (digitsValue_digitsNumber frac), (digitsValue_digitsNumber int).
  set (P := 10 ^ Z.of_nat (String.length frac)).
  assert (HP : 0 < P) by (apply Z.pow_pos_nonneg; lia).
  rewrite inject_Z_plus, inject_Z_mult, Z.mul_0_l, Z.add_0_l.
  assert (HPq : ~ (inject_Z P == 0)%Q).
  { unfold Qeq. simpl. lia. }
  field. exact HPq.
Qed.

Lemma numeral_nonneg int frac :
  allDigits int = true -> allDigits frac = true -> (0 <= numeral int frac)%Q.
Proof.
  intros Hi Hf. rewrite <- decimal_numeral. now apply decimal_nonneg.
Qed.

(** ** The value of a matched budget *)

Lemma parseBudget_matched budget int frac suffix :
  matchBudget budget = Some (int, frac, suffix) ->
  parseBudget budget =
    inr (floor (if multiplier suffix =? 1 then toNumber (decimal int frac)
                else times (toNumber (decimal int frac)) (multiplier suffix))).
Proof.
  intros H. unfold parseBudget. rewrite H. unfold multiplier, parseFloat.
  destruct suffix as [c|]; [|reflexivity].
  destruct (Ascii.eqb c "k"); [reflexivity|]. destruct (Ascii.eqb c "m"); reflexivity.
Qed.

Lemma Suffix_multiplier sfx mult :
  Suffix sfx mult -> mult = 1 \/ mult = 1000 \/ mult = 1000000.
Proof. intros []; auto. Qed.

(** The value read and multiplied: an infinity, only beyond [2 ^ 1000], or
    a double within [2 ^ -51], relatively, of the exact product. *)
Lemma rounded_product (x : Q) (k : Z) :
  (0 <= x)%Q -> k = 1 \/ k = 1000 \/ k = 1000000 ->
  let r := if k =? 1 then toNumber x else times (toNumber x) k in
  let exact := (x * inject_Z k)%Q in
  (r = Infinity false /\ ~ (exact <= inject_Z (2 ^ 1000))%Q) \/
  exists p, r = Finite p /\ (0 <= p)%Q /\
    (p - exact <= exact * (1 # 2 ^ 51) + (1 # 2 ^ 1000))%Q /\
    (exact - p <= exact * (1 # 2 ^ 51) + (1 # 2 ^ 1000))%Q.
Proof.
  intros Hx Hk. cbv zeta.
  assert (Hd : (0 <= 1 # 2 ^ 1075)%Q) by (unfold Qle; simpl; lia).
  assert (Hdb : (2000001 * (1 # 2 ^ 1075) <= 1 # 2 ^ 1000)%Q).
  { unfold Qle. vm_compute. discriminate. }
  assert (Hbig : (2 * inject_Z (2 ^ 1000) + 1000001 <= inject_Z (2 ^ 1023))%Q).
  { unfold Qle. vm_compute. discriminate. }
  assert (Hbig0 : (0 <= inject_Z (2 ^ 1000))%Q).
  { unfold Qle. vm_compute. discriminate. }
  assert (Hd1 : ((1 # 2 ^ 1075) <= 1)%Q).
  { unfold Qle. vm_compute. discriminate. }
  change (1 # 2 ^ 51)%Q with (1 # 2251799813685248)%Q.
  set (D := (1 # 2 ^ 1075)%Q) in *. set (B := (1 # 2 ^ 1000)%Q) in *.
  set (C := inject_Z (2 ^ 1000)) in *. set (C' := inject_Z (2 ^ 1023)) in *.
  destruct (toNumber_nonneg x Hx) as [Hinf|(v & Hv & Hv0 & Hv1 & Hv2)].
  - left. split.
    + rewrite Hinf. destruct (k =? 1); reflexivity.
    + intros Hle.
      assert (Hx' : (x <= C')%Q).
      { destruct Hk as [-> | [-> | ->]]; change (inject_Z 1) with 1%Q in Hle;
          change (inject_Z 1000) with 1000%Q in Hle;
          change (inject_Z 1000000) with 1000000%Q in Hle; lra. }
      destruct (toNumber_finite x Hx Hx') as (q & Hq & _). congruence.
  - rewrite Hv. change (1 # 2 ^ 53)%Q with (1 # 9007199254740992)%Q in Hv1, Hv2.
    fold D in Hv1, Hv2.
    destruct Hk as [-> | Hk].
    + right. exists v. change (1 =? 1) with true. cbn iota.
      change (inject_Z 1) with 1%Q.
      split; [reflexivity|]. split; [exact Hv0|]. split; lra.
    + assert (Hk1 : (k =? 1) = false) by (destruct Hk as [-> | ->]; reflexivity).
      rewrite Hk1. cbn [times].
      assert (Hvk : (0 <= v * inject_Z k)%Q).
      { destruct Hk as [-> | ->]; [change (inject_Z 1000) with 1000%Q
                                 |change (inject_Z 1000000) with 1000000%Q]; lra. }
      destruct (toNumber_nonneg _ Hvk) as [Hinf|(p & Hp & Hp0 & Hp1 & Hp2)].
      * left. split; [exact Hinf|]. intros Hle.
        assert (Hvk' : (v * inject_Z k <= C')%Q).
        { destruct Hk as [-> | ->]; [change (inject_Z 1000) with 1000%Q in *
                                   |change (inject_Z 1000000) with 1000000%Q in *]; lra. }
        destruct (toNumber_finite _ Hvk Hvk') as (q & Hq & _). congruence.
      * right. exists p. split; [exact Hp|]. split; [exact Hp0|].
        change (1 # 2 ^ 53)%Q with (1 # 9007199254740992)%Q in Hp1, Hp2.
        fold D in Hp1, Hp2.
        destruct Hk as [-> | ->]; [change (inject_Z 1000) with 1000%Q in *
                                 |change (inject_Z 1000000) with 1000000%Q in *];
          split; lra.
Qed.

Lemma Qfloor_nonneg (p : Q) : (0 <= p)%Q -> 0 <= Qfloor p.
Proof. intros H. change 0 with (Qfloor 0). now apply Qfloor_resp_le. Qed.

(** A budget of the grammar: the number computed. *)
Lemma parseBudget_grammar budget int frac mult :
  InGrammar budget int frac mult ->
  (mult = 1 \/ mult = 1000 \/ mult = 1000000) /\
  (0 <= decimal int frac)%Q /\
  parseBudget budget =
    inr (floor (if mult =? 1 then toNumber (decimal int frac)
                else times (toNumber (decimal int frac)) mult)).
Proof.
  intros Hg.
  destruct (matchBudget_complete _ _ _ _ Hg) as (sfx & Hm & ->).
  destruct Hg as ([_ Hi] & s & Hs & Hcase).
  assert (Hf : allDigits frac = true).
  { destruct Hcase as [[-> _]|[[_ Hf] _]]; [reflexivity|exact Hf]. }
  split; [exact (Suffix_multiplier _ _ Hs)|].
  split; [now apply decimal_nonneg|]. now apply parseBudget_matched.
Qed.



End TokensFacts.

(* ===================================================================== *)
(** * Line ranges of the chunker                                          *)
(* ===================================================================== *)

Module ChunkerFacts.
Import Chunker Layout.
Local Open Scope nat_scope.

Lemma laidOut_weaken lo lo' hi hi' l :
  lo' <= lo -> hi <= hi' -> laidOut lo hi l -> laidOut lo' hi' l.
Proof.
  revert lo lo'. induction l as [|c l IH]; intros lo lo' Hlo Hhi; simpl; [auto|].
  intros (A & B & C & D). repeat split; try lia.
  eapply IH; [| |exact D]; lia.
Qed.

Lemma laidOut_app lo mid hi l1 l2 :
  lo <= S mid -> mid <= hi ->
  laidOut lo mid l1 -> laidOut (S mid) hi l2 -> laidOut lo hi (l1 ++ l2).
Proof.
  intros Hlo Hm. revert lo Hlo. induction l1 as [|c l IH]; intros lo Hlo; simpl.
  - intros _ H. eapply laidOut_weaken; [| |exact H]; lia.
  - intros (A & B & C & D) H. repeat split; try lia. apply IH; [lia|exact D|exact H].
Qed.

Lemma laidOut_bounds lo hi l :
  laidOut lo hi l ->
  Forall (fun c => lo <= startLine c /\ startLine c <= endLine c /\ endLine c <= hi) l.
Proof.
  revert lo. induction l as [|c l IH]; intros lo; simpl; [constructor|].
  intros (A & B & C & D). constructor; [lia|].
  eapply List.Forall_impl; [|exact (IH _ D)]. simpl. intros; lia.
Qed.

Lemma laidOut_sorted lo hi l : laidOut lo hi l -> StronglySorted before l.
Proof.
  revert lo. induction l as [|c l IH]; intros lo; simpl; [constructor|].
  intros (A & B & C & D). constructor; [exact (IH _ D)|].
  eapply List.Forall_impl; [|exact (laidOut_bounds _ _ _ D)].
  unfold before. simpl. intros; lia.
Qed.

Lemma length_sliceLines lines i j :
  length (sliceLines lines i j) = Nat.min (j - i) (length lines - i).
Proof. unfold sliceLines. now rewrite length_firstn, length_skipn. Qed.

Lemma splitChar_nonempty sep s : 1 <= length (JS.splitChar sep s).
Proof.
  induction s as [|c s IH]; simpl; [lia|].
  destruct (Ascii.eqb c sep); simpl; [lia|].
  destruct (JS.splitChar sep s); simpl; lia.
Qed.

Section WithEnvironment.
Variable PATTERNS : string -> list Pattern.
Variable countTokens : string -> N.

Lemma splitLoop_laidOut fuel i lines so fp rp lang t n :
  laidOut (so + i + 1) (so + length lines)
          (splitLoop countTokens fuel i lines so fp rp lang t n).
Proof.
  revert i. induction fuel as [|fuel IH]; intros i; simpl; [exact I|].
  destruct (Nat.ltb_spec i (length lines)) as [Hi|Hi]; [|exact I].
  simpl. unfold maxLines, MAX_CHUNK_LINES in *. repeat split; try lia.
  eapply laidOut_weaken; [| |apply IH]; lia.
Qed.

(** The bound on the iterations is never what ends the loop. *)
Lemma splitLoop_fuel fuel fuel' i lines so fp rp lang t n :
  length lines - i <= fuel -> length lines - i <= fuel' ->
  splitLoop countTokens fuel i lines so fp rp lang t n =
  splitLoop countTokens fuel' i lines so fp rp lang t n.
Proof.
  revert fuel' i. induction fuel as [|fuel IH]; intros fuel' i H1 H2.
  - destruct fuel'; simpl; [reflexivity|].
    destruct (Nat.ltb_spec i (length lines)); [lia|reflexivity].
  - destruct fuel'; simpl.
    + destruct (Nat.ltb_spec i (length lines)); [lia|reflexivity].
    + destruct (Nat.ltb_spec i (length lines)); [|reflexivity].
      f_equal. apply IH; unfold maxLines, MAX_CHUNK_LINES; lia.
Qed.

Lemma sizeLoop_laidOut fuel i lines fp rp lang :
  laidOut (i + 1) (length lines) (sizeLoop countTokens fuel i lines fp rp lang).
Proof.
  revert i. induction fuel as [|fuel IH]; intros i; simpl; [exact I|].
  destruct (Nat.ltb_spec i (length lines)) as [Hi|Hi]; [|exact I].
  simpl. unfold maxLines, MAX_CHUNK_LINES in *. repeat split; try lia.
  eapply laidOut_weaken; [| |apply IH]; lia.
Qed.

Lemma sizeLoop_fuel fuel fuel' i lines fp rp lang :
  length lines - i <= fuel -> length lines - i <= fuel' ->
  sizeLoop countTokens fuel i lines fp rp lang =
  sizeLoop countTokens fuel' i lines fp rp lang.
Proof.
  revert fuel' i. induction fuel as [|fuel IH]; intros fuel' i H1 H2.
  - destruct fuel'; simpl; [reflexivity|].
    destruct (Nat.ltb_spec i (length lines)); [lia|reflexivity].
  - destruct fuel'; simpl.
    + destruct (Nat.ltb_spec i (length lines)); [lia|reflexivity].
    + destruct (Nat.ltb_spec i (length lines)); [|reflexivity].
      f_equal. apply IH; unfold maxLines, MAX_CHUNK_LINES; lia.
Qed.

Lemma chunkBySize_laidOut content fp rp lang :
  laidOut 1 (length (splitLines content)) (chunkBySize countTokens content fp rp lang).
Proof.
  unfold chunkBySize.
  pose proof (splitChar_nonempty "010"%char content) as Hne. fold (splitLines content) in Hne.
  destruct (length (splitLines content) <=? maxLines).
  - simpl. repeat split; lia.
  - apply (sizeLoop_laidOut _ 0).
Qed.

Lemma findBoundariesFrom_increasing i lines patterns :
  increasing i (i + length lines) (findBoundariesFrom i lines patterns).
Proof.
  revert i. induction lines as [|l lines IH]; intros i; simpl; [exact I|].
  specialize (IH (S i)).
  destruct (firstMatch patterns l) as [[t n]|]; simpl.
  - repeat split; try lia. replace (i + S (length lines)) with (S i + length lines) by lia.
    exact IH.
  - replace (i + S (length lines)) with (S i + length lines) by lia.
    clear -IH. revert IH. generalize (findBoundariesFrom (S i) lines patterns).
    generalize (S i + length lines). intros n bs.
    destruct bs as [|b bs]; simpl; [auto|]. intros (A & B & C). repeat split; auto; lia.
Qed.

Lemma boundaryLoop_laidOut bs total lines fp rp lang lo :
  increasing lo (length lines) bs ->
  laidOut (lo + 1) (length lines) (boundaryLoop countTokens bs total lines fp rp lang).
Proof.
  revert lo. induction bs as [|b rest IH]; intros lo; [intros _; exact I|].
  intros (Hlo & Hn & Hrest). cbn [boundaryLoop].
  set (end_ := match rest with next :: _ => line next - 1 | [] => length lines - 1 end).
  assert (Hend : line b <= end_ /\ end_ + 1 <= length lines /\
                 laidOut (end_ + 2) (length lines)
                         (boundaryLoop countTokens rest total lines fp rp lang)).
  { subst end_. destruct rest as [|next rest'].
    - repeat split; lia.
    - pose proof Hrest as (A & B & C). repeat split; try lia.
      assert (Hnext : increasing (line next) (length lines) (next :: rest')).
      { simpl. repeat split; auto. }
      eapply laidOut_weaken; [| |apply (IH _ Hnext)]; lia. }
  destruct Hend as (He1 & He2 & Hlater).
  set (later := boundaryLoop countTokens rest total lines fp rp lang) in *.
  assert (Hlen : length (sliceLines lines (line b) (end_ + 1)) = end_ + 1 - line b).
  { rewrite length_sliceLines. lia. }
  destruct (_ && _).
  - eapply laidOut_weaken; [| |exact Hlater]; lia.
  - destruct (maxLines <? _).
    + apply (laidOut_app _ (end_ + 1)); [lia|lia| |].
      * unfold splitLargeChunk.
        eapply laidOut_weaken;
          [| |apply (splitLoop_laidOut _ 0 _ (line b))]; rewrite ?Hlen; lia.
      * eapply laidOut_weaken; [| |exact Hlater]; lia.
    + simpl. repeat split; try lia.
      eapply laidOut_weaken; [| |exact Hlater]; lia.
Qed.

Lemma chunk_laidOut content fp rp lang :
  laidOut 1 (length (splitLines content)) (chunk PATTERNS countTokens content fp rp lang).
Proof.
  unfold chunk.
  destruct (length (PATTERNS lang) =? 0); [apply chunkBySize_laidOut|].
  destruct (length (findBoundaries _ _) =? 0); [apply chunkBySize_laidOut|].
  pose proof (findBoundariesFrom_increasing 0 (splitLines content) (PATTERNS lang)) as Hinc.
  fold (findBoundaries (splitLines content) (PATTERNS lang)) in Hinc. simpl in Hinc.
  set (bs := findBoundaries (splitLines content) (PATTERNS lang)) in *.
  pose proof (boundaryLoop_laidOut bs (length bs) (splitLines content) fp rp lang) as Hloop.
  destruct bs as [|b0 rest] eqn:Hbs.
  - apply (Hloop 0 I).
  - pose proof Hinc as (_ & Hb0 & Hrest').
    assert (Hchunks : laidOut (line b0 + 1) (length (splitLines content))
              (boundaryLoop countTokens (b0 :: rest) (length (b0 :: rest))
                            (splitLines content) fp rp lang)).
    { apply Hloop. simpl. repeat split; auto; lia. }
    destruct (Nat.ltb_spec 0 (line b0)) as [Hpos|Hz].
    + destruct (minLines <=? _).
      * simpl. repeat split; try lia.
        eapply laidOut_weaken; [| |exact Hchunks]; lia.
      * eapply laidOut_weaken; [| |exact Hchunks]; lia.
    + eapply laidOut_weaken; [| |exact Hchunks]; lia.
Qed.

End WithEnvironment.

Lemma sortByStartLine_sorted l : StronglySorted before l -> sortByStartLine l = l.
Proof.
  intros H. unfold sortByStartLine. apply JSArrayFacts.sortBy_sorted_id.
  eapply StronglySorted_ind with (P := StronglySorted _); [constructor| |exact H].
  intros a l' Hs IH Ha. constructor; [exact IH|].
  eapply List.Forall_impl; [|exact Ha]. unfold before. simpl.
  intros b [Hb _]. unfold Qle. simpl. lia.
Qed.

(** C4.  For every pattern table, tokenizer, file content and language,
    the chunks returned by [chunk] have 1-indexed inclusive line ranges
    with [startLine <= endLine] inside the file, and sorting them by
    [startLine] (which leaves the list as the chunker built it) gives
    strictly increasing, pairwise non-overlapping ranges.  The proof goes
    through every path of [chunk]: boundary chunks, [splitLargeChunk], the
    prepended preamble and [chunkBySize]. *)
Theorem chunk_ranges_disjoint_monotone
    (PATTERNS : string -> list Pattern) (countTokens : string -> N)
    (content filePath relativePath language : string) :
  let out := chunk PATTERNS countTokens content filePath relativePath language in
  Forall (fun c => 1 <= startLine c /\ startLine c <= endLine c /\
                   endLine c <= length (splitLines content)) out /\
  sortByStartLine out = out /\
  StronglySorted before (sortByStartLine out).
Proof.
  intros out.
  pose proof (chunk_laidOut PATTERNS countTokens content filePath relativePath language) as H.
  fold out in H. pose proof (laidOut_sorted _ _ _ H) as Hs.
  rewrite (sortByStartLine_sorted _ Hs).
  split; [exact (laidOut_bounds _ _ _ H)|]. split; [reflexivity|exact Hs].
Qed.

End ChunkerFacts.

(* ===================================================================== *)
(** * The token-count cache                                               *)
(* ===================================================================== *)

Module TokenCacheFacts.
Import TokenCache StrFacts Samples.

Lemma sameKey_hash t1 t2 : sameKey t1 t2 -> hash t1 = hash t2.
Proof.
  intros (Hl & Hp & Hs). unfold hash. rewrite <- Hl, Hp.
  destruct (Nat.ltb_spec (String.length t1) 1000); [reflexivity|].
  now rewrite Hs.
Qed.

Lemma hash_sameKey t1 t2 : hash t1 = hash t2 -> sameKey t1 t2.
Proof.
  unfold hash, sameKey, JS.slice, JS.sliceLast.
  set (n1 := String.length t1). set (n2 := String.length t2).
  change (100 - 0)%nat with 100%nat.
  destruct (Nat.ltb_spec n1 1000) as [H1|H1]; destruct (Nat.ltb_spec n2 1000) as [H2|H2];
    intros H.
  - pose proof (f_equal String.length H) as Hlen.
    rewrite !length_append, !length_substring0 in Hlen.
    rewrite (showNat_length_small n1 H1), (showNat_length_small n2 H2) in Hlen.
    fold n1 n2 in Hlen.
    assert (Hp : String.length (String.substring 0 100 t1) =
                 String.length (String.substring 0 100 t2)).
    { rewrite !length_substring0. fold n1 n2.
      destruct (Nat.ltb_spec n1 10), (Nat.ltb_spec n1 100),
               (Nat.ltb_spec n2 10), (Nat.ltb_spec n2 100); lia. }
    destruct (append_inj_length _ _ _ _ Hp H) as [Hpre Hd].
    apply showNat_inj in Hd. repeat split; auto. lia.
  - exfalso. pose proof (f_equal String.length H) as Hlen.
    rewrite !length_append, !length_substring0 in Hlen.
    rewrite (showNat_length_small n1 H1) in Hlen.
    rewrite (length_substring (n2 - 100) 100 t2) in Hlen by (fold n2; lia).
    fold n1 n2 in Hlen.
    destruct (Nat.ltb_spec n1 10), (Nat.ltb_spec n1 100); lia.
  - exfalso. pose proof (f_equal String.length H) as Hlen.
    rewrite !length_append, !length_substring0 in Hlen.
    rewrite (showNat_length_small n2 H2) in Hlen.
    rewrite (length_substring (n1 - 100) 100 t1) in Hlen by (fold n1; lia).
    fold n1 n2 in Hlen.
    destruct (Nat.ltb_spec n2 10), (Nat.ltb_spec n2 100); lia.
  - assert (Hp : String.length (String.substring 0 100 t1) =
                 String.length (String.substring 0 100 t2)).
    { rewrite !length_substring0. fold n1 n2. lia. }
    destruct (append_inj_length _ _ _ _ Hp H) as [Hpre H'].
    assert (Hs : String.length (String.substring (n1 - 100) 100 t1) =
                 String.length (String.substring (n2 - 100) 100 t2)).
    { rewrite !length_substring; fold n1 n2; lia. }
    destruct (append_inj_length _ _ _ _ Hs H') as [Hsuf Hd].
    apply showNat_inj in Hd. repeat split; auto.
Qed.

Section WithTokenizer.
Variable countTokens : string -> N.

(** Every entry of a cache filled by [count] holds the token count of
    one of the texts counted so far, stored under the key of that text. *)
Lemma countAll_entries history cache seen :
  (forall k n, cache !! k = Some n ->
     exists t, In t seen /\ hash t = k /\ n = countTokens t) ->
  forall k n, countAll countTokens cache history !! k = Some n ->
     exists t, In t (seen ++ history) /\ hash t = k /\ n = countTokens t.
Proof.
  revert cache seen. induction history as [|t0 history IH]; intros cache seen Hinv k n.
  - rewrite app_nil_r. apply Hinv.
  - unfold countAll. cbn [fold_left]. fold (countAll countTokens).
    intros Hk. apply (IH _ (seen ++ [t0])) in Hk.
    + destruct Hk as (t & Hin & Hh & Hn). exists t. rewrite <- app_assoc in Hin. auto.
    + clear Hk. intros k' n' Hk'. unfold count in Hk'.
      destruct (cache !! hash t0) as [m|] eqn:Hc; simpl in Hk'.
      * destruct (Hinv _ _ Hk') as (t & Hin & Hh & Hn).
        exists t. split; [apply in_or_app; now left|auto].
      * destruct (decide (hash t0 = k')) as [<-|Hne].
        -- rewrite lookup_insert_eq in Hk'. injection Hk' as <-.
           exists t0. split; [apply in_or_app; right; now left|auto].
        -- rewrite lookup_insert_ne in Hk' by exact Hne.
           destruct (Hinv _ _ Hk') as (t & Hin & Hh & Hn).
           exists t. split; [apply in_or_app; now left|auto].
Qed.

End WithTokenizer.

(** C8 (as stated).  The cache is not transparent and its keys are not
    injective: [textOneWord] and [textTwoWords] are different texts with
    the same key, and once the first has been counted, the count returned
    for the second is the one of the first (here with one token per
    word: 1 instead of 2). *)
Lemma token_cache_key_collision :
  textOneWord <> textTwoWords /\
  hash textOneWord = hash textTwoWords /\
  wordTokens textTwoWords = 2%N /\
  fst (count wordTokens (countAll wordTokens ∅ [textOneWord]) textTwoWords) = 1%N /\
  fst (count wordTokens (countAll wordTokens ∅ [textOneWord]) textTwoWords)
    <> wordTokens textTwoWords.
Proof.
  split; [vm_compute; discriminate|].
  repeat split; try (vm_compute; reflexivity).
  vm_compute. discriminate.
Qed.

(** C8 (amended).  The cache is keyed by a digest of the text.  Starting
    from an empty cache, [count text] returns [countTokens text] whenever
    the texts counted before under the key of [text] have the token count
    of [text] (in particular when there is none).  Two texts have the same
    key exactly when they agree on the length, the first 100 characters
    and, from 1000 characters on, the last 100 characters; a text shorter
    than 100 characters shares its key with no other text. *)
Theorem token_cache_exact_up_to_key (countTokens : string -> N) :
  (forall history text,
      (forall t, In t history -> hash t = hash text -> countTokens t = countTokens text) ->
      fst (count countTokens (countAll countTokens ∅ history) text) = countTokens text) /\
  (forall t1 t2, hash t1 = hash t2 <-> sameKey t1 t2) /\
  (forall t1 t2, (String.length t1 < 100)%nat -> hash t1 = hash t2 -> t1 = t2).
Proof.
  split; [|split].
  - intros history text Hsame. unfold count.
    destruct (countAll countTokens ∅ history !! hash text) as [n|] eqn:Hc; [|reflexivity].
    simpl. apply (countAll_entries countTokens history ∅ []) in Hc.
    + destruct Hc as (t & Hin & Hh & ->). apply Hsame; auto.
    + intros k m Hk. rewrite lookup_empty in Hk. discriminate Hk.
  - intros t1 t2. split; [apply hash_sameKey|apply sameKey_hash].
  - intros t1 t2 Hshort Hh. apply hash_sameKey in Hh as (Hl & Hp & _).
    unfold JS.slice in Hp. change (100 - 0)%nat with 100%nat in Hp.
    rewrite !substring0_all in Hp by lia. exact Hp.
Qed.

End TokenCacheFacts.

(* ===================================================================== *)
(** * Cache-cold and cache-hot chunking                                   *)
(* ===================================================================== *)

Module CacheFacts.
Import Build Samples Layout.

(** The digest of the standard three-letter test message, and of a
    message that needs two blocks. *)
Lemma hashContent_test_vectors :
  Utils.hashContent "abc"
    = "ba7816bf8f01cfea414140de5dae2223b00361a396177a9cb410ff61f20015ad" /\
  Utils.hashContent
    "The quick brown fox jumps over the lazy dog. The quick brown fox jumps over the lazy dog."
    = "635241ac823ee4a81fbb410c92be616b0a89191083d8d7b5d232c823dc8df4f5".
Proof. split; vm_compute; reflexivity. Qed.

(** ** Identifiers: digests on one side, path and line on the other *)

Lemma bigEndian_bytes n x : Forall (fun b => 0 <= b < 256) (Sha256.bigEndian n x).
Proof.
  induction n as [|n IH]; simpl; constructor; [|exact IH].
  apply Z.mod_pos_bound. lia.
Qed.

Lemma digest_bytes msg : Forall (fun b => 0 <= b < 256) (Sha256.digest msg).
Proof.
  unfold Sha256.digest. generalize (Sha256.blocksLoop
    (length (Sha256.toWords (Sha256.pad msg))) Sha256.H0 (Sha256.toWords (Sha256.pad msg))).
  intros ws. induction ws as [|w ws IH]; [constructor|].
  cbn [flat_map]. apply Forall_app. split; [apply bigEndian_bytes|exact IH].
Qed.

Lemma hexDigit_not_colon n : 0 <= n < 16 -> Sha256.hexDigit n <> ":"%char.
Proof.
  intros H.
  assert (Hn : In n [0; 1; 2; 3; 4; 5; 6; 7; 8; 9; 10; 11; 12; 13; 14; 15]).
  { simpl. lia. }
  simpl in Hn. repeat (destruct Hn as [<-|Hn]; [vm_compute; discriminate|]).
  contradiction.
Qed.

Lemma includes_colon_cons c s :
  c <> ":"%char -> JS.includes (String c s) ":" = JS.includes s ":".
Proof.
  intros Hc. cbn [JS.includes String.prefix].
  destruct (Ascii.ascii_dec ":" c) as [<-|Hne]; [congruence|reflexivity].
Qed.

Lemma hex_no_colon bytes :
  Forall (fun b => 0 <= b < 256) bytes -> JS.includes (Sha256.hex bytes) ":" = false.
Proof.
  induction 1 as [|b bytes Hb _ IH]; [reflexivity|]. simpl Sha256.hex.
  rewrite !includes_colon_cons; [exact IH| |]; apply hexDigit_not_colon.
  - pose proof (Z.mod_pos_bound b 16). lia.
  - split; [apply Z.div_pos; lia|apply Z.div_lt_upper_bound; lia].
Qed.

Lemma hashContent_no_colon s : JS.includes (Utils.hashContent s) ":" = false.
Proof. apply hex_no_colon, digest_bytes. Qed.

Lemma includes_colon_app (a b : string) : JS.includes (a +:+ ":" +:+ b) ":" = true.
Proof.
  induction a as [|c a IH].
  - rewrite StrFacts.append_nil_l. change (":" +:+ b) with (String ":" b).
    cbn [JS.includes String.prefix].
    destruct (Ascii.ascii_dec ":" ":"); [|congruence]. now destruct b.
  - rewrite StrFacts.append_cons. cbn [JS.includes]. rewrite IH. apply orb_true_r.
Qed.

Section ChunkerIds.
Variable PATTERNS : string -> list Chunker.Pattern.
Variable countTokens : string -> N.

Lemma splitLoop_ids fuel i lines so fp rp lang t n :
  Forall digestId (Chunker.splitLoop countTokens fuel i lines so fp rp lang t n).
Proof.
  revert i. induction fuel as [|fuel IH]; intros i; simpl; [constructor|].
  destruct (i <? length lines)%nat; constructor; [|apply IH].
  apply hashContent_no_colon.
Qed.

Lemma sizeLoop_ids fuel i lines fp rp lang :
  Forall digestId (Chunker.sizeLoop countTokens fuel i lines fp rp lang).
Proof.
  revert i. induction fuel as [|fuel IH]; intros i; simpl; [constructor|].
  destruct (i <? length lines)%nat; constructor; [|apply IH].
  apply hashContent_no_colon.
Qed.

Lemma chunkBySize_ids content fp rp lang :
  Forall digestId (Chunker.chunkBySize countTokens content fp rp lang).
Proof.
  unfold Chunker.chunkBySize. destruct (_ <=? _)%nat; [|apply sizeLoop_ids].
  constructor; [apply hashContent_no_colon|constructor].
Qed.

Lemma boundaryLoop_ids bs total lines fp rp lang :
  Forall digestId (Chunker.boundaryLoop countTokens bs total lines fp rp lang).
Proof.
  induction bs as [|b rest IH]; [constructor|]. cbn [Chunker.boundaryLoop].
  destruct (_ && _); [exact IH|]. destruct (_ <? _)%nat.
  - apply Forall_app. split; [apply splitLoop_ids|exact IH].
  - constructor; [apply hashContent_no_colon|exact IH].
Qed.

Lemma chunk_ids content fp rp lang :
  Forall digestId (Chunker.chunk PATTERNS countTokens content fp rp lang).
Proof.
  unfold Chunker.chunk.
  destruct (_ =? 0)%nat; [apply chunkBySize_ids|].
  destruct (_ =? 0)%nat; [apply chunkBySize_ids|].
  pose proof (boundaryLoop_ids
    (Chunker.findBoundaries (Chunker.splitLines content) (PATTERNS lang))
    (length (Chunker.findBoundaries (Chunker.splitLines content) (PATTERNS lang)))
    (Chunker.splitLines content) fp rp lang) as H.
  destruct (Chunker.findBoundaries _ _) as [|b0 rest]; [exact H|].
  destruct (0 <? _)%nat; [|exact H]. destruct (_ <=? _)%nat; [|exact H].
  constructor; [apply hashContent_no_colon|exact H].
Qed.

(** The identifier given to a chunk loaded from the cache is never the
    identifier the chunker gives to a chunk, of this file or of any
    other: the first holds a colon, the second is a hexadecimal digest. *)
Lemma cached_id_never_chunker_id file row tokens content fp rp lang :
  Forall (fun c => id (fromRow file row tokens) <> id c)
         (Chunker.chunk PATTERNS countTokens content fp rp lang).
Proof.
  eapply List.Forall_impl; [|apply chunk_ids]. intros c Hc Heq.
  unfold digestId in Hc. rewrite <- Heq in Hc. unfold fromRow in Hc. simpl in Hc.
  rewrite includes_colon_app in Hc. discriminate Hc.
Qed.

End ChunkerIds.

Lemma chunk_ext P P' countTokens content fp rp lang :
  P lang = P' lang ->
  Chunker.chunk P countTokens content fp rp lang =
  Chunker.chunk P' countTokens content fp rp lang.
Proof. intros H. unfold Chunker.chunk. now rewrite H. Qed.

Lemma chunkFilesParallel_ext P P' countTokens files :
  Forall (fun f => P (sf_language f) = P' (sf_language f)) files ->
  Chunker.chunkFilesParallel P countTokens files =
  Chunker.chunkFilesParallel P' countTokens files.
Proof.
  induction 1 as [|f files Hf _ IH]; [reflexivity|].
  unfold Chunker.chunkFilesParallel in *. simpl. rewrite IH.
  now rewrite (chunk_ext P P' _ _ _ _ _ Hf).
Qed.

Lemma partitionFiles_uncached db now files :
  incl (snd (fst (partitionFiles db now files))) files.
Proof.
  revert db. induction files as [|f files IH]; intros db; simpl; [easy|].
  destruct (Cache.hasCachedChunks db now (path f) (mtime f)) as [hit db1].
  specialize (IH db1). destruct (partitionFiles db1 now files) as [[c u] db2].
  simpl in *. destruct hit; simpl.
  - now apply incl_tl.
  - apply incl_cons; [now left|now apply incl_tl].
Qed.

(** The chunking step reads the pattern table at the languages of the
    files only. *)
Lemma chunkingStep_ext P P' countTokens st now files :
  Forall (fun f => P (sf_language f) = P' (sf_language f)) files ->
  chunkingStep P countTokens st now files = chunkingStep P' countTokens st now files.
Proof.
  intros H. unfold chunkingStep.
  pose proof (partitionFiles_uncached (cache st) now files) as Hincl.
  destruct (partitionFiles (cache st) now files) as [[c u] db1]. simpl in Hincl.
  destruct (loadCached countTokens db1 c (tokenCache st)) as [fromCache tc1].
  assert (Hu : Forall (fun f => P (sf_language f) = P' (sf_language f)) u).
  { rewrite List.Forall_forall in *. intros f Hf. apply H, Hincl, Hf. }
  now rewrite (chunkFilesParallel_ext P P' countTokens u Hu).
Qed.

(** C3.  The file [/repo/a.txt] (one line, language [text], for which the
    pattern table has no entry) is chunked on an empty cache, then again,
    unchanged, on the cache left by the first run.  Both runs return one
    chunk with the same content and the same lines, but the identifiers
    differ: the chunker gives the SHA-256 digest of [/repo/a.txt:0], the
    load from the cache gives the text [/repo/a.txt:1]. *)
Theorem cached_chunk_id_differs
    (PATTERNS : string -> list Chunker.Pattern) (countTokens : string -> N)
    (now1 now2 : Z) :
  PATTERNS "text" = [] ->
  let cold := chunkingStep PATTERNS countTokens (mkState Cache.empty ∅) now1 [helloFile] in
  let hot := chunkingStep PATTERNS countTokens (mkState (cache (snd cold)) ∅) now2
                          [helloFile] in
  map content (fst cold) = ["hello"] /\
  map content (fst hot) = ["hello"] /\
  map (fun c => (startLine c, endLine c)) (fst hot) =
    map (fun c => (startLine c, endLine c)) (fst cold) /\
  map id (fst cold) = [Utils.hashContent "/repo/a.txt:0"] /\
  map id (fst cold) =
    ["0ca5da7c3d60673553f0aaf421ee15f9fadbd5dad480641f678e04805c5439fb"] /\
  map id (fst hot) = ["/repo/a.txt:1"].
Proof.
  intros HP cold hot. subst hot cold.
  assert (H : Forall (fun f => PATTERNS (sf_language f) = noPatterns (sf_language f))
                     [helloFile]).
  { constructor; [exact HP|constructor]. }
  rewrite !(chunkingStep_ext PATTERNS noPatterns countTokens _ _ _ H).
  repeat split; vm_compute; reflexivity.
Qed.

End CacheFacts.

(* ===================================================================== *)
(** * The theorems at sample inputs                                       *)
(* ===================================================================== *)

Module Witnesses.
Import Samples.

(** The budget scenario: ten chunks of 10000 tokens and a budget of 25000
    tokens; the selection costs at most 23750. *)
Lemma select_within_budget_witness :
  0 <= 25000 /\
  100 * fold_right (fun (c : ScoredChunk) acc => Z.of_N (tokens c) + 50 + acc) 0
          (Builder.selectWithinBudget 25000 tenChunks) <= 95 * 25000.
Proof.
  split; [lia|].
  exact (proj2 (proj2 (proj2 (proj2
           (BuilderFacts.select_within_budget_sound 25000 tenChunks ltac:(lia)))))).
Defined.

(** The scenario above selects exactly two chunks (2 * 10050 = 20100
    tokens; a third one would not fit in 23750). *)
Lemma budget_clamp_scenario :
  length (Builder.selectWithinBudget 25000 tenChunks) = 2%nat /\
  Builder.totalCost (Builder.selectWithinBudget 25000 tenChunks) = 20100 /\
  Builder.effectiveBudget 25000 = 23750.
Proof. repeat split; vm_compute; reflexivity. Qed.

(** The cold and the hot run on [helloFile], with a table without
    patterns and one token per character. *)
Lemma cached_chunk_id_witness :
  noPatterns "text" = [] /\
  map id (fst (Build.chunkingStep noPatterns charTokens
                 (Build.mkState
                    (Build.cache (snd (Build.chunkingStep noPatterns charTokens
                                         (Build.mkState Cache.empty ∅) 1000 [helloFile])))
                    ∅) 2000 [helloFile]))
    = ["/repo/a.txt:1"].
Proof.
  split; [reflexivity|].
  pose proof (CacheFacts.cached_chunk_id_differs noPatterns charTokens 1000 2000 eq_refl)
    as H.
  exact (proj2 (proj2 (proj2 (proj2 (proj2 H))))).
Defined.

End Witnesses.

(* ===================================================================== *)
(** * Further properties of the sources                                  *)
(* ===================================================================== *)

Module UtilsFacts.
Import Utils.
Local Open Scope Q_scope.

Lemma fold_Qmin_le l s0 : fold_left Qmin l s0 <= s0.
Proof.
  revert s0. induction l as [|x l IH]; intros s0; simpl; [lra|].
  eapply Qle_trans; [apply IH|]. apply Q.le_min_l.
Qed.

Lemma fold_Qmin_lower l s0 : Forall (fun x => fold_left Qmin l s0 <= x) l.
Proof.
  revert s0. induction l as [|x l IH]; intros s0; simpl; constructor.
  - eapply Qle_trans; [apply fold_Qmin_le|]. apply Q.le_min_r.
  - apply IH.
Qed.

Lemma fold_Qmax_ge l s0 : s0 <= fold_left Qmax l s0.
Proof.
  revert s0. induction l as [|x l IH]; intros s0; simpl; [lra|].
  eapply Qle_trans; [|apply IH]. apply Q.le_max_l.
Qed.

Lemma fold_Qmax_upper l s0 : Forall (fun x => x <= fold_left Qmax l s0) l.
Proof.
  revert s0. induction l as [|x l IH]; intros s0; simpl; constructor.
  - eapply Qle_trans; [|apply fold_Qmax_ge]. apply Q.le_max_r.
  - apply IH.
Qed.

Lemma scaled_range s lo hi :
  lo <= s -> s <= hi -> ~ hi - lo == 0 ->
  0 <= (s - lo) / (hi - lo) /\ (s - lo) / (hi - lo) <= 1.
Proof.
  intros H1 H2 Hne.
  assert (Hpos : 0 < hi - lo).
  { destruct (Qlt_le_dec 0 (hi - lo)) as [H|H]; [exact H|].
    exfalso. apply Hne. lra. }
  split.
  - apply Qle_shift_div_l; [exact Hpos|]. lra.
  - apply Qle_shift_div_r; [exact Hpos|]. lra.
Qed.

(** X1.  [normalize] keeps the number of scores and returns values between 0
    and 1, whatever the scores are. *)
Theorem normalize_unit_interval (scores : list Q) :
  length (normalize scores) = length scores /\
  Forall (fun x => 0 <= x /\ x <= 1) (normalize scores).
Proof.
  destruct scores as [|s0 rest]; [split; [reflexivity|constructor]|].
  unfold normalize.
  set (lo := fold_left Qmin rest s0). set (hi := fold_left Qmax rest s0).
  destruct (Qeq_bool (hi - lo) 0) eqn:Hr.
  - split; [now rewrite length_map|].
    apply List.Forall_forall. intros x Hx. apply in_map_iff in Hx.
    destruct Hx as (y & <- & _). split; [unfold Qle; simpl; lia|unfold Qle; simpl; lia].
  - split; [now rewrite length_map|].
    assert (Hne : ~ hi - lo == 0).
    { intros H. apply Qeq_bool_iff in H. congruence. }
    assert (Hall : Forall (fun s => lo <= s /\ s <= hi) (s0 :: rest)).
    { constructor.
      - split; [apply fold_Qmin_le|apply fold_Qmax_ge].
      - pose proof (fold_Qmin_lower rest s0) as Hl.
        pose proof (fold_Qmax_upper rest s0) as Hu.
        rewrite List.Forall_forall in *. intros x Hx. split; [now apply Hl|now apply Hu]. }
    rewrite List.Forall_forall in *. intros x Hx. apply in_map_iff in Hx.
    destruct Hx as (y & <- & Hy). destruct (Hall y Hy). now apply scaled_range.
Qed.

Lemma nth_map_in {A B} (f : A -> B) (l : list A) (i : nat) (d : A) (d' : B) :
  (i < length l)%nat -> nth i (map f l) d' = f (nth i l d).
Proof.
  intros H. rewrite (nth_indep _ d' (f d)) by now rewrite length_map.
  apply map_nth.
Qed.

(** X2.  [normalize] preserves the order of the scores: a score that is at
    most another one is mapped to a value that is at most the other's. *)
Theorem normalize_monotone (scores : list Q) (i j : nat) :
  (i < length scores)%nat -> (j < length scores)%nat ->
  nth i scores 0 <= nth j scores 0 ->
  nth i (normalize scores) 0 <= nth j (normalize scores) 0.
Proof.
  intros Hi Hj Hle.
  destruct scores as [|s0 rest]; [simpl in Hi; lia|].
  unfold normalize.
  set (lo := fold_left Qmin rest s0). set (hi := fold_left Qmax rest s0).
  set (l := s0 :: rest) in *.
  destruct (Qeq_bool (hi - lo) 0) eqn:Hr.
  - rewrite !(nth_map_in _ l _ 0) by assumption. lra.
  - assert (Hne : ~ hi - lo == 0).
    { intros H. apply Qeq_bool_iff in H. congruence. }
    assert (Hlohi : lo <= hi).
    { eapply Qle_trans; [apply fold_Qmin_le|apply fold_Qmax_ge]. }
    assert (Hpos : 0 < hi - lo).
    { destruct (Qlt_le_dec 0 (hi - lo)) as [H|H]; [exact H|]. exfalso. apply Hne. lra. }
    rewrite !(nth_map_in _ l _ 0) by assumption.
    apply Qle_shift_div_l; [exact Hpos|].
    unfold Qdiv. rewrite <- Qmult_assoc, (Qmult_comm (/ (hi - lo))), Qmult_inv_r by exact Hne.
    lra.
Qed.

End UtilsFacts.

Module BatchFacts.
Import Batch.
Local Open Scope nat_scope.

Lemma slice_step {A} (arr : list A) i size :
  slice arr i (i + size) ++ skipn (i + size) arr = skipn i arr.
Proof.
  unfold slice. replace (i + size - i) with size by lia.
  rewrite (Nat.add_comm i size), <- skipn_skipn. apply firstn_skipn.
Qed.

Lemma length_slice_step {A} (arr : list A) i size :
  length (slice arr i (i + size)) = Nat.min size (length arr - i).
Proof.
  unfold slice. replace (i + size - i) with size by lia.
  now rewrite length_firstn, length_skipn.
Qed.

Lemma batchLoop_spec {A} (arr : list A) size fuel i :
  0 < size -> length arr - i <= fuel ->
  exists batches,
    batchLoop fuel i arr size = Some batches /\
    concat batches = skipn i arr /\
    Forall (fun b => 0 < length b <= size) batches /\
    length batches = (length arr - i + (size - 1)) / size.
Proof.
  intros Hs. revert i. induction fuel as [|fuel IH]; intros i Hf.
  - exists []. simpl. destruct (Nat.ltb_spec i (length arr)); [lia|].
    repeat split; [now rewrite skipn_all2 by lia|constructor|].
    replace (length arr - i) with 0 by lia. simpl.
    symmetry. apply Nat.div_small. lia.
  - cbn [batchLoop]. destruct (Nat.ltb_spec i (length arr)) as [Hi|Hi].
    + destruct (IH (i + size)) as (bs & -> & Hc & Hall & Hlen); [lia|].
      eexists. split; [reflexivity|]. cbn [concat]. rewrite Hc. split; [apply slice_step|].
      split.
      * constructor; [|exact Hall]. rewrite length_slice_step. lia.
      * cbn [length]. rewrite Hlen.
        destruct (Nat.le_gt_cases size (length arr - i)) as [Hge|Hlt].
        -- replace (length arr - i + (size - 1))
             with (length arr - (i + size) + (size - 1) + 1 * size) by lia.
           rewrite Nat.div_add by lia. lia.
        -- replace (length arr - (i + size)) with 0 by lia. simpl.
           rewrite (Nat.div_small (size - 1) size) by lia.
           apply (Nat.div_unique _ _ _ (length arr - i - 1)); lia.
    + exists []. repeat split; [now rewrite skipn_all2 by lia|constructor|].
      replace (length arr - i) with 0 by lia. simpl.
      symmetry. apply Nat.div_small. lia.
Qed.

(** X3.  [batch] with a positive size cuts the array into consecutive pieces:
    joined in order they give the array back, no piece is empty or longer
    than [size], and there are [ceil (length / size)] of them. *)
Theorem batch_partitions {A} (arr : list A) (size : nat) :
  0 < size ->
  exists batches,
    batch arr size = Some batches /\
    concat batches = arr /\
    Forall (fun b => 0 < length b <= size) batches /\
    length batches = (length arr + (size - 1)) / size.
Proof.
  intros Hs. destruct (batchLoop_spec arr size (length arr) 0 Hs) as (bs & H1 & H2 & H3 & H4).
  - lia.
  - exists bs. rewrite Nat.sub_0_r in H4. now repeat split.
Qed.

(** With size 0 the loop of [batch] makes no progress: on a non-empty
    array it never returns. *)
Lemma batchLoop_stuck {A} (arr : list A) fuel :
  arr <> [] -> batchLoop fuel 0 arr 0 = None.
Proof.
  intros Hne. induction fuel as [|fuel IH]; cbn [batchLoop].
  - destruct arr; [congruence|reflexivity].
  - destruct arr as [|x arr]; [congruence|]. cbn [length Nat.ltb Nat.leb].
    change (0 + 0) with 0. now rewrite IH.
Qed.

Section Files.
Variable PATTERNS : string -> list Chunker.Pattern.
Variable countTokens : string -> N.

Lemma filesLoop_spec files batchSize fuel i :
  0 < batchSize -> length files - i <= fuel ->
  filesLoop PATTERNS countTokens fuel i files batchSize =
  Some (Chunker.chunkFilesParallel PATTERNS countTokens (skipn i files)).
Proof.
  intros Hs. revert i. induction fuel as [|fuel IH]; intros i Hf.
  - simpl. destruct (Nat.ltb_spec i (length files)); [lia|].
    now rewrite skipn_all2 by lia.
  - cbn [filesLoop]. destruct (Nat.ltb_spec i (length files)) as [Hi|Hi].
    + rewrite IH by lia. f_equal.
      rewrite <- (slice_step files i batchSize).
      unfold Chunker.chunkFilesParallel. rewrite flat_map_app. f_equal.
      now rewrite flat_map_concat_map.
    + now rewrite skipn_all2 by lia.
Qed.

End Files.

(** X4.  [chunkFilesParallel] returns the chunks of the files in file order,
    whatever positive batch size it is given; in particular for the batch
    size computed by [build]. *)
Theorem chunkFilesParallel_batch_independent
    (PATTERNS : string -> list Chunker.Pattern) (countTokens : string -> N)
    (files : list SourceFile) (batchSize : nat) :
  0 < batchSize ->
  chunkFilesBatched PATTERNS countTokens files batchSize =
  Some (flat_map (fun f => Chunker.chunk PATTERNS countTokens (sf_content f) (path f)
                             (sf_relativePath f) (sf_language f)) files) /\
  chunkFilesBatched PATTERNS countTokens files (buildBatchSize (length files)) =
  chunkFilesBatched PATTERNS countTokens files batchSize.
Proof.
  intros Hs. unfold chunkFilesBatched.
  rewrite !filesLoop_spec; try lia; [now split|].
  unfold buildBatchSize. lia.
Qed.

End BatchFacts.


Module CosineFacts.
Import Utils.
Local Open Scope Q_scope.

Lemma fold_swap (f := fun (acc : Q * Q * Q) (xy : Q * Q) =>
                   let '(dot, normA, normB) := acc in
                   (dot + fst xy * snd xy, normA + fst xy * fst xy,
                    normB + snd xy * snd xy)) a :
  forall b d d' na nb, d == d' ->
    fst (fst (fold_left f (combine a b) (d, na, nb)))
      == fst (fst (fold_left f (combine b a) (d', nb, na))) /\
    snd (fst (fold_left f (combine a b) (d, na, nb)))
      = snd (fold_left f (combine b a) (d', nb, na)) /\
    snd (fold_left f (combine a b) (d, na, nb))
      = snd (fst (fold_left f (combine b a) (d', nb, na))).
Proof.
  induction a as [|x a IH]; intros [|y b] d d' na nb Hd; simpl; auto.
  apply IH. lra.
Qed.

Lemma Qeq_bool_resp x y : x == y -> Qeq_bool x 0 = Qeq_bool y 0.
Proof.
  intros H. destruct (Qeq_bool x 0) eqn:Hx, (Qeq_bool y 0) eqn:Hy; auto.
  - apply Qeq_bool_iff in Hx. assert (Hy' : y == 0) by lra.
    apply Qeq_bool_iff in Hy'. congruence.
  - apply Qeq_bool_iff in Hy. assert (Hx' : x == 0) by lra.
    apply Qeq_bool_iff in Hx'. congruence.
Qed.

(** X5.  [cosineSimilarity] is symmetric: with the arguments exchanged it
    throws in the same cases and returns the same number otherwise. *)
Theorem cosineSimilarity_symmetric (Math_sqrt : Q -> Q) (a b : list Q) :
  match cosineSimilarity Math_sqrt a b, cosineSimilarity Math_sqrt b a with
  | Some x, Some y => x == y
  | None, None => True
  | _, _ => False
  end.
Proof.
  unfold cosineSimilarity. rewrite (Nat.eqb_sym (length b)).
  destruct (length a =? length b)%nat; simpl; [|exact I].
  pose proof (fold_swap a b 0 0 0 0 (Qeq_refl 0)) as (Hd & Hn1 & Hn2).
  cbv zeta in Hd, Hn1, Hn2.
  destruct (fold_left _ (combine a b) _) as [[d na] nb].
  destruct (fold_left _ (combine b a) _) as [[d' nb'] na'].
  simpl in Hd, Hn1, Hn2. subst na' nb'.
  rewrite (Qeq_bool_resp (Math_sqrt nb * Math_sqrt na) (Math_sqrt na * Math_sqrt nb))
    by apply Qmult_comm.
  destruct (Qeq_bool (Math_sqrt na * Math_sqrt nb) 0); [reflexivity|].
  rewrite Hd. now rewrite (Qmult_comm (Math_sqrt nb)).
Qed.

Lemma fold_zero (f := fun (acc : Q * Q * Q) (xy : Q * Q) =>
                   let '(dot, normA, normB) := acc in
                   (dot + fst xy * snd xy, normA + fst xy * fst xy,
                    normB + snd xy * snd xy)) a :
  Forall (fun x => x == 0) a ->
  forall b d na nb, d == 0 -> na == 0 ->
    fst (fst (fold_left f (combine a b) (d, na, nb))) == 0 /\
    snd (fst (fold_left f (combine a b) (d, na, nb))) == 0.
Proof.
  induction 1 as [|x a Hx _ IH]; intros [|y b] d na nb Hd Hna; simpl; auto.
  apply IH; rewrite Hx; lra.
Qed.

Lemma fold_zero_r (f := fun (acc : Q * Q * Q) (xy : Q * Q) =>
                   let '(dot, normA, normB) := acc in
                   (dot + fst xy * snd xy, normA + fst xy * fst xy,
                    normB + snd xy * snd xy)) a :
  Forall (fun x => x == 0) a ->
  forall b d na nb, d == 0 -> nb == 0 ->
    fst (fst (fold_left f (combine b a) (d, na, nb))) == 0 /\
    snd (fold_left f (combine b a) (d, na, nb)) == 0.
Proof.
  induction 1 as [|x a Hx _ IH]; intros [|y b] d na nb Hd Hnb; simpl; auto.
  apply IH; rewrite Hx; lra.
Qed.

(** X6.  A zero vector, which is what a failed embedding batch is replaced
    by, has similarity 0 with every vector of its length, on either
    side. *)
Theorem cosineSimilarity_zero_vector (Math_sqrt : Q -> Q) (a b : list Q) :
  (forall x, x == 0 -> Math_sqrt x == 0) ->
  Forall (fun x => x == 0) a -> length a = length b ->
  cosineSimilarity Math_sqrt a b = Some 0 /\ cosineSimilarity Math_sqrt b a = Some 0.
Proof.
  intros Hsqrt Hz Hlen. split.
  - unfold cosineSimilarity. rewrite Hlen, Nat.eqb_refl. simpl.
    pose proof (fold_zero a Hz b 0 0 0 (Qeq_refl 0) (Qeq_refl 0)) as (_ & Hn).
    cbv zeta in Hn. destruct (fold_left _ (combine a b) _) as [[d na] nb].
    simpl in Hn. apply Hsqrt in Hn.
    assert (Hm : Math_sqrt na * Math_sqrt nb == 0) by (rewrite Hn; lra).
    apply Qeq_bool_iff in Hm. now rewrite Hm.
  - unfold cosineSimilarity. rewrite Hlen, Nat.eqb_refl. simpl.
    pose proof (fold_zero_r a Hz b 0 0 0 (Qeq_refl 0) (Qeq_refl 0)) as (_ & Hn).
    cbv zeta in Hn. destruct (fold_left _ (combine b a) _) as [[d na] nb].
    simpl in Hn. apply Hsqrt in Hn.
    assert (Hm : Math_sqrt na * Math_sqrt nb == 0) by (rewrite Hn; lra).
    apply Qeq_bool_iff in Hm. now rewrite Hm.
Qed.

End CosineFacts.

Module HashFacts.
Import Sha256 Hex.

Lemma round_length st kw : length st = 8%nat -> length (round st kw) = 8%nat.
Proof.
  intros H. do 9 (destruct st as [|? st]; try discriminate H). reflexivity.
Qed.

Lemma fold_round_length kws st :
  length st = 8%nat -> length (fold_left round kws st) = 8%nat.
Proof.
  revert st. induction kws as [|kw kws IH]; intros st H; simpl; [exact H|].
  apply IH, round_length, H.
Qed.

Lemma compress_length h block : length h = 8%nat -> length (compress h block) = 8%nat.
Proof.
  intros H. unfold compress.
  rewrite length_map, length_combine, fold_round_length by exact H. rewrite H. reflexivity.
Qed.

Lemma blocksLoop_length fuel h words :
  length h = 8%nat -> length (blocksLoop fuel h words) = 8%nat.
Proof.
  revert h words. induction fuel as [|fuel IH]; intros h words H; simpl; [exact H|].
  destruct words; [exact H|]. apply IH, compress_length, H.
Qed.

Lemma length_flat_bigEndian ws : length (flat_map (bigEndian 4) ws) = (4 * length ws)%nat.
Proof.
  induction ws as [|w ws IH]; [reflexivity|].
  cbn [flat_map]. rewrite length_app, IH. simpl. lia.
Qed.

Lemma digest_length msg : length (digest msg) = 32%nat.
Proof.
  unfold digest. rewrite length_flat_bigEndian, blocksLoop_length; reflexivity.
Qed.

Lemma hex_length bytes : String.length (hex bytes) = (2 * length bytes)%nat.
Proof. induction bytes as [|b bytes IH]; simpl; [reflexivity|]. rewrite IH. lia. Qed.

Lemma hexDigit_lowerHex n : 0 <= n < 16 -> lowerHex (hexDigit n) = true.
Proof.
  intros H.
  assert (Hn : In n [0; 1; 2; 3; 4; 5; 6; 7; 8; 9; 10; 11; 12; 13; 14; 15]).
  { simpl. lia. }
  simpl in Hn. repeat (destruct Hn as [<-|Hn]; [vm_compute; reflexivity|]).
  contradiction.
Qed.

Lemma hex_lowerHex bytes :
  Forall (fun b => 0 <= b < 256) bytes -> allChars lowerHex (hex bytes) = true.
Proof.
  induction 1 as [|b bytes Hb _ IH]; [reflexivity|]. cbn [hex allChars].
  rewrite IH, !hexDigit_lowerHex; [reflexivity| |].
  - pose proof (Z.mod_pos_bound b 16). lia.
  - split; [apply Z.div_pos; lia|apply Z.div_lt_upper_bound; lia].
Qed.

(** X7.  [hashContent] always returns 64 characters, each a digit or a letter
    from [a] to [f]; so does every chunk identifier the chunker makes. *)
Theorem hashContent_hex64 (content : string) :
  String.length (Utils.hashContent content) = 64%nat /\
  allChars lowerHex (Utils.hashContent content) = true.
Proof.
  unfold Utils.hashContent. split.
  - now rewrite hex_length, digest_length.
  - apply hex_lowerHex, CacheFacts.digest_bytes.
Qed.

End HashFacts.

Module SelectionFacts.
Import Builder.

Lemma selectLoop_sublist eff chunks sel cur :
  exists picked,
    fst (selectLoop eff chunks sel cur) = sel ++ picked /\ sublist picked chunks.
Proof.
  revert sel cur. induction chunks as [|c rest IH]; intros sel cur; simpl.
  - exists []. split; [now rewrite app_nil_r|constructor].
  - destruct (cur + chunkCost c <=? eff).
    + destruct (budgetMostlyUsed eff (cur + chunkCost c)).
      * exists [c]. split; [reflexivity|]. apply sublist_skip, sublist_nil_l.
      * destruct (IH (sel ++ [c]) (cur + chunkCost c)) as (p & -> & Hp).
        exists (c :: p). split; [now rewrite <- app_assoc|now apply sublist_skip].
    + destruct (budgetMostlyUsed eff cur).
      * exists []. split; [now rewrite app_nil_r|apply sublist_nil_l].
      * destruct (IH sel cur) as (p & -> & Hp).
        exists p. split; [reflexivity|now apply sublist_cons].
Qed.

(** X8.  The selection is taken from the ranked list without reordering or
    repeating anything: it is a subsequence of the input. *)
Theorem selectWithinBudget_subsequence (budget : Z) (chunks : list ScoredChunk) :
  sublist (selectWithinBudget budget chunks) chunks.
Proof.
  unfold selectWithinBudget.
  destruct (selectLoop_sublist (effectiveBudget budget) chunks [] 0) as (p & -> & Hp).
  exact Hp.
Qed.

Lemma selectLoop_all eff chunks sel cur :
  0 <= cur ->
  (inject_Z (cur + totalCost chunks) < inject_Z eff * (98 # 100))%Q ->
  selectLoop eff chunks sel cur = (sel ++ chunks, cur + totalCost chunks).
Proof.
  revert sel cur. induction chunks as [|c rest IH]; intros sel cur Hcur Hlt; simpl.
  - rewrite app_nil_r. f_equal. unfold totalCost. simpl. lia.
  - change (totalCost (c :: rest)) with (chunkCost c + totalCost rest) in *.
    pose proof (BuilderFacts.chunkCost_pos c) as Hc.
    pose proof (BuilderFacts.totalCost_nonneg rest) as Hr.
    assert (Hq : (inject_Z (cur + chunkCost c) <= inject_Z (cur + (chunkCost c + totalCost rest)))%Q).
    { rewrite <- Zle_Qle. lia. }
    assert (Heff : cur + chunkCost c <= eff).
    { apply Z.lt_le_incl. rewrite Zlt_Qlt.
      assert (H0 : (0 < inject_Z eff)%Q).
      { assert (H50 : (0 <= inject_Z (cur + chunkCost c))%Q).
        { change 0%Q with (inject_Z 0). rewrite <- Zle_Qle. lia. }
        lra. }
      lra. }
    apply Z.leb_le in Heff. rewrite Heff.
    assert (Hb : budgetMostlyUsed eff (cur + chunkCost c) = false).
    { unfold budgetMostlyUsed. destruct (Qle_bool _ _) eqn:Hq'; [|reflexivity].
      apply Qle_bool_iff in Hq'. lra. }
    rewrite Hb, IH.
    + rewrite <- app_assoc. f_equal. lia.
    + lia.
    + now rewrite <- Z.add_assoc.
Qed.

(** X9.  When the whole ranked list, at [tokens + 50] per chunk, stays below
    98% of the effective budget, nothing is dropped. *)
Theorem selectWithinBudget_keeps_all (budget : Z) (chunks : list ScoredChunk) :
  (inject_Z (totalCost chunks) < inject_Z (effectiveBudget budget) * (98 # 100))%Q ->
  selectWithinBudget budget chunks = chunks.
Proof.
  intros H. unfold selectWithinBudget. now rewrite selectLoop_all.
Qed.

End SelectionFacts.

Module FormatterFacts.
Import Formatter.

Lemma push_keys key c m :
  map fst (push key c m) = if bool_decide (key ∈ map fst m) then map fst m
                           else map fst m ++ [key].
Proof.
  induction m as [|[k cs] m IH]; cbn [push map fst].
  - case_bool_decide as H; [|reflexivity]. now apply elem_of_nil in H.
  - destruct (String.eqb_spec k key) as [->|Hne]; cbn [map fst].
    + clear IH. rewrite bool_decide_true; [reflexivity|left].
    + rewrite IH. clear IH. repeat case_bool_decide; try reflexivity.
      * exfalso. match goal with H : ¬ _ |- _ => apply H end. now right.
      * exfalso.
        match goal with H : _ ∈ _ :: _ |- _ =>
          apply elem_of_cons in H; destruct H as [->|H]; [now apply Hne|contradiction] end.
Qed.

Lemma push_perm key c m :
  Permutation (flat_map snd (push key c m)) (flat_map snd m ++ [c]).
Proof.
  induction m as [|[k cs] m IH]; simpl; [reflexivity|].
  destruct (String.eqb k key); simpl.
  - rewrite <- !app_assoc. apply Permutation_app_head. apply Permutation_app_comm.
  - rewrite IH. now rewrite app_assoc.
Qed.

Lemma push_wellGrouped (c : ScoredChunk) m :
  wellGrouped m -> wellGrouped (push (relativePath c) c m).
Proof.
  intros [Hnd Hall]. split.
  - rewrite push_keys. destruct (bool_decide _) eqn:Hin; [exact Hnd|].
    apply bool_decide_eq_false in Hin.
    apply NoDup_app. repeat split; [exact Hnd| |apply NoDup_singleton].
    intros x Hx Hx'. apply list_elem_of_singleton in Hx'. now subst.
  - clear Hnd. induction Hall as [|[k cs] m [Hne Hk] Hrest IH]; simpl.
    + constructor; [|constructor]. simpl. split; [discriminate|]. now constructor.
    + destruct (String.eqb_spec k (relativePath c)) as [->|Hd].
      * constructor; [|exact Hrest]. simpl in *. split.
        -- now destruct cs.
        -- apply Forall_app. split; [exact Hk|]. now constructor.
      * constructor; [now split|exact IH].
Qed.

Lemma groupByFile_from chunks m :
  wellGrouped m ->
  let r := fold_left (fun byFile (c : ScoredChunk) => push (relativePath c) c byFile) chunks m in
  wellGrouped r /\ Permutation (flat_map snd r) (flat_map snd m ++ chunks).
Proof.
  revert m. induction chunks as [|c chunks IH]; intros m Hm; simpl.
  - split; [exact Hm|now rewrite app_nil_r].
  - destruct (IH _ (push_wellGrouped c m Hm)) as [H1 H2]. split; [exact H1|].
    rewrite H2, push_perm. now rewrite <- app_assoc.
Qed.

Lemma byStartLine_le a b :
  Qle_bool (byStartLine a b) 0 = true <-> (startLine a <= startLine b)%nat.
Proof.
  rewrite Qle_bool_iff. unfold byStartLine. change 0%Q with (inject_Z 0).
  rewrite <- Zle_Qle. lia.
Qed.

Lemma insertBy_ascending x l :
  StronglySorted (fun a b : ScoredChunk => (startLine a <= startLine b)%nat) l ->
  StronglySorted (fun a b : ScoredChunk => (startLine a <= startLine b)%nat)
                 (JSArray.insertBy byStartLine x l).
Proof.
  induction 1 as [|y l Hs IH Hy]; simpl.
  - constructor; constructor.
  - destruct (Qle_bool (byStartLine x y) 0) eqn:Hc.
    + apply byStartLine_le in Hc.
      constructor; [now constructor|]. constructor; [exact Hc|].
      eapply List.Forall_impl; [|exact Hy]. simpl. intros z Hz. lia.
    + assert (Hyx : (startLine y <= startLine x)%nat).
      { destruct (Nat.le_gt_cases (startLine x) (startLine y)) as [Hle|Hgt]; [|lia].
        apply byStartLine_le in Hle. congruence. }
      constructor; [exact IH|].
      apply (Permutation_Forall
               (Permutation_sym (JSArrayFacts.insertBy_perm byStartLine x l))).
      now constructor.
Qed.

Lemma sortBy_ascending l :
  StronglySorted (fun a b : ScoredChunk => (startLine a <= startLine b)%nat)
                 (JSArray.sortBy byStartLine l).
Proof.
  induction l as [|x l IH]; [constructor|].
  unfold JSArray.sortBy in *. simpl. now apply insertBy_ascending.
Qed.

Lemma flat_map_sortFile m :
  Permutation (flat_map snd (map sortFile m)) (flat_map snd m).
Proof.
  induction m as [|g m IH]; simpl; [reflexivity|].
  rewrite IH. apply Permutation_app_tail. apply JSArrayFacts.sortBy_perm.
Qed.

Lemma grouped_perm chunks : Permutation (flat_map snd (grouped chunks)) chunks.
Proof.
  assert (H0 : wellGrouped []) by (split; constructor).
  destruct (groupByFile_from chunks [] H0) as [_ Hperm]. simpl in Hperm.
  unfold grouped. rewrite flat_map_sortFile. exact Hperm.
Qed.

(** X10.  The formatter files every selected chunk under exactly one heading:
    the groups it prints hold the selected chunks, each once; no two
    groups are for the same path; every group is non-empty, holds chunks
    of its own path only, and lists them by increasing start line. *)
Theorem formatContext_groups (chunks : list ScoredChunk) :
  Permutation (flat_map snd (grouped chunks)) chunks /\
  NoDup (map fst (grouped chunks)) /\
  Forall (fun g =>
            snd g <> [] /\
            Forall (fun c : ScoredChunk => relativePath c = fst g) (snd g) /\
            StronglySorted (fun a b : ScoredChunk => (startLine a <= startLine b)%nat) (snd g))
         (grouped chunks).
Proof.
  assert (H0 : wellGrouped []) by (split; constructor).
  destruct (groupByFile_from chunks [] H0) as [[Hnd Hall] _].
  fold (groupByFile chunks) in Hnd, Hall. split; [apply grouped_perm|].
  unfold grouped. split.
  - rewrite map_map. simpl. exact Hnd.
  - apply Forall_map. eapply List.Forall_impl; [|exact Hall].
    intros [k cs] [Hne Hk]. simpl in *. repeat split.
    + intros Hs. apply Hne. apply Permutation_nil.
      rewrite <- Hs. apply JSArrayFacts.sortBy_perm.
    + apply (Permutation_Forall (Permutation_sym (JSArrayFacts.sortBy_perm byStartLine cs))).
      exact Hk.
    + apply sortBy_ascending.
Qed.

(** ** The printed text *)

Lemma prefix_app (t r : string) : String.prefix t (t +:+ r) = true.
Proof.
  induction t as [|c t IH]; [rewrite StrFacts.append_nil_l; now destruct r|].
  rewrite StrFacts.append_cons. cbn [String.prefix].
  destruct (Ascii.ascii_dec c c); [exact IH|congruence].
Qed.

Lemma prefix_app_mono (t a b : string) :
  String.prefix t a = true -> String.prefix t (a +:+ b) = true.
Proof.
  revert a. induction t as [|c t IH]; intros a H; [now destruct (a +:+ b)|].
  destruct a as [|d a]; [discriminate H|].
  rewrite StrFacts.append_cons. cbn [String.prefix] in *.
  destruct (Ascii.ascii_dec c d); [now apply IH|discriminate H].
Qed.

Lemma includes_app_r (a b t : string) :
  JS.includes b t = true -> JS.includes (a +:+ b) t = true.
Proof.
  intros H. induction a as [|c a IH]; [now rewrite StrFacts.append_nil_l|].
  rewrite StrFacts.append_cons. cbn [JS.includes]. rewrite IH. apply orb_true_r.
Qed.

Lemma includes_app_l (a b t : string) :
  JS.includes a t = true -> JS.includes (a +:+ b) t = true.
Proof.
  induction a as [|c a IH]; intros H.
  - simpl in H. rewrite orb_false_r in H. destruct t; [|discriminate H].
    destruct b; reflexivity.
  - rewrite StrFacts.append_cons. cbn [JS.includes] in *.
    apply orb_true_iff in H. destruct H as [H|H].
    + pose proof (prefix_app_mono _ _ b H) as Hp.
      rewrite StrFacts.append_cons in Hp. now rewrite Hp.
    + rewrite (IH H). apply orb_true_r.
Qed.

Lemma includes_self (s : string) : JS.includes s s = true.
Proof.
  destruct s as [|c s]; [reflexivity|]. cbn [JS.includes].
  rewrite <- (StrFacts.append_nil_r (String c s)) at 2. now rewrite prefix_app.
Qed.

Lemma includes_join sep parts p :
  In p parts -> JS.includes (JS.join sep parts) p = true.
Proof.
  induction parts as [|q parts IH]; [contradiction|]. intros [->|Hin].
  - destruct parts as [|q' parts]; [apply includes_self|].
    cbn [JS.join]. apply includes_app_l, includes_self.
  - destruct parts as [|q' parts]; [contradiction|].
    cbn [JS.join]. apply includes_app_r, includes_app_r, IH, Hin.
Qed.

(** X11.  Nothing selected is lost in the output: the text of every selected
    chunk occurs in the formatted context, and so does the heading of its
    file. *)
Theorem formatContext_includes_selected (chunks : list ScoredChunk) (c : ScoredChunk) :
  In c chunks ->
  JS.includes (formatContext chunks) (content c) = true /\
  JS.includes (formatContext chunks) ("## " +:+ relativePath c +:+ newline) = true.
Proof.
  intros Hin. unfold formatContext. destruct chunks as [|c0 rest] eqn:E; [contradiction|].
  rewrite <- E in *. clear E c0 rest.
  pose proof (grouped_perm chunks) as Hperm.
  apply (Permutation_in _ (Permutation_sym Hperm)) in Hin.
  apply in_flat_map in Hin. destruct Hin as (g & Hg & Hc).
  split.
  - apply includes_join. apply in_flat_map. exists g. split; [exact Hg|].
    right. apply in_flat_map. exists c. split; [exact Hc|]. simpl. tauto.
  - apply includes_join. apply in_flat_map.
    assert (H0 : wellGrouped []) by (split; constructor).
    destruct (groupByFile_from chunks [] H0) as [[_ Hall] _].
    fold (groupByFile chunks) in Hall. unfold grouped in Hg.
    apply in_map_iff in Hg. destruct Hg as (g0 & <- & Hg0).
    rewrite List.Forall_forall in Hall. destruct (Hall g0 Hg0) as [_ Hpath].
    exists (sortFile g0). split; [now apply in_map|]. left.
    simpl in Hc. apply (Permutation_in _ (JSArrayFacts.sortBy_perm byStartLine (snd g0))) in Hc.
    rewrite List.Forall_forall in Hpath. now rewrite (Hpath c Hc).
Qed.

End FormatterFacts.

Module StemFacts.
Import Keyword.

Lemma endsWith_length word suf :
  JS.endsWith word suf = true -> (String.length suf <= String.length word)%nat.
Proof.
  unfold JS.endsWith. intros H. apply andb_true_iff in H. destruct H as [H _].
  now apply Nat.leb_le in H.
Qed.

Lemma rewrite_length rule word stemmed :
  rewrite rule word = Some stemmed ->
  String.length stemmed =
  (String.length word - String.length (fst rule) + String.length (snd rule))%nat.
Proof.
  destruct rule as [suf rep]. unfold rewrite.
  destruct (JS.endsWith word suf) eqn:He; [|discriminate]. intros [= <-].
  apply endsWith_length in He. unfold JS.slice.
  rewrite StrFacts.length_append, StrFacts.length_substring0. simpl. lia.
Qed.

Lemma stemLoop_shorter rules word :
  Forall (fun rule => (String.length (snd rule) <= String.length (fst rule))%nat) rules ->
  (String.length (stemLoop rules word) <= String.length word)%nat.
Proof.
  induction 1 as [|rule rules Hr _ IH]; cbn [stemLoop]; [lia|].
  destruct (rewrite rule word) as [stemmed|] eqn:Hw; [|exact IH].
  destruct (3 <=? String.length stemmed)%nat; [|exact IH].
  pose proof (rewrite_length _ _ _ Hw) as Hl.
  destruct rule as [suf rep]. unfold rewrite in Hw.
  destruct (JS.endsWith word suf) eqn:He; [|discriminate].
  apply endsWith_length in He. simpl in *. lia.
Qed.

Lemma STEM_RULES_shorten :
  Forall (fun rule => (String.length (snd rule) <= String.length (fst rule))%nat) STEM_RULES.
Proof. repeat constructor. Qed.

Lemma stem_min_length (word : string) :
  (Nat.min 3 (String.length word) <= String.length (stem word))%nat.
Proof.
  unfold stem. destruct (Nat.ltb_spec (String.length word) 4) as [Hs|Hl]; [lia|].
  destruct (KeywordFacts.stemLoop_length STEM_RULES word) as [->|H]; lia.
Qed.

(** X12.  The stemmer never lengthens a word, and never cuts a word of three
    or more characters below three characters. *)
Theorem stem_length_bounds (word : string) :
  (String.length (stem word) <= String.length word)%nat /\
  (Nat.min 3 (String.length word) <= String.length (stem word))%nat.
Proof.
  split; [|apply stem_min_length].
  unfold stem. destruct (Nat.ltb_spec (String.length word) 4) as [Hs|Hl]; [lia|].
  apply stemLoop_shorter, STEM_RULES_shorten.
Qed.

End StemFacts.

Module TokenizeFacts.
Import Keyword Matching Hex.

Lemma lowered_word_char c :
  let d := JS.toLowerChar (if Ascii.eqb c "_" || Ascii.eqb c "-" then " "%char else c) in
  implb (JS.isWord d) (lowerAlnum d) = true.
Proof. destruct c as [[] [] [] [] [] [] [] []]; reflexivity. Qed.

Lemma lowered_safe (x : string) :
  allChars (fun c => implb (JS.isWord c) (lowerAlnum c)) (JS.toLowerCase (unSnake x)) = true.
Proof.
  induction x as [|c x IH]; [reflexivity|].
  unfold JS.toLowerCase, unSnake in *. cbn [JS.smap allChars].
  rewrite IH, andb_true_r. apply lowered_word_char.
Qed.

Lemma allChars_of_list p l : allChars p (string_of_list_ascii l) = forallb p l.
Proof. induction l as [|c l IH]; simpl; [reflexivity|now rewrite IH]. Qed.

Lemma allChars_rev p cur :
  Forall (fun c => p c = true) cur -> allChars p (string_of_list_ascii (rev cur)) = true.
Proof.
  intros H. rewrite allChars_of_list. apply forallb_forall. intros c Hc.
  apply in_rev in Hc. rewrite List.Forall_forall in H. now apply H.
Qed.

Lemma splitNonWord_chars s :
  allChars (fun c => implb (JS.isWord c) (lowerAlnum c)) s = true ->
  forall cur inSep,
    Forall (fun c => lowerAlnum c = true) cur ->
    Forall (fun t => allChars lowerAlnum t = true) (splitNonWord s cur inSep).
Proof.
  induction s as [|c s IH]; intros Hs cur inSep Hcur; cbn [splitNonWord].
  - constructor; [now apply allChars_rev|constructor].
  - cbn [allChars] in Hs. apply andb_true_iff in Hs. destruct Hs as [Hc Hs].
    destruct (JS.isWord c) eqn:Hw.
    + apply IH; [exact Hs|]. constructor; [exact Hc|exact Hcur].
    + destruct inSep; [now apply IH|].
      constructor; [now apply allChars_rev|]. apply IH; [exact Hs|constructor].
Qed.

Lemma allChars_append p a b :
  allChars p a = true -> allChars p b = true -> allChars p (a +:+ b) = true.
Proof.
  intros Ha Hb. induction a as [|c a IH]; [now rewrite StrFacts.append_nil_l|].
  rewrite StrFacts.append_cons. cbn [allChars] in *.
  apply andb_true_iff in Ha. destruct Ha as [-> Ha]. now apply IH.
Qed.

Lemma allChars_substring p s : forall i n,
  allChars p s = true -> allChars p (String.substring i n s) = true.
Proof.
  induction s as [|c s IH]; intros i n H.
  - destruct i, n; reflexivity.
  - cbn [allChars] in H. apply andb_true_iff in H. destruct H as [Hc Hs].
    destruct i as [|i].
    + destruct n as [|n]; [reflexivity|]. cbn [String.substring allChars].
      rewrite Hc. now apply IH.
    + cbn [String.substring]. now apply IH.
Qed.

Lemma stemLoop_chars rules word :
  Forall (fun rule => allChars lowerAlnum (snd rule) = true) rules ->
  allChars lowerAlnum word = true ->
  allChars lowerAlnum (stemLoop rules word) = true.
Proof.
  intros Hr Hw. induction Hr as [|[suf rep] rules Hrep _ IH]; cbn [stemLoop]; [exact Hw|].
  unfold rewrite. destruct (JS.endsWith word suf); [|exact IH].
  destruct (3 <=? _)%nat; [|exact IH].
  apply allChars_append; [|exact Hrep]. unfold JS.slice. now apply allChars_substring.
Qed.

Lemma stem_chars word :
  allChars lowerAlnum word = true -> allChars lowerAlnum (stem word) = true.
Proof.
  intros H. unfold stem. destruct (_ <? _)%nat; [exact H|].
  apply stemLoop_chars; [|exact H]. repeat constructor.
Qed.

(** X13.  Every token [tokenize] returns, with or without stop-word filtering
    and stemming, has at least two characters, all of them lower-case
    letters or digits. *)
Theorem tokenize_tokens_shape (text : string) (filterStopwords applyStemming : bool) :
  Forall (fun t => (2 <= String.length t)%nat /\ allChars lowerAlnum t = true)
         (tokenize text filterStopwords applyStemming).
Proof.
  unfold tokenize.
  set (raw := splitNonWord _ [] false).
  assert (Hraw : Forall (fun t => allChars lowerAlnum t = true) raw).
  { apply splitNonWord_chars; [apply lowered_safe|constructor]. }
  set (long := List.filter (fun t => (1 <? String.length t)%nat) raw).
  assert (Hlong : Forall (fun t => (2 <= String.length t)%nat /\ allChars lowerAlnum t = true) long).
  { apply List.Forall_forall. intros t Ht. apply filter_In in Ht. destruct Ht as [Ht Hl].
    apply Nat.ltb_lt in Hl. rewrite List.Forall_forall in Hraw. split; [lia|now apply Hraw]. }
  set (kept := if filterStopwords then _ else long).
  assert (Hkept : Forall (fun t => (2 <= String.length t)%nat /\ allChars lowerAlnum t = true) kept).
  { subst kept. destruct filterStopwords; [|exact Hlong].
    apply List.Forall_forall. intros t Ht. apply filter_In in Ht. destruct Ht as [Ht _].
    rewrite List.Forall_forall in Hlong. now apply Hlong. }
  destruct applyStemming; [|exact Hkept].
  apply Forall_map. eapply List.Forall_impl; [|exact Hkept].
  intros t [Hl Hc]. split; [|now apply stem_chars].
  pose proof (StemFacts.stem_min_length t). lia.
Qed.

End TokenizeFacts.

Module MatchFacts.
Import Keyword Matching.
Local Open Scope Q_scope.

Lemma prefix_self (s : string) : String.prefix s s = true.
Proof.
  induction s as [|c s IH]; [reflexivity|]. cbn [String.prefix].
  destruct (Ascii.ascii_dec c c); [exact IH|congruence].
Qed.

Lemma related_self (qt : string) : related qt qt = true.
Proof.
  unfold related. destruct qt as [|c qt]; [reflexivity|].
  cbn [JS.includes]. now rewrite prefix_self.
Qed.

Lemma hasToken_related l qt : hasToken l qt = true -> existsb (related qt) l = true.
Proof.
  unfold hasToken. intros H. apply existsb_exists in H. destruct H as (t & Hin & He).
  apply String.eqb_eq in He. subst t. apply existsb_exists. exists qt.
  split; [exact Hin|apply related_self].
Qed.

Lemma filter_none {A} (f : A -> bool) l : existsb f l = false -> List.filter f l = [].
Proof.
  induction l as [|x l IH]; simpl; [reflexivity|].
  destruct (f x); simpl; [discriminate|exact IH].
Qed.

Lemma filter_some {A} (f : A -> bool) l :
  existsb f l = true -> (0 < length (List.filter f l))%nat.
Proof.
  induction l as [|x l IH]; simpl; [discriminate|].
  destruct (f x); simpl; [lia|exact IH].
Qed.

Lemma hasToken_unrelated l qt : existsb (related qt) l = false -> hasToken l qt = false.
Proof.
  intros H. destruct (hasToken l qt) eqn:Ht; [|reflexivity].
  apply hasToken_related in Ht. congruence.
Qed.

Lemma boost_ge_1 important qt : 1 <= boostMultiplier important qt.
Proof. unfold boostMultiplier. destruct (bool_decide _); discriminate. Qed.

Section Scores.
Variable Math_log : Q -> Q.

Lemma tokenScore_unmatched ct pt nt d important acc qt :
  existsb (related qt) ct = false -> existsb (related qt) pt = false ->
  existsb (related qt) nt = false ->
  tokenScore Math_log ct pt nt d important acc qt == acc.
Proof.
  intros Hc Hp Hn. unfold tokenScore.
  rewrite (filter_none _ _ Hc), (filter_none _ _ Hp), (filter_none _ _ Hn).
  rewrite (hasToken_unrelated _ _ Hc), (hasToken_unrelated _ _ Hp), (hasToken_unrelated _ _ Hn).
  cbn [length Nat.ltb Nat.leb]. unfold ofNat. cbn [length].
  change (inject_Z (Z.of_nat 0)) with 0.
  generalize (boostMultiplier important qt). intros b.
  unfold CONTENT_WEIGHT, PATH_WEIGHT, NAME_WEIGHT. ring.
Qed.

Lemma fold_unmatched ct pt nt d important qts :
  (forall qt, In qt qts ->
     existsb (related qt) ct = false /\ existsb (related qt) pt = false /\
     existsb (related qt) nt = false) ->
  forall acc, fold_left (tokenScore Math_log ct pt nt d important) qts acc == acc.
Proof.
  induction qts as [|qt qts IH]; intros H acc; simpl; [reflexivity|].
  rewrite IH by (intros; apply H; now right).
  destruct (H qt (or_introl eq_refl)) as (Hc & Hp & Hn). now apply tokenScore_unmatched.
Qed.

Hypothesis Math_log_nonneg : forall x, 1 <= x -> 0 <= Math_log x.

Lemma tokenScore_grows ct pt nt d important acc qt :
  0 <= d ->
  acc <= tokenScore Math_log ct pt nt d important acc qt /\
  (existsb (related qt) ct || existsb (related qt) pt || existsb (related qt) nt = true ->
   acc + 1 <= tokenScore Math_log ct pt nt d important acc qt).
Proof.
  intros Hd. unfold tokenScore.
  pose proof (boost_ge_1 important qt) as Hb.
  set (b := boostMultiplier important qt) in *.
  set (cm := length (List.filter (related qt) ct)).
  set (ncs := if (0 <? cm)%nat then (1 + Math_log (ofNat cm)) * (1 + d) else 0).
  assert (Hn : 0 <= ncs /\ (existsb (related qt) ct = true -> 1 <= ncs)).
  { subst ncs. destruct (Nat.ltb_spec 0 cm) as [Hpos|Hz].
    - pose proof (Math_log_nonneg _ (ScoreFacts.ofNat_ge_1 cm Hpos)) as Hl.
      assert (1 <= (1 + Math_log (ofNat cm)) * (1 + d)) by nra. split; [lra|auto].
    - split; [lra|]. intros He. apply filter_some in He. fold cm in He. lia. }
  destruct Hn as [Hn0 Hn1].
  set (pm := ofNat (length (List.filter (related qt) pt))).
  set (nm := ofNat (length (List.filter (related qt) nt))).
  assert (Hp : 0 <= pm /\ (existsb (related qt) pt = true -> 1 <= pm)).
  { split; [apply ScoreFacts.ofNat_nonneg|]. intros He. apply ScoreFacts.ofNat_ge_1.
    now apply filter_some. }
  assert (Hm : 0 <= nm /\ (existsb (related qt) nt = true -> 1 <= nm)).
  { split; [apply ScoreFacts.ofNat_nonneg|]. intros He. apply ScoreFacts.ofNat_ge_1.
    now apply filter_some. }
  destruct Hp as [Hp0 Hp1], Hm as [Hm0 Hm1].
  unfold CONTENT_WEIGHT, PATH_WEIGHT, NAME_WEIGHT.
  assert (H1 : ncs <= ncs * 1 * b) by nra.
  assert (H2 : pm <= pm * 2 * b) by nra.
  assert (H3 : nm <= nm * 3 * b) by nra.
  assert (H4 : 0 <= 2 * b) by lra.
  assert (H5 : 0 <= 10 * b) by lra.
  assert (H6 : 0 <= 20 * b) by lra.
  split.
  - destruct (hasToken ct qt), (hasToken pt qt), (hasToken nt qt); lra.
  - intros He. apply orb_true_iff in He. destruct He as [He|He];
      [apply orb_true_iff in He; destruct He as [He|He]|].
    + specialize (Hn1 He). destruct (hasToken ct qt), (hasToken pt qt), (hasToken nt qt); lra.
    + specialize (Hp1 He). destruct (hasToken ct qt), (hasToken pt qt), (hasToken nt qt); lra.
    + specialize (Hm1 He). destruct (hasToken ct qt), (hasToken pt qt), (hasToken nt qt); lra.
Qed.

Lemma fold_grows ct pt nt d important qts :
  0 <= d ->
  forall acc,
    acc <= fold_left (tokenScore Math_log ct pt nt d important) qts acc /\
    ((exists qt, In qt qts /\
         existsb (related qt) ct || existsb (related qt) pt || existsb (related qt) nt = true) ->
     acc + 1 <= fold_left (tokenScore Math_log ct pt nt d important) qts acc).
Proof.
  intros Hd. induction qts as [|qt qts IH]; intros acc; simpl.
  - split; [lra|]. intros (qt & [] & _).
  - destruct (tokenScore_grows ct pt nt d important acc qt Hd) as [Hs Hs1].
    destruct (IH (tokenScore Math_log ct pt nt d important acc qt)) as [Hf Hf1].
    split; [lra|]. intros (q & [<-|Hin] & Hq).
    + specialize (Hs1 Hq). lra.
    + assert (He : exists qt0, In qt0 qts /\
         existsb (related qt0) ct || existsb (related qt0) pt || existsb (related qt0) nt = true)
        by (exists q; auto).
      specialize (Hf1 He). lra.
Qed.

Lemma scaled_zero (b : bool) (k x : Q) : x == 0 -> (if b then x * k else x) == 0.
Proof. intros H. destruct b; rewrite H; lra. Qed.

Lemma scaled_pos (b : bool) (k x : Q) : 0 < k -> 0 < x -> 0 < (if b then x * k else x).
Proof. intros Hk Hx. destruct b; [nra|exact Hx]. Qed.

Lemma scoreOf_sign c queryTokens important :
  0 <= scoreOf Math_log c queryTokens important /\
  (0 < scoreOf Math_log c queryTokens important <->
   exists qt, In qt queryTokens /\ matches qt c = true).
Proof.
  split; [now apply ScoreFacts.scoreOf_nonneg|].
  unfold scoreOf, matches, contentTokens, pathTokens, nameTokens.
  set (ct := tokenize (content c) false true).
  set (pt := tokenize (relativePath c) false true).
  set (nt := match name c with Some n => tokenize n false true | None => [] end).
  set (d := Qmin 1 (200 / Qmax (ofNat (length ct)) 1)).
  assert (Hd : 0 <= d) by apply ScoreFacts.density_nonneg.
  set (s0 := fold_left _ queryTokens 0).
  split.
  - intros Hpos.
    set (f := fun qt => existsb (related qt) ct || existsb (related qt) pt
                        || existsb (related qt) nt).
    destruct (existsb f queryTokens) eqn:He.
    + apply existsb_exists in He. exact He.
    + exfalso. assert (Hz : s0 == 0).
      { apply fold_unmatched. intros qt Hin.
        assert (Hq : f qt = false).
        { destruct (f qt) eqn:Hq; [|reflexivity].
          assert (existsb f queryTokens = true) by (apply existsb_exists; eauto).
          congruence. }
        unfold f in Hq. apply orb_false_iff in Hq. destruct Hq as [Hq Hn].
        apply orb_false_iff in Hq. tauto. }
      clearbody s0. revert Hpos.
      match goal with |- 0 < ?e -> _ => assert (Hez : e == 0) end.
      { repeat apply scaled_zero. exact Hz. }
      rewrite Hez. lra.
  - intros He. destruct (fold_grows ct pt nt d important queryTokens Hd 0) as [_ H1].
    specialize (H1 He). fold s0 in H1.
    repeat (apply scaled_pos; [reflexivity|]). lra.
Qed.

End Scores.

(** X14.  The keyword score of a chunk is never negative, and it is positive
    exactly when some query token is related to (contains or is
    contained in) a token of the chunk's content, path or name. *)
Theorem keyword_score_positive_iff_match (Math_log : Q -> Q)
    (c : Chunk) (queryTokens : list string) (important : gset string) :
  (forall x, 1 <= x -> 0 <= Math_log x) ->
  0 <= scoreOf Math_log c queryTokens important /\
  (0 < scoreOf Math_log c queryTokens important <->
   exists qt, In qt queryTokens /\ matches qt c = true).
Proof. intros H. now apply scoreOf_sign. Qed.

End MatchFacts.

Module RelevanceFacts.
Import Keyword Matching.
Local Open Scope Q_scope.

Lemma sorted_split {A} (key : A -> Q) l :
  StronglySorted (fun a b => key b <= key a) l ->
  exists pre post, l = pre ++ post /\
    Forall (fun a => 0 < key a) pre /\ Forall (fun a => key a <= 0) post.
Proof.
  induction 1 as [|x l Hs IH Hx].
  - exists [], []. repeat split; constructor.
  - destruct (Qlt_le_dec 0 (key x)) as [Hpos|Hle].
    + destruct IH as (pre & post & -> & Hpre & Hpost).
      exists (x :: pre), post. repeat split; [now constructor|exact Hpost].
    + exists [], (x :: l). repeat split; [constructor|].
      constructor; [exact Hle|]. eapply List.Forall_impl; [|exact Hx].
      simpl. intros a Ha. lra.
Qed.

Section Ranking.
Variable Math_log : Q -> Q.
Hypothesis Math_log_nonneg : forall x, 1 <= x -> 0 <= Math_log x.

Lemma scoreFor_pos_iff query c :
  0 < scoreFor Math_log query c <-> relevant query c = true.
Proof.
  unfold scoreFor, relevant.
  destruct (tokenize query true true) as [|qt qts] eqn:E; simpl length; cbn [Nat.eqb].
  - simpl. split; [lra|discriminate].
  - rewrite <- E.
    destruct (MatchFacts.scoreOf_sign Math_log Math_log_nonneg c (tokenize query true true)
                (extractImportantTerms query)) as [_ ->].
    now rewrite existsb_exists.
Qed.

Lemma rank_matches_first chunks query :
  exists pre post,
    rank Math_log chunks query = pre ++ post /\
    Forall (fun sc : ScoredChunk => relevant query sc = true) pre /\
    Forall (fun sc : ScoredChunk => relevant query sc = false) post.
Proof.
  rewrite RankFacts.rank_as_sort.
  set (scored := map (fun c => mkScored c (scoreFor Math_log query c)) chunks).
  assert (Hall : Forall (fun sc : ScoredChunk => score sc = scoreFor Math_log query sc)
                        (JSArray.sortBy (JSArray.desc score) scored)).
  { apply (Permutation_Forall (Permutation_sym (JSArrayFacts.sortBy_perm _ _))).
    apply List.Forall_forall. intros sc Hin. apply in_map_iff in Hin as (c & <- & _).
    reflexivity. }
  destruct (sorted_split score _ (JSArrayFacts.sortBy_desc_sorted score scored))
    as (pre & post & E & Hpre & Hpost).
  rewrite E in Hall |- *. apply Forall_app in Hall. destruct Hall as [Hall1 Hall2].
  exists pre, post. split; [reflexivity|]. split.
  - rewrite List.Forall_forall in *. intros sc Hin.
    apply scoreFor_pos_iff. rewrite <- (Hall1 sc Hin). now apply Hpre.
  - rewrite List.Forall_forall in *. intros sc Hin.
    destruct (relevant query sc) eqn:Hr; [|reflexivity].
    apply scoreFor_pos_iff in Hr. rewrite <- (Hall2 sc Hin) in Hr.
    specialize (Hpost sc Hin). simpl in Hpost. lra.
Qed.

End Ranking.

(** X15.  In fast mode the ranking lists every chunk that matches a token of
    the query before every chunk that matches none. *)
Theorem fast_rank_matches_first (Math_log : Q -> Q) (chunks : list Chunk) (query : string) :
  (forall x, 1 <= x -> 0 <= Math_log x) ->
  exists pre post,
    rank Math_log chunks query = pre ++ post /\
    Forall (fun sc : ScoredChunk => relevant query sc = true) pre /\
    Forall (fun sc : ScoredChunk => relevant query sc = false) post.
Proof. intros H. now apply rank_matches_first. Qed.

End RelevanceFacts.

Module CoverageFacts.
Import Chunker Layout Coverage.
Local Open Scope nat_scope.

Lemma join_cons2 sep p q rest :
  JS.join sep (p :: q :: rest) = p +:+ sep +:+ JS.join sep (q :: rest).
Proof. reflexivity. Qed.

Lemma join_cons_char sep c f fs :
  JS.join sep (String c f :: fs) = String c (JS.join sep (f :: fs)).
Proof. destruct fs; [reflexivity|]. now rewrite !join_cons2, StrFacts.append_cons. Qed.

(** Joining the lines of a text gives the text back. *)
Lemma joinLines_splitLines text : joinLines (splitLines text) = text.
Proof.
  unfold joinLines, splitLines, newline.
  induction text as [|c s IH]; [reflexivity|]. cbn [JS.splitChar].
  destruct (Ascii.eqb_spec c "010"%char) as [->|Hne].
  - destruct (JS.splitChar "010" s) as [|f fs] eqn:E.
    + pose proof (ChunkerFacts.splitChar_nonempty "010"%char s) as H. rewrite E in H.
      simpl in H. lia.
    + rewrite join_cons2, IH, StrFacts.append_nil_l, StrFacts.append_cons.
      now rewrite StrFacts.append_nil_l.
  - destruct (JS.splitChar "010" s) as [|f fs] eqn:E.
    + pose proof (ChunkerFacts.splitChar_nonempty "010"%char s) as H. rewrite E in H.
      simpl in H. lia.
    + now rewrite join_cons_char, IH.
Qed.

Lemma sliceLines_all lines : sliceLines lines 0 (length lines) = lines.
Proof. unfold sliceLines. rewrite Nat.sub_0_r. simpl. apply firstn_all. Qed.

Lemma sliceLines_nested lines so e i e' :
  e' <= length (sliceLines lines so e) ->
  sliceLines (sliceLines lines so e) i e' = sliceLines lines (so + i) (so + e').
Proof.
  rewrite ChunkerFacts.length_sliceLines. intros H. unfold sliceLines.
  rewrite skipn_firstn_comm, firstn_firstn, skipn_skipn.
  replace (so + e' - (so + i)) with (e' - i) by lia.
  replace (Nat.min (e' - i) (e - so - i)) with (e' - i) by lia.
  now rewrite (Nat.add_comm i so).
Qed.

Section WithEnvironment.
Variable PATTERNS : string -> list Pattern.
Variable countTokens : string -> N.

Lemma splitLoop_faithful lines so e fp rp lang t n fuel i :
  Forall (faithful countTokens lines fp rp lang)
         (splitLoop countTokens fuel i (sliceLines lines so e) so fp rp lang t n).
Proof.
  revert i. induction fuel as [|fuel IH]; intros i; cbn [splitLoop]; [constructor|].
  destruct (Nat.ltb_spec i (length (sliceLines lines so e))) as [Hi|Hi]; [|constructor].
  constructor; [|apply IH].
  unfold faithful, verbatim, lineCount, maxLines, MAX_CHUNK_LINES.
  cbn [filePath relativePath language tokens id content startLine endLine name type].
  replace (so + i + 1 - 1) with (so + i) by lia.
  repeat split; try reflexivity.
  - rewrite sliceLines_nested by lia. reflexivity.
  - left. lia.
Qed.

Lemma sizeLoop_faithful lines fp rp lang fuel i :
  Forall (faithful countTokens lines fp rp lang)
         (sizeLoop countTokens fuel i lines fp rp lang).
Proof.
  revert i. induction fuel as [|fuel IH]; intros i; cbn [sizeLoop]; [constructor|].
  destruct (Nat.ltb_spec i (length lines)) as [Hi|Hi]; [|constructor].
  constructor; [|apply IH].
  unfold faithful, verbatim, lineCount, maxLines, MAX_CHUNK_LINES.
  cbn [filePath relativePath language tokens id content startLine endLine name type].
  replace (i + 1 - 1) with i by lia.
  repeat split; try reflexivity. left. lia.
Qed.

Lemma chunkBySize_faithful text fp rp lang :
  Forall (faithful countTokens (splitLines text) fp rp lang)
         (chunkBySize countTokens text fp rp lang).
Proof.
  unfold chunkBySize.
  destruct (Nat.leb_spec (length (splitLines text)) maxLines) as [Hle|Hgt];
    [|apply sizeLoop_faithful].
  constructor; [|constructor].
  unfold faithful, verbatim, lineCount.
  cbn [filePath relativePath language tokens id content startLine endLine name type].
  repeat split; try reflexivity.
  - change (1 - 1) with 0. now rewrite sliceLines_all, joinLines_splitLines.
  - left. unfold maxLines, MAX_CHUNK_LINES in *. lia.
Qed.

Lemma boundaryLoop_faithful bs total lines fp rp lang lo :
  increasing lo (length lines) bs ->
  Forall (faithful countTokens lines fp rp lang)
         (boundaryLoop countTokens bs total lines fp rp lang).
Proof.
  revert lo. induction bs as [|b rest IH]; intros lo; [constructor|].
  intros (Hlo & Hn & Hrest). cbn [boundaryLoop].
  set (end_ := match rest with next :: _ => line next - 1 | [] => length lines - 1 end).
  assert (Hend : line b <= end_ /\ end_ + 1 <= length lines).
  { subst end_. destruct rest as [|next rest']; [lia|].
    destruct Hrest as (A & B & C). lia. }
  assert (Hlater : Forall (faithful countTokens lines fp rp lang)
                          (boundaryLoop countTokens rest total lines fp rp lang)).
  { exact (IH _ Hrest). }
  assert (Hlen : length (sliceLines lines (line b) (end_ + 1)) = end_ + 1 - line b).
  { rewrite ChunkerFacts.length_sliceLines. lia. }
  destruct (_ && _); [exact Hlater|].
  destruct (Nat.ltb_spec maxLines (length (sliceLines lines (line b) (end_ + 1)))) as [Hbig|Hok].
  - apply Forall_app. split; [apply splitLoop_faithful|exact Hlater].
  - constructor; [|exact Hlater].
    unfold faithful, verbatim, lineCount.
  cbn [filePath relativePath language tokens id content startLine endLine name type].
    replace (line b + 1 - 1) with (line b) by lia.
    repeat split; try reflexivity. left. lia.
Qed.

Lemma chunk_faithful text fp rp lang :
  Forall (faithful countTokens (splitLines text) fp rp lang)
         (chunk PATTERNS countTokens text fp rp lang).
Proof.
  unfold chunk.
  destruct (length (PATTERNS lang) =? 0); [apply chunkBySize_faithful|].
  destruct (length (findBoundaries _ _) =? 0); [apply chunkBySize_faithful|].
  pose proof (ChunkerFacts.findBoundariesFrom_increasing 0 (splitLines text) (PATTERNS lang))
    as Hinc.
  fold (findBoundaries (splitLines text) (PATTERNS lang)) in Hinc. simpl in Hinc.
  set (bs := findBoundaries (splitLines text) (PATTERNS lang)) in *.
  pose proof (boundaryLoop_faithful bs (length bs) (splitLines text) fp rp lang 0 Hinc)
    as Hloop.
  destruct bs as [|b0 rest] eqn:Hbs; [exact Hloop|].
  destruct (0 <? line b0); [|exact Hloop].
  destruct (minLines <=? _); [|exact Hloop].
  constructor; [|exact Hloop].
  unfold faithful, verbatim, lineCount, isPreamble.
  cbn [filePath relativePath language tokens id content startLine endLine name type].
  repeat split; try reflexivity. right. repeat split.
Qed.

Lemma sizeLoop_done fuel i lines fp rp lang :
  length lines <= i -> sizeLoop countTokens fuel i lines fp rp lang = [].
Proof.
  intros H. destruct fuel; [reflexivity|]. cbn [sizeLoop].
  destruct (Nat.ltb_spec i (length lines)); [lia|reflexivity].
Qed.

Lemma sizeLoop_tiles lines fp rp lang fuel i :
  i < length lines -> length lines - i <= fuel ->
  tiles (i + 1) (length lines) (sizeLoop countTokens fuel i lines fp rp lang).
Proof.
  revert i. induction fuel as [|fuel IH]; intros i Hi Hf; [lia|].
  cbn [sizeLoop]. destruct (Nat.ltb_spec i (length lines)); [|lia].
  cbn [tiles startLine endLine]. unfold maxLines, MAX_CHUNK_LINES in *.
  repeat split; try lia.
  destruct (Nat.lt_ge_cases (i + 200) (length lines)) as [Hlt|Hge].
  - replace (S (Nat.min (i + 200) (length lines))) with (i + 200 + 1) by lia.
    apply IH; lia.
  - rewrite sizeLoop_done by lia. simpl. lia.
Qed.

Lemma chunkBySize_tiles text fp rp lang :
  tiles 1 (length (splitLines text)) (chunkBySize countTokens text fp rp lang).
Proof.
  unfold chunkBySize.
  pose proof (ChunkerFacts.splitChar_nonempty "010"%char text) as Hne.
  fold (splitLines text) in Hne.
  destruct (length (splitLines text) <=? maxLines).
  - simpl. repeat split; lia.
  - apply (sizeLoop_tiles _ _ _ _ _ 0); lia.
Qed.

Lemma sizeLoop_bounded lines fp rp lang fuel i :
  Forall (fun c => lineCount c <= 200) (sizeLoop countTokens fuel i lines fp rp lang).
Proof.
  revert i. induction fuel as [|fuel IH]; intros i; cbn [sizeLoop]; [constructor|].
  destruct (Nat.ltb_spec i (length lines)) as [Hi|Hi]; [|constructor].
  constructor; [|apply IH].
  unfold lineCount, maxLines, MAX_CHUNK_LINES. cbn [startLine endLine]. lia.
Qed.

Lemma chunkBySize_bounded text fp rp lang :
  Forall (fun c => lineCount c <= 200) (chunkBySize countTokens text fp rp lang).
Proof.
  unfold chunkBySize.
  destruct (Nat.leb_spec (length (splitLines text)) maxLines) as [Hle|Hgt];
    [|apply sizeLoop_bounded].
  constructor; [|constructor].
  unfold lineCount, maxLines, MAX_CHUNK_LINES in *. cbn [startLine endLine]. lia.
Qed.

Lemma findBoundariesFrom_nil i lines : findBoundariesFrom i lines [] = [].
Proof. revert i. induction lines as [|l lines IH]; intros i; simpl; auto. Qed.

Lemma boundaryLoop_short bs total lines fp rp lang :
  length lines < minLines -> 1 < total ->
  boundaryLoop countTokens bs total lines fp rp lang = [].
Proof.
  intros Hs Ht. induction bs as [|b rest IH]; [reflexivity|]. cbn [boundaryLoop].
  rewrite IH.
  match goal with |- context [length (sliceLines ?l ?a ?b)] =>
    pose proof (ChunkerFacts.length_sliceLines l a b) as Hl end.
  destruct (Nat.ltb_spec (length (sliceLines lines (line b)
     (match rest with next :: _ => line next - 1 | [] => length lines - 1 end + 1))) minLines)
    as [Hlt|Hge]; [|lia].
  destruct (Nat.ltb_spec 1 total); [reflexivity|lia].
Qed.

End WithEnvironment.

(** X16.  Every chunk holds the text of its own line range: its content is
    the lines [startLine .. endLine] of the file, joined by newlines,
    on every path of the chunker. *)
Theorem chunk_content_verbatim
    (PATTERNS : string -> list Pattern) (countTokens : string -> N)
    (text fp rp lang : string) :
  Forall (verbatim (splitLines text))
         (chunk PATTERNS countTokens text fp rp lang).
Proof.
  eapply List.Forall_impl; [|apply chunk_faithful]. unfold faithful. intros c H. tauto.
Qed.

(** X17.  Every chunk carries the paths and the language it was cut with, the
    token count of its own content, and as identifier the digest of the
    file path and the zero-based start line. *)
Theorem chunk_metadata
    (PATTERNS : string -> list Pattern) (countTokens : string -> N)
    (text fp rp lang : string) :
  Forall (fun c => filePath c = fp /\ relativePath c = rp /\ language c = lang /\
                   tokens c = countTokens (content c) /\
                   id c = Utils.hashContent (fp +:+ ":" +:+ JS.showNat (startLine c - 1)))
         (chunk PATTERNS countTokens text fp rp lang).
Proof.
  eapply List.Forall_impl; [|apply chunk_faithful]. unfold faithful. intros c H.
  unfold chunkId in H. tauto.
Qed.

(** X18.  No chunk other than a preamble has more than 200 lines. *)
Theorem chunk_size_bound
    (PATTERNS : string -> list Pattern) (countTokens : string -> N)
    (text fp rp lang : string) :
  Forall (fun c => lineCount c <= 200 \/ isPreamble c)
         (chunk PATTERNS countTokens text fp rp lang).
Proof.
  eapply List.Forall_impl; [|apply chunk_faithful]. unfold faithful. intros c H.
  unfold maxLines, MAX_CHUNK_LINES in H. tauto.
Qed.

(** X19.  The lines before the first definition, when there are at least ten
    of them, are returned as one chunk, whatever their number: a preamble
    is never split. *)
Theorem chunk_preamble_unsplit
    (PATTERNS : string -> list Pattern) (countTokens : string -> N)
    (text fp rp lang : string) (b0 : Boundary) (rest : list Boundary) :
  findBoundaries (splitLines text) (PATTERNS lang) = b0 :: rest ->
  minLines <= line b0 ->
  exists c later,
    chunk PATTERNS countTokens text fp rp lang = c :: later /\
    isPreamble c /\ endLine c = line b0 /\ lineCount c = line b0.
Proof.
  intros Hbs Hmin. unfold chunk.
  destruct (length (PATTERNS lang) =? 0) eqn:Hp.
  { apply Nat.eqb_eq in Hp. destruct (PATTERNS lang); [|discriminate Hp].
    unfold findBoundaries in Hbs. rewrite findBoundariesFrom_nil in Hbs. discriminate Hbs. }
  pose proof (ChunkerFacts.findBoundariesFrom_increasing 0 (splitLines text) (PATTERNS lang))
    as Hinc.
  fold (findBoundaries (splitLines text) (PATTERNS lang)) in Hinc.
  rewrite Hbs in *. cbn [length Nat.eqb]. simpl in Hinc. destruct Hinc as (_ & Hb0 & _).
  unfold minLines, MIN_CHUNK_LINES in *.
  destruct (Nat.ltb_spec 0 (line b0)); [|lia].
  rewrite ChunkerFacts.length_sliceLines.
  destruct (Nat.leb_spec 10 (Nat.min (line b0 - 0) (length (splitLines text) - 0))); [|lia].
  eexists _, _. split; [reflexivity|]. unfold isPreamble, lineCount.
  cbn [filePath relativePath language tokens id content startLine endLine name type].
  repeat split; lia.
Qed.

(** X20.  Without a boundary (no pattern for the language, or no line matching
    one) the chunks cut the file into consecutive ranges of at most 200
    lines that leave no line out. *)
Theorem chunk_by_size_covers_file
    (PATTERNS : string -> list Pattern) (countTokens : string -> N)
    (text fp rp lang : string) :
  findBoundaries (splitLines text) (PATTERNS lang) = [] ->
  tiles 1 (length (splitLines text)) (chunk PATTERNS countTokens text fp rp lang) /\
  Forall (fun c => lineCount c <= 200) (chunk PATTERNS countTokens text fp rp lang).
Proof.
  intros Hbs. unfold chunk. rewrite Hbs. cbn [length Nat.eqb].
  assert (H : tiles 1 (length (splitLines text))
                (chunkBySize countTokens text fp rp lang) /\
              Forall (fun c => lineCount c <= 200)
                (chunkBySize countTokens text fp rp lang)).
  { split; [apply chunkBySize_tiles|apply chunkBySize_bounded]. }
  now destruct (length (PATTERNS lang) =? 0).
Qed.

(** X21.  A file of fewer than ten lines in which two or more lines start a
    definition yields no chunk at all. *)
Theorem chunk_short_file_dropped
    (PATTERNS : string -> list Pattern) (countTokens : string -> N)
    (text fp rp lang : string) :
  length (splitLines text) < 10 ->
  2 <= length (findBoundaries (splitLines text) (PATTERNS lang)) ->
  chunk PATTERNS countTokens text fp rp lang = [].
Proof.
  intros Hs Hb. unfold chunk.
  destruct (length (PATTERNS lang) =? 0) eqn:Hp.
  { apply Nat.eqb_eq in Hp. destruct (PATTERNS lang); [|discriminate Hp].
    unfold findBoundaries in Hb. rewrite findBoundariesFrom_nil in Hb. simpl in Hb. lia. }
  destruct (Nat.eqb_spec (length (findBoundaries (splitLines text) (PATTERNS lang))) 0);
    [lia|].
  rewrite boundaryLoop_short by (unfold minLines, MIN_CHUNK_LINES; lia).
  destruct (findBoundaries _ _) as [|b0 rest]; [reflexivity|].
  destruct (0 <? line b0); [|reflexivity].
  rewrite ChunkerFacts.length_sliceLines.
  destruct (Nat.leb_spec minLines (Nat.min (line b0 - 0) (length (splitLines text) - 0)));
    [unfold minLines, MIN_CHUNK_LINES in *; lia|reflexivity].
Qed.

End CoverageFacts.

Module StoreFacts.
Import Cache Stored.

Lemma insertChunks_rows p cs : forall rows next,
  fst (insertChunks rows next p cs) =
  rows ++ fst (insertChunks [] next p cs).
Proof.
  induction cs as [|c cs IH]; intros rows next; cbn [insertChunks].
  - now rewrite app_nil_r.
  - rewrite (IH (rows ++ _)), (IH ([] ++ _)). now rewrite <- app_assoc.
Qed.

Lemma insertChunks_own p cs : forall next,
  Forall (fun r => file_path r = p) (fst (insertChunks [] next p cs)) /\
  map rowView (fst (insertChunks [] next p cs)) = map chunkView cs.
Proof.
  induction cs as [|c cs IH]; intros next; cbn [insertChunks].
  - split; [constructor|reflexivity].
  - rewrite insertChunks_rows. destruct (IH (S next)) as [H1 H2]. split.
    + constructor; [reflexivity|exact H1].
    + cbn [app map]. now rewrite H2.
Qed.

Lemma filter_all {A} (f : A -> bool) l :
  Forall (fun x => f x = true) l -> List.filter f l = l.
Proof. induction 1 as [|x l Hx _ IH]; simpl; [reflexivity|]. now rewrite Hx, IH. Qed.

Lemma filter_nothing {A} (f : A -> bool) l :
  Forall (fun x => f x = false) l -> List.filter f l = [].
Proof. induction 1 as [|x l Hx _ IH]; simpl; [reflexivity|]. now rewrite Hx, IH. Qed.

Lemma getChunks_setChunks_same db p cs :
  map rowView (getChunks (setChunks db p cs) p) = map chunkView cs.
Proof.
  unfold getChunks, setChunks.
  destruct (insertChunks _ (next_id db) p cs) as [rows next] eqn:E. cbn [chunks].
  assert (Hrows : rows = fst (insertChunks
             (List.filter (fun r => negb (String.eqb (file_path r) p)) (chunks db))
             (next_id db) p cs)) by now rewrite E.
  rewrite insertChunks_rows in Hrows. subst rows.
  destruct (insertChunks_own p cs (next_id db)) as [Hown Hview].
  rewrite List.filter_app. rewrite filter_nothing, filter_all; [exact Hview| |].
  - eapply List.Forall_impl; [|exact Hown]. intros r <-. apply String.eqb_refl.
  - apply List.Forall_forall. intros r Hr. apply filter_In in Hr. destruct Hr as [_ Hr].
    now apply negb_true_iff in Hr.
Qed.

Lemma getChunks_setChunks_other db p q cs :
  q <> p -> getChunks (setChunks db p cs) q = getChunks db q.
Proof.
  intros Hne. unfold getChunks, setChunks.
  destruct (insertChunks _ (next_id db) p cs) as [rows next] eqn:E. cbn [chunks].
  assert (Hrows : rows = fst (insertChunks
             (List.filter (fun r => negb (String.eqb (file_path r) p)) (chunks db))
             (next_id db) p cs)) by now rewrite E.
  rewrite insertChunks_rows in Hrows. subst rows.
  destruct (insertChunks_own p cs (next_id db)) as [Hown _].
  clear E. rewrite List.filter_app, (filter_nothing _ (fst _)), app_nil_r.
  - induction (chunks db) as [|r l IH]; [reflexivity|]. cbn [List.filter].
    destruct (String.eqb_spec (file_path r) p) as [Hp|Hp]; cbn [negb List.filter].
    + destruct (String.eqb_spec (file_path r) q) as [Hq|Hq]; [congruence|exact IH].
    + destruct (String.eqb (file_path r) q); [now rewrite IH|exact IH].
  - eapply List.Forall_impl; [|exact Hown]. intros r <-.
    now apply String.eqb_neq.
Qed.

Lemma files_setChunks db p cs : files (setChunks db p cs) = files db.
Proof. unfold setChunks. now destruct (insertChunks _ _ _ _). Qed.

Lemma hasCachedChunks_fresh db now p m :
  fst (hasCachedChunks db now p m) =
  match files db !! p with
  | Some r => (m <=? f_mtime r) && (0 <? length (getChunks db p))%nat
  | None => false
  end.
Proof.
  unfold hasCachedChunks, getFile. destruct (files db !! p) as [r|]; [|reflexivity].
  destruct (m <=? f_mtime r); reflexivity.
Qed.

(** X22.  What is written for a file is what is read back for it: after
    [setFile] and [setChunks], [getChunks] returns one row per chunk, in
    order, with the chunk's content, lines, type and name; the file counts
    as cached exactly for modification times up to the recorded one,
    provided it has a chunk; and the rows of other files are untouched. *)
Theorem cache_round_trip (db : DB) (now : Z) (p text : string) (m : Z)
    (lang : string) (cs : list Chunk) :
  let db' := setChunks (setFile db now p text m lang) p cs in
  map rowView (getChunks db' p) = map chunkView cs /\
  (forall now' m', fst (hasCachedChunks db' now' p m') = (m' <=? m) && (0 <? length cs)%nat) /\
  (forall q, q <> p -> getChunks db' q = getChunks db q).
Proof.
  intros db'. subst db'. split; [apply getChunks_setChunks_same|]. split.
  - intros now' m'. rewrite hasCachedChunks_fresh, files_setChunks.
    unfold setFile. cbn [files]. rewrite lookup_insert_eq. cbn [f_mtime].
    f_equal. rewrite <- (length_map rowView), getChunks_setChunks_same. now rewrite length_map.
  - intros q Hq. now rewrite getChunks_setChunks_other.
Qed.

End StoreFacts.

Module TokenCacheStability.
Import TokenCache.

Section WithTokenizer.
Variable countTokens : string -> N.

Lemma count_keeps cache text k v :
  cache !! k = Some v -> snd (count countTokens cache text) !! k = Some v.
Proof.
  intros H. unfold count. destruct (cache !! hash text) eqn:E; [exact H|]. cbn [snd].
  rewrite lookup_insert_ne; [exact H|]. intros <-. congruence.
Qed.

Lemma countAll_keeps history : forall cache k v,
  cache !! k = Some v -> countAll countTokens cache history !! k = Some v.
Proof.
  induction history as [|t history IH]; intros cache k v H; [exact H|].
  unfold countAll. cbn [fold_left]. apply IH. now apply count_keeps.
Qed.

Lemma count_records cache text :
  snd (count countTokens cache text) !! hash text = Some (fst (count countTokens cache text)).
Proof.
  unfold count. destruct (cache !! hash text) eqn:E; [exact E|]. cbn [fst snd].
  apply lookup_insert_eq.
Qed.

End WithTokenizer.

(** X23.  The token cache never overwrites an entry, so within one build a
    text is given the same count every time it is counted, whatever is
    counted in between. *)
Theorem count_stable (countTokens : string -> N) (cache : gmap string N)
    (text : string) (history : list string) :
  (forall k v, cache !! k = Some v ->
               countAll countTokens cache history !! k = Some v) /\
  fst (count countTokens
         (countAll countTokens (snd (count countTokens cache text)) history) text)
  = fst (count countTokens cache text).
Proof.
  split; [intros k v; apply countAll_keeps|].
  pose proof (countAll_keeps countTokens history _ _ _ (count_records countTokens cache text))
    as H.
  unfold count at 1. now rewrite H.
Qed.

End TokenCacheStability.

Module WarmFacts.
Import Cache Build Stored Warm Coverage.

Section Run.
Variable PATTERNS : string -> list Chunker.Pattern.
Variable countTokens : string -> N.

Lemma chunkFilesParallel_chunksOf files :
  Chunker.chunkFilesParallel PATTERNS countTokens files =
  flat_map (chunksOf PATTERNS countTokens) files.
Proof. reflexivity. Qed.

Lemma chunkOf_paths f :
  Forall (fun c => filePath c = path f /\ relativePath c = sf_relativePath f /\
                   language c = sf_language f) (chunksOf PATTERNS countTokens f).
Proof.
  eapply List.Forall_impl; [|apply CoverageFacts.chunk_faithful].
  unfold faithful. intros c H. tauto.
Qed.

Lemma filter_own f :
  List.filter (fun c => String.eqb (filePath c) (path f)) (chunksOf PATTERNS countTokens f) = chunksOf PATTERNS countTokens f.
Proof.
  apply StoreFacts.filter_all. eapply List.Forall_impl; [|apply chunkOf_paths].
  intros c (-> & _). apply String.eqb_refl.
Qed.

Lemma filter_foreign f g :
  path g <> path f ->
  List.filter (fun c => String.eqb (filePath c) (path f)) (chunksOf PATTERNS countTokens g) = [].
Proof.
  intros Hne. apply StoreFacts.filter_nothing.
  eapply List.Forall_impl; [|apply chunkOf_paths].
  intros c (-> & _). now apply String.eqb_neq.
Qed.

Lemma filter_chunks_of files f :
  NoDup (map path files) -> In f files ->
  List.filter (fun c => String.eqb (filePath c) (path f))
              (Chunker.chunkFilesParallel PATTERNS countTokens files) = chunksOf PATTERNS countTokens f.
Proof.
  rewrite chunkFilesParallel_chunksOf.
  induction files as [|g rest IH]; intros Hnd Hin; [contradiction|].
  apply NoDup_cons in Hnd. destruct Hnd as [Hg Hnd].
  cbn [flat_map]. rewrite List.filter_app.
  assert (Hrest : forall h, In h rest -> path h <> path g).
  { intros h Hh Heq. apply Hg. rewrite <- Heq. apply list_elem_of_In. now apply in_map. }
  destruct Hin as [->|Hin].
  - rewrite filter_own.
    assert (Hnone : List.filter (fun c => String.eqb (filePath c) (path f))
                      (flat_map (chunksOf PATTERNS countTokens) rest) = []).
    { clear IH Hnd Hg. induction rest as [|h rest IH]; [reflexivity|].
      cbn [flat_map]. rewrite List.filter_app, filter_foreign, IH; [reflexivity| |].
      - intros h' Hh'. apply Hrest. now right.
      - apply Hrest. now left. }
    now rewrite Hnone, app_nil_r.
  - rewrite filter_foreign; [now apply IH|]. intros Heq. apply (Hrest f Hin). now symmetry.
Qed.

(** ** The cold run *)

Lemma hasCachedChunks_nofile db now p m :
  files db !! p = None -> hasCachedChunks db now p m = (false, db).
Proof. intros H. unfold hasCachedChunks, getFile. now rewrite H. Qed.

Lemma partitionFiles_cold now fs :
  partitionFiles Cache.empty now fs = ([], fs, Cache.empty).
Proof.
  induction fs as [|f fs IH]; [reflexivity|]. cbn [partitionFiles].
  rewrite hasCachedChunks_nofile by apply lookup_empty. now rewrite IH.
Qed.

Lemma getChunks_setFile db now p text m lang q :
  getChunks (setFile db now p text m lang) q = getChunks db q.
Proof. reflexivity. Qed.

(** The cache after the write-back of the files [fs]. *)
Lemma cacheChunks_spec newChunks now fs : forall db,
  NoDup (map path fs) ->
  (forall f, In f fs ->
     List.filter (fun c => String.eqb (filePath c) (path f)) newChunks = chunksOf PATTERNS countTokens f) ->
  let db' := cacheChunks db now fs newChunks in
  (forall f, In f fs -> chunksOf PATTERNS countTokens f <> [] ->
     f_mtime <$> (files db' !! path f) = Some (mtime f) /\
     map rowView (getChunks db' (path f)) = map chunkView (chunksOf PATTERNS countTokens f)) /\
  (forall p, (forall f, In f fs -> chunksOf PATTERNS countTokens f <> [] -> path f <> p) ->
     files db' !! p = files db !! p /\ getChunks db' p = getChunks db p).
Proof.
  induction fs as [|f fs IH]; intros db Hnd Hown; cbn [cacheChunks].
  - split; [intros f []|]. intros p _. now split.
  - apply NoDup_cons in Hnd. destruct Hnd as [Hf Hnd].
    assert (Hrest : forall h, In h fs -> path h <> path f).
    { intros h Hh Heq. apply Hf. rewrite <- Heq. apply list_elem_of_In. now apply in_map. }
    rewrite (Hown f (or_introl eq_refl)).
    set (db1 := match chunksOf PATTERNS countTokens f with
                | [] => db
                | _ => setChunks (setFile db now (path f) (sf_content f) (mtime f)
                                          (sf_language f)) (path f) (chunksOf PATTERNS countTokens f)
                end).
    match goal with |- context [cacheChunks ?d now fs newChunks] =>
      change d with db1 end.
    destruct (IH db1 Hnd (fun h Hh => Hown h (or_intror Hh))) as [Ha Hb].
    split.
    + intros g [<-|Hg] Hne.
      * destruct (Hb (path f)) as [H1 H2]; [intros h Hh _; now apply Hrest|].
        rewrite H1, H2. subst db1. destruct (chunksOf PATTERNS countTokens f) as [|c0 cs0] eqn:E; [congruence|].
        rewrite StoreFacts.files_setChunks, StoreFacts.getChunks_setChunks_same.
        unfold setFile. cbn [files]. now rewrite lookup_insert_eq.
      * now apply Ha.
    + intros p Hp.
      destruct (Hb p) as [H1 H2]; [intros h Hh; apply Hp; now right|].
      rewrite H1, H2. subst db1. destruct (chunksOf PATTERNS countTokens f) as [|c0 cs0] eqn:E; [now split|].
      assert (Hne : path f <> p) by (apply Hp; [now left|rewrite E; discriminate]).
      rewrite StoreFacts.files_setChunks, StoreFacts.getChunks_setChunks_other by congruence.
      unfold setFile. cbn [files]. rewrite lookup_insert_ne by exact Hne.
      now split.
Qed.

(** ** The warm run *)

Lemma sameData_refl db : sameData db db.
Proof. now split. Qed.

Lemma hasCachedChunks_sameData db0 db now p m :
  sameData db0 db ->
  fst (hasCachedChunks db now p m) = fst (hasCachedChunks db0 now p m) /\
  sameData db0 (snd (hasCachedChunks db now p m)).
Proof.
  intros [Hc Hm]. split.
  - rewrite !StoreFacts.hasCachedChunks_fresh. unfold getChunks. rewrite Hc.
    specialize (Hm p). destruct (files db0 !! p), (files db !! p); simpl in Hm;
      try discriminate; [|reflexivity]. injection Hm as Hm. now rewrite Hm.
  - unfold hasCachedChunks, getFile.
    destruct (files db !! p) as [r|] eqn:E; [|now split].
    destruct (m <=? f_mtime r); [|now split]. split; [exact Hc|].
    intros q. cbn [files snd]. destruct (decide (p = q)) as [<-|Hne].
    + rewrite lookup_insert_eq. rewrite Hm, E. reflexivity.
    + rewrite lookup_insert_ne by exact Hne. apply Hm.
Qed.

Lemma partitionFiles_warm db0 now fs : forall db,
  sameData db0 db ->
  let hit f := fst (hasCachedChunks db0 now (path f) (mtime f)) in
  fst (fst (partitionFiles db now fs)) = List.filter hit fs /\
  snd (fst (partitionFiles db now fs)) = List.filter (fun f => negb (hit f)) fs /\
  sameData db0 (snd (partitionFiles db now fs)).
Proof.
  induction fs as [|f fs IH]; intros db Hs hit; cbn [partitionFiles].
  - repeat split; apply Hs.
  - destruct (hasCachedChunks_sameData db0 db now (path f) (mtime f) Hs) as [H1 H2].
    destruct (hasCachedChunks db now (path f) (mtime f)) as [h db1]. cbn [fst snd] in H1, H2.
    destruct (IH db1 H2) as (A & B & C).
    destruct (partitionFiles db1 now fs) as [[c u] db2]. cbn [fst snd] in *.
    subst hit. cbn [List.filter]. rewrite <- H1.
    destruct C as [C1 C2].
    destruct h; cbn [negb fst snd]; repeat split; try assumption; now f_equal.
Qed.

Lemma orNull_idem n : orNull (orNull n) = orNull n.
Proof. destruct n as [[|]|]; reflexivity. Qed.

Lemma loadRows_shown f rows : forall tc,
  map shown (fst (loadRows countTokens f rows tc)) =
  map (fun v : string * nat * nat * ChunkType * option string =>
         let '(text, s, e, t, n) := v in
         (path f, sf_relativePath f, text, s, e, t, orNull n, sf_language f))
      (map rowView rows).
Proof.
  induction rows as [|r rows IH]; intros tc; cbn [loadRows]; [reflexivity|].
  destruct (TokenCache.count countTokens tc (r_content r)) as [n tc1].
  specialize (IH tc1). destruct (loadRows countTokens f rows tc1) as [cs tc2].
  cbn [fst map] in *. rewrite IH. f_equal.
  unfold shown, fromRow, rowView. cbn. now rewrite orNull_idem.
Qed.

Lemma chunkOf_shown f :
  map (fun v : string * nat * nat * ChunkType * option string =>
         let '(text, s, e, t, n) := v in
         (path f, sf_relativePath f, text, s, e, t, orNull n, sf_language f))
      (map chunkView (chunksOf PATTERNS countTokens f)) = map shown (chunksOf PATTERNS countTokens f).
Proof.
  rewrite map_map. apply map_ext_Forall.
  eapply List.Forall_impl; [|apply chunkOf_paths].
  intros c (H1 & H2 & H3). unfold chunkView, shown. rewrite H1, H2, H3.
  now rewrite orNull_idem.
Qed.

Lemma loadCached_shown db fs : forall tc,
  (forall f, In f fs -> map rowView (getChunks db (path f)) = map chunkView (chunksOf PATTERNS countTokens f)) ->
  map shown (fst (loadCached countTokens db fs tc)) =
  flat_map (fun f => map shown (chunksOf PATTERNS countTokens f)) fs.
Proof.
  induction fs as [|f fs IH]; intros tc H; cbn [loadCached]; [reflexivity|].
  pose proof (loadRows_shown f (getChunks db (path f)) tc) as Hr.
  destruct (loadRows countTokens f (getChunks db (path f)) tc) as [cs tc1].
  specialize (IH tc1 (fun g Hg => H g (or_intror Hg))).
  destruct (loadCached countTokens db fs tc1) as [cs' tc2]. cbn [fst flat_map] in *.
  rewrite map_app, IH, Hr, (H f (or_introl eq_refl)). now rewrite chunkOf_shown.
Qed.

Lemma flat_map_skip_empty {B} (g : SourceFile -> list B) (keep : SourceFile -> bool) fs :
  (forall f, In f fs -> keep f = false -> g f = []) ->
  flat_map g (List.filter keep fs) = flat_map g fs.
Proof.
  induction fs as [|f fs IH]; intros H; [reflexivity|]. cbn [List.filter flat_map].
  destruct (keep f) eqn:E; cbn [flat_map].
  - rewrite IH; [reflexivity|]. intros h Hh. apply H. now right.
  - rewrite (H f (or_introl eq_refl) E), IH; [reflexivity|]. intros h Hh. apply H. now right.
Qed.

Lemma flat_map_all_empty {B} (g : SourceFile -> list B) fs :
  (forall f, In f fs -> g f = []) -> flat_map g fs = [].
Proof.
  induction fs as [|f fs IH]; intros H; [reflexivity|]. cbn [flat_map].
  rewrite (H f (or_introl eq_refl)), IH; [reflexivity|]. intros h Hh. apply H. now right.
Qed.

Lemma warm_run files now1 now2 tc :
  NoDup (map path files) ->
  let cold := chunkingStep PATTERNS countTokens (mkState Cache.empty tc) now1 files in
  let warm := chunkingStep PATTERNS countTokens (snd cold) now2 files in
  map shown (fst warm) = map shown (fst cold).
Proof.
  intros Hnd cold warm. subst warm cold. unfold chunkingStep at 2 3.
  cbn [cache tokenCache]. rewrite partitionFiles_cold. cbn [loadCached fst snd app].
  set (newChunks := Chunker.chunkFilesParallel PATTERNS countTokens files).
  set (db1 := cacheChunks Cache.empty now1 files newChunks).
  destruct (cacheChunks_spec newChunks now1 files Cache.empty Hnd
              (fun f Hf => filter_chunks_of files f Hnd Hf)) as [Ha Hb].
  fold db1 in Ha, Hb.
  unfold chunkingStep. cbn [cache tokenCache].
  pose proof (partitionFiles_warm db1 now2 files db1 (sameData_refl db1)) as (Hc & Hu & Hs).
  destruct (partitionFiles db1 now2 files) as [[cached uncached] db2]. cbn [fst snd] in Hc, Hu, Hs.
  set (hit := fun f => fst (hasCachedChunks db1 now2 (path f) (mtime f))) in *.
  assert (Hhit : forall f, In f files -> hit f = negb (Nat.eqb (length (chunksOf PATTERNS countTokens f)) 0)).
  { intros f Hf. unfold hit. rewrite StoreFacts.hasCachedChunks_fresh.
    destruct (chunksOf PATTERNS countTokens f) as [|c0 cs0] eqn:E.
    - destruct (Hb (path f)) as [H1 _].
      + intros g Hg Hne Heq. apply Hne.
        assert (g = f) as ->; [|exact E].
        clear -Hnd Hg Hf Heq. induction files as [|h fs IH]; [contradiction|].
        cbn [map] in Hnd. apply NoDup_cons in Hnd. destruct Hnd as [Hh Hnd].
        destruct Hg as [->|Hg], Hf as [->|Hf]; auto.
        * exfalso. apply Hh. rewrite Heq. apply list_elem_of_In. now apply in_map.
        * exfalso. apply Hh. rewrite <- Heq. apply list_elem_of_In. now apply in_map.
      + rewrite H1. unfold Cache.empty. cbn [Cache.files]. now rewrite lookup_empty.
    - destruct (Ha f Hf) as [H1 H2]; [rewrite E; discriminate|].
      destruct (Cache.files db1 !! path f) as [r|]; [|discriminate H1].
      cbn in H1. injection H1 as ->. rewrite Z.leb_refl. cbn [andb].
      rewrite <- (length_map rowView), H2, E. reflexivity. }
  pose proof (loadCached_shown db2 cached tc) as Hl.
  destruct (loadCached countTokens db2 cached tc) as [fromCache tc1]. cbn [fst] in *.
  rewrite map_app. rewrite Hl.
  - assert (Hnew : Chunker.chunkFilesParallel PATTERNS countTokens uncached = []).
    { rewrite chunkFilesParallel_chunksOf. apply flat_map_all_empty. intros f Hf.
      rewrite Hu in Hf. apply filter_In in Hf. destruct Hf as [Hf Hn].
      change (negb (hit f) = true) in Hn. rewrite (Hhit f Hf) in Hn. apply negb_true_iff, negb_false_iff, Nat.eqb_eq in Hn.
      now destruct (chunksOf PATTERNS countTokens f). }
    rewrite Hnew, app_nil_r, Hc.
    rewrite flat_map_skip_empty.
    + unfold newChunks. rewrite chunkFilesParallel_chunksOf. clear.
      induction files as [|f fs IH]; [reflexivity|]. cbn [flat_map]. now rewrite map_app, IH.
    + intros f Hf Hn. change (hit f = false) in Hn. rewrite (Hhit f Hf) in Hn. apply negb_false_iff, Nat.eqb_eq in Hn.
      now destruct (chunksOf PATTERNS countTokens f).
  - intros f Hf. rewrite Hc in Hf. apply filter_In in Hf. destruct Hf as [Hf Hh].
    change (hit f = true) in Hh. rewrite (Hhit f Hf) in Hh. apply negb_true_iff, Nat.eqb_neq in Hh.
    destruct Hs as [Hch _]. unfold getChunks. rewrite <- Hch.
    apply (Ha f Hf). intros E. rewrite E in Hh. now apply Hh.
Qed.

End Run.

(** X24.  A second run over unchanged files shows the chunks of the first: on
    a cache that was empty before the first run, chunking the same files
    again returns, in the same order, chunks with the same paths, content,
    lines, type, name and language as the first run did (identifiers and
    token counts apart). *)
Theorem warm_run_shows_same_chunks
    (PATTERNS : string -> list Chunker.Pattern) (countTokens : string -> N)
    (files : list SourceFile) (now1 now2 : Z) (tc : gmap string N) :
  NoDup (map path files) ->
  let cold := chunkingStep PATTERNS countTokens (mkState Cache.empty tc) now1 files in
  let warm := chunkingStep PATTERNS countTokens (snd cold) now2 files in
  map shown (fst warm) = map shown (fst cold).
Proof. apply warm_run. Qed.

End WarmFacts.

Module RetryFacts.
Import Retry.
Local Open Scope Q_scope.

Section Facts.
Context {T E : Type}.
Variable fn : nat -> E + T.
Variable retries : Z.
Variable delay backoff : Q.

Lemma pauses_snoc k :
  pauses delay backoff (S k) = pauses delay backoff k ++ [delay * backoff ^ Z.of_nat k].
Proof. unfold pauses. now rewrite seq_S, map_app. Qed.

(** All the attempts from [i] on fail. *)
Lemma attempts_fail n : forall i last e,
  (0 < n)%nat -> (Z.of_nat (i + n) = retries + 1)%Z ->
  (forall j, (i <= j < i + n)%nat -> exists err, fn j = inl err) ->
  fn (i + n - 1)%nat = inl e ->
  attempts fn retries delay backoff n i last (pauses delay backoff i) =
  (inl (Some e), pauses delay backoff (i + n - 1)).
Proof.
  induction n as [|n IH]; intros i last e Hn Hr Hall He; [lia|].
  cbn [attempts]. destruct (Hall i) as [err Hi]; [lia|]. rewrite Hi.
  destruct n as [|n].
  - replace (i + 1 - 1)%nat with i in * by lia.
    destruct (Z.ltb_spec (Z.of_nat i) retries); [lia|].
    cbn [attempts]. congruence.
  - destruct (Z.ltb_spec (Z.of_nat i) retries); [|lia].
    rewrite <- pauses_snoc.
    replace (i + S (S n) - 1)%nat with (S i + S n - 1)%nat by lia.
    apply IH; try lia.
    + intros j Hj. apply Hall. lia.
    + now replace (S i + S n - 1)%nat with (i + S (S n) - 1)%nat by lia.
Qed.

(** The first success is at attempt [k]. *)
Lemma attempts_succeed n : forall i last k v,
  (i <= k < i + n)%nat -> (Z.of_nat (i + n) = retries + 1)%Z ->
  (forall j, (i <= j < k)%nat -> exists err, fn j = inl err) ->
  fn k = inr v ->
  attempts fn retries delay backoff n i last (pauses delay backoff i) =
  (inr v, pauses delay backoff k).
Proof.
  induction n as [|n IH]; intros i last k v Hk Hr Hall Hv; [lia|].
  cbn [attempts]. destruct (Nat.eq_dec i k) as [->|Hne].
  - now rewrite Hv.
  - destruct (Hall i) as [err Hi]; [lia|]. rewrite Hi.
    destruct (Z.ltb_spec (Z.of_nat i) retries); [|lia].
    rewrite <- pauses_snoc. apply IH; try lia; [|exact Hv].
    intros j Hj. apply Hall. lia.
Qed.

End Facts.

(** X25.  [retry] returns the value of the first call that succeeds among the
    first [retries + 1], having slept [delay * backoff ^ i] after each
    failed call [i] before it; when all of them fail it throws the error
    of the last call, without sleeping after it. *)
Theorem retry_first_success {T E : Type} (fn : nat -> E + T) (retries : Z)
    (delay backoff : Q) (k : nat) :
  (Z.of_nat k <= retries)%Z ->
  (forall j, (j < k)%nat -> exists err, fn j = inl err) ->
  match fn k with
  | inr v => retry fn retries delay backoff = (inr v, pauses delay backoff k)
  | inl e =>
      Z.of_nat k = retries ->
      retry fn retries delay backoff = (inl (Some e), pauses delay backoff k)
  end.
Proof.
  intros Hk Hall. unfold retry. destruct (fn k) as [e|v] eqn:Hf.
  - intros Hlast.
    pose proof (attempts_fail fn retries delay backoff (S k) 0 None e) as H.
    cbn [Nat.add] in H. replace (S k - 1)%nat with k in H by lia.
    replace (Z.to_nat (retries + 1)) with (S k) by lia.
    apply H; try lia; [|exact Hf].
    intros j Hj. destruct (Nat.eq_dec j k) as [->|Hne]; [eauto|]. apply Hall. lia.
  - pose proof (attempts_succeed fn retries delay backoff (Z.to_nat (retries + 1)) 0 None k v)
      as H.
    apply H; try lia; [|exact Hf]. intros j Hj. apply Hall. lia.
Qed.

End RetryFacts.

Module HybridFacts.
Import Utils Embedding.
Local Open Scope Q_scope.

Lemma cosine_none_iff Math_sqrt a b :
  cosineSimilarity Math_sqrt a b = None <-> length a <> length b.
Proof.
  unfold cosineSimilarity. destruct (Nat.eqb_spec (length a) (length b)) as [He|Hne]; simpl.
  - destruct (fold_left _ _ _) as [[d na] nb]. split; [discriminate|contradiction].
  - split; [auto|reflexivity].
Qed.

Lemma scoreAll_none_iff Math_sqrt oracles q chunks :
  scoreAll Math_sqrt oracles q chunks = None <->
  Exists (fun c => length q <> length (embed oracles (enrichWithContext c))) chunks.
Proof.
  induction chunks as [|c rest IH]; cbn [scoreAll].
  - split; [discriminate|]. intros H. inversion H.
  - destruct (cosineSimilarity Math_sqrt q (embed oracles (enrichWithContext c))) as [sim|] eqn:E.
    + assert (Hlen : ~ length q <> length (embed oracles (enrichWithContext c))).
      { intros H. apply cosine_none_iff with (Math_sqrt := Math_sqrt) in H. congruence. }
      destruct (scoreAll Math_sqrt oracles q rest) as [l|].
      * split; [discriminate|]. intros H. apply Exists_cons in H.
        destruct H as [H|H]; [contradiction|]. apply IH in H. discriminate.
      * split; [|reflexivity]. intros _. apply Exists_cons. right. now apply IH.
    + split; [|reflexivity]. intros _. apply Exists_cons. left. now apply cosine_none_iff in E.
Qed.

Lemma scoreAll_chunks Math_sqrt oracles q chunks l :
  scoreAll Math_sqrt oracles q chunks = Some l -> map chunk l = chunks.
Proof.
  revert l. induction chunks as [|c rest IH]; intros l; cbn [scoreAll].
  - now intros [= <-].
  - destruct (cosineSimilarity _ _ _); [|discriminate].
    destruct (scoreAll Math_sqrt oracles q rest) as [l'|]; [|discriminate].
    intros [= <-]. cbn [map chunk]. now rewrite (IH l').
Qed.

Lemma mapIndexed_chunks (g : Chunk -> nat -> Q) chunks : forall i,
  map chunk (Hybrid.mapIndexed (fun c i => mkScored c (g c i)) i chunks) = chunks.
Proof.
  induction chunks as [|c rest IH]; intros i; cbn [Hybrid.mapIndexed map]; [reflexivity|].
  now rewrite IH.
Qed.

(** X26.  Provided the query embedding is obtained, the full (non-fast) ranking
    throws exactly when the embedding of some chunk has another length
    than the embedding of the hypothetical document. *)
Theorem hybrid_rank_throws_iff_dimension_mismatch
    (Math_log Math_sqrt : Q -> Q) (importanceScores : gmap string Q) (oracles : Oracles)
    (chunks : list Chunk) (query : string) :
  Hybrid.rank Math_log Math_sqrt importanceScores oracles false chunks query = None <->
  Exists (fun c => length (embed oracles (generateHyDE oracles query)) <>
                   length (embed oracles (enrichWithContext c))) chunks.
Proof.
  unfold Hybrid.rank, Embedding.rank. rewrite <- (scoreAll_none_iff Math_sqrt).
  destruct (scoreAll Math_sqrt oracles _ chunks); cbn beta iota; split; congruence.
Qed.

(** X27.  In either mode, a ranking that is returned holds every input chunk
    exactly once, in descending order of score. *)
Theorem hybrid_rank_permutes_sorted
    (Math_log Math_sqrt : Q -> Q) (importanceScores : gmap string Q) (oracles : Oracles)
    (fast : bool) (chunks : list Chunk) (query : string) :
  match Hybrid.rank Math_log Math_sqrt importanceScores oracles fast chunks query with
  | Some out =>
      Permutation (map chunk out) chunks /\
      StronglySorted (fun a b : ScoredChunk => score b <= score a) out
  | None => True
  end.
Proof.
  unfold Hybrid.rank. destruct fast.
  - rewrite RankFacts.rank_as_sort. split.
    + rewrite (JSArrayFacts.sortBy_perm _ _). rewrite map_map. cbn [chunk]. now rewrite map_id.
    + apply JSArrayFacts.sortBy_desc_sorted.
  - destruct (Embedding.rank _ _ _ _) as [embeddingScored|]; [|exact I]. split.
    + rewrite (JSArrayFacts.sortBy_perm _ _). now rewrite mapIndexed_chunks.
    + apply (JSArrayFacts.sortBy_desc_sorted score).
Qed.

End HybridFacts.

Module CentralityFacts.
Import Dependency.
Local Open Scope Q_scope.

Lemma importerScore_pos scores importer :
  positive scores -> 0 < importerScore scores importer.
Proof.
  intros H. unfold importerScore. destruct (scores !! importer) as [s|] eqn:E; [|reflexivity].
  destruct (Qeq_bool s 0); [reflexivity|]. exact (H _ _ E).
Qed.

Lemma importerOutDegree_pos graph importer : 0 < importerOutDegree graph importer.
Proof.
  unfold importerOutDegree. destruct (imports graph !! importer) as [l|]; [|reflexivity].
  destruct (Nat.eqb_spec (length l) 0); [reflexivity|].
  change 0 with (inject_Z 0). rewrite <- Zlt_Qlt. lia.
Qed.

Lemma newScore_pos graph scores path :
  positive scores -> 0 < newScore graph scores path.
Proof.
  intros H. unfold newScore.
  assert (Hfold : forall l acc, 0 < acc ->
            0 < fold_left (fun score importer =>
                             score + (dampingFactor * importerScore scores importer)
                                     / importerOutDegree graph importer) l acc).
  { induction l as [|i l IH]; intros acc Hacc; simpl; [exact Hacc|]. apply IH.
    pose proof (importerScore_pos scores i H) as Hs.
    pose proof (importerOutDegree_pos graph i) as Hd.
    assert (0 <= (dampingFactor * importerScore scores i) / importerOutDegree graph i).
    { apply Qle_shift_div_l; [exact Hd|]. unfold dampingFactor. nra. }
    lra. }
  apply Hfold. reflexivity.
Qed.

Lemma iteration_lookup graph scores p :
  iteration graph scores !! p = (fun _ => newScore graph scores p) <$> (scores !! p).
Proof. unfold iteration. rewrite map_lookup_imap. now destruct (scores !! p). Qed.

Lemma iterate_invariant graph n scores :
  positive scores ->
  positive (Nat.iter n (iteration graph) scores) /\
  (forall p, Nat.iter n (iteration graph) scores !! p = None <-> scores !! p = None).
Proof.
  intros H. induction n as [|n [IH1 IH2]]; [now split|].
  change (Nat.iter (S n) (iteration graph) scores)
    with (iteration graph (Nat.iter n (iteration graph) scores)).
  split.
  - intros p s. rewrite iteration_lookup.
    destruct (Nat.iter n (iteration graph) scores !! p); [|discriminate].
    intros [= <-]. now apply newScore_pos.
  - intros p. rewrite iteration_lookup, <- IH2.
    now destruct (Nat.iter n (iteration graph) scores !! p).
Qed.

Lemma maxOf_ge values v :
  In v values -> exists m, maxOf values = Some m /\ v <= m.
Proof.
  induction values as [|x l IH]; [contradiction|]. intros [->|Hin]; cbn [maxOf fold_right].
  - fold (maxOf l). destruct (maxOf l) as [m|]; eexists; split; try reflexivity.
    + apply Q.le_max_l.
    + lra.
  - fold (maxOf l). destruct (IH Hin) as (m & -> & Hm). eexists. split; [reflexivity|].
    eapply Qle_trans; [exact Hm|apply Q.le_max_r].
Qed.

Lemma value_listed (scores : gmap string Q) p s :
  scores !! p = Some s -> In s (snd <$> map_to_list scores).
Proof.
  intros H. apply list_elem_of_In. apply list_elem_of_fmap. exists (p, s).
  split; [reflexivity|]. now apply elem_of_map_to_list.
Qed.

Lemma centrality_spec graph p :
  (forall v, calculateCentrality graph !! p = Some v -> 0 < v /\ v <= 1) /\
  (calculateCentrality graph !! p = None <-> imports graph !! p = None).
Proof.
  unfold calculateCentrality.
  set (init := (fun _ : list string => 1) <$> imports graph).
  assert (Hinit : positive init).
  { intros q s. unfold init. rewrite lookup_fmap.
    destruct (imports graph !! q); [|discriminate]. now intros [= <-]. }
  destruct (iterate_invariant graph iterations init Hinit) as [Hpos Hdom].
  set (scores := Nat.iter iterations (iteration graph) init) in *.
  assert (Hkeys : scores !! p = None <-> imports graph !! p = None).
  { rewrite Hdom. unfold init. rewrite lookup_fmap. now destruct (imports graph !! p). }
  destruct (maxOf (snd <$> map_to_list scores)) as [m|] eqn:Hmax.
  - destruct (Qle_bool m 0) eqn:Hm; cbn [negb].
    + split; [|exact Hkeys]. intros v Hv. exfalso.
      apply Qle_bool_iff in Hm. pose proof (Hpos _ _ Hv) as Hv0.
      destruct (maxOf_ge _ _ (value_listed _ _ _ Hv)) as (m' & Hm' & Hle).
      rewrite Hmax in Hm'. injection Hm' as <-. lra.
    + assert (Hm0 : 0 < m).
      { destruct (Qlt_le_dec 0 m) as [H|H]; [exact H|].
        apply Qle_bool_iff in H. congruence. }
      split.
      * intros v. rewrite lookup_fmap. destruct (scores !! p) as [s|] eqn:Hs; [|discriminate].
        intros [= <-]. pose proof (Hpos _ _ Hs) as Hs0.
        destruct (maxOf_ge _ _ (value_listed _ _ _ Hs)) as (m' & Hm' & Hle).
        rewrite Hmax in Hm'. injection Hm' as <-. split.
        -- apply Qlt_shift_div_l; [exact Hm0|]. lra.
        -- apply Qle_shift_div_r; [exact Hm0|]. lra.
      * rewrite lookup_fmap, <- Hkeys. now destruct (scores !! p).
  - split; [|exact Hkeys]. intros v Hv. exfalso.
    destruct (maxOf_ge _ _ (value_listed _ _ _ Hv)) as (m' & Hm' & _). congruence.
Qed.

(** X28.  Centrality scores are normalized: the files that have a centrality
    are those the graph lists imports for, and each of them has a score
    above 0 and at most 1. *)
Theorem centrality_unit_interval (graph : DependencyGraph) (p : string) :
  (forall v, calculateCentrality graph !! p = Some v -> 0 < v /\ v <= 1) /\
  (calculateCentrality graph !! p = None <-> imports graph !! p = None).
Proof. apply centrality_spec. Qed.

End CentralityFacts.

Module ImportanceFacts.
Import Importance Dependency.
Local Open Scope Q_scope.

(** Every value of the map lies between 0 and 1. *)
Lemma calculateFileImportance_range file :
  0 <= calculateFileImportance file /\ calculateFileImportance file <= 1.
Proof.
  unfold calculateFileImportance. split.
  - apply Q.le_max_l.
  - apply Q.max_lub; [discriminate|apply Q.le_min_l].
Qed.

Lemma calculateImportance_range files p s :
  calculateImportance files !! p = Some s -> 0 <= s /\ s <= 1.
Proof.
  unfold calculateImportance.
  assert (H : forall (m : gmap string Q),
            (forall q v, m !! q = Some v -> 0 <= v /\ v <= 1) ->
            forall q v,
              fold_left (fun (scores : gmap string Q) file =>
                           let score := calculateFileImportance file in
                           <[sf_relativePath file := score]> (<[path file := score]> scores))
                        files m !! q = Some v -> 0 <= v /\ v <= 1).
  { induction files as [|f files IH]; intros m Hm q v; cbn [fold_left]; [apply Hm|].
    apply IH. intros q' v'. cbv zeta.
    destruct (decide (sf_relativePath f = q')) as [<-|Hne].
    - rewrite lookup_insert_eq. intros [= <-]. apply calculateFileImportance_range.
    - rewrite lookup_insert_ne by exact Hne.
      destruct (decide (path f = q')) as [<-|Hne'].
      + rewrite lookup_insert_eq. intros [= <-]. apply calculateFileImportance_range.
      + rewrite lookup_insert_ne by exact Hne'. apply Hm. }
  apply H. intros q v. rewrite lookup_empty. discriminate.
Qed.

Lemma combineScores_range importance centrality w p s :
  (forall q v, importance !! q = Some v -> 0 <= v /\ v <= 1) ->
  (forall q v, centrality !! q = Some v -> 0 <= v /\ v <= 1) ->
  0 <= w -> w <= 1 ->
  combineScores importance centrality w !! p = Some s -> 0 <= s /\ s <= 1.
Proof.
  intros Hi Hc Hw0 Hw1. unfold combineScores. rewrite lookup_merge.
  assert (Hdi : 0 <= default (1 # 2) (importance !! p) /\ default (1 # 2) (importance !! p) <= 1).
  { destruct (importance !! p) as [v|] eqn:E; simpl; [exact (Hi _ _ E)|split; discriminate]. }
  assert (Hdc : 0 <= default (1 # 2) (centrality !! p) /\ default (1 # 2) (centrality !! p) <= 1).
  { destruct (centrality !! p) as [v|] eqn:E; simpl; [exact (Hc _ _ E)|split; discriminate]. }
  destruct Hdi as [Hi0 Hi1], Hdc as [Hc0 Hc1].
  set (a := default (1 # 2) (importance !! p)) in *.
  set (b := default (1 # 2) (centrality !! p)) in *.
  assert (Hres : 0 <= a * w + b * (1 - w) /\ a * w + b * (1 - w) <= 1) by (split; nra).
  destruct (importance !! p), (centrality !! p); cbn; try discriminate;
    intros [= <-]; exact Hres.
Qed.

Lemma getImportance_range (scores : gmap string Q) c :
  (forall q v, scores !! q = Some v -> 0 <= v /\ v <= 1) ->
  0 <= Hybrid.getImportance scores c /\ Hybrid.getImportance scores c <= 1.
Proof.
  intros H. unfold Hybrid.getImportance, Hybrid.MARKDOWN_PENALTY.
  assert (Hd : 0 <= default (1 # 2) (scores !! filePath c) /\
               default (1 # 2) (scores !! filePath c) <= 1).
  { destruct (scores !! filePath c) as [v|] eqn:E; simpl; [exact (H _ _ E)|split; discriminate]. }
  destruct Hd as [H0 H1]. destruct (_ || _); split; nra.
Qed.

(** X29.  The importance signal of the ranker lies between 0 and 1 for every
    chunk, whatever the files and the dependency graph are: it is read
    from the combination, at weight 0.6, of the file importance and the
    centrality, which both lie in that range. *)
Theorem importance_signal_unit_interval
    (files : list SourceFile) (graph : DependencyGraph) (c : Chunk) :
  let combined :=
    combineScores (calculateImportance files) (calculateCentrality graph)
                  defaultImportanceWeight in
  0 <= Hybrid.getImportance combined c /\ Hybrid.getImportance combined c <= 1.
Proof.
  intros combined. apply getImportance_range. intros q v.
  apply combineScores_range; try discriminate.
  - apply calculateImportance_range.
  - intros q' v' Hv. destruct (CentralityFacts.centrality_spec graph q') as [Hr _].
    destruct (Hr v' Hv). split; lra.
Qed.

(** ** Files at the root of the repository *)

Lemma dirEnd_no_slash chars :
  Forall (fun ic => Path.isSlash (snd ic) = false) chars ->
  forall b, Path.dirEnd chars b = None.
Proof.
  induction 1 as [|[i c] chars Hc _ IH]; intros b; cbn [Path.dirEnd]; [reflexivity|].
  simpl in Hc. rewrite Hc. apply IH.
Qed.

Lemma dirname_no_slash (p : string) :
  p <> EmptyString ->
  Forall (fun c => Path.isSlash c = false) (list_ascii_of_string p) ->
  Path.dirname p = ".".
Proof.
  intros Hne Hall. destruct p as [|c0 rest]; [congruence|]. unfold Path.dirname.
  cbn [list_ascii_of_string] in Hall. apply Forall_cons in Hall. destruct Hall as [H0 Hrest].
  rewrite dirEnd_no_slash; [now rewrite H0|].
  apply Forall_rev. apply List.Forall_forall. intros [i c] Hin.
  apply in_combine_r in Hin. rewrite List.Forall_forall in Hrest. now apply Hrest.
Qed.

Lemma dropWhile_none {A} (f : A -> bool) l :
  Forall (fun x => f x = false) l -> Path.dropWhile f l = l.
Proof. destruct 1 as [|x l Hx _]; simpl; [reflexivity|now rewrite Hx]. Qed.

Lemma takeWhile_all {A} (f : A -> bool) l :
  Forall (fun x => f x = true) l -> Path.takeWhile f l = l.
Proof. induction 1 as [|x l Hx _ IH]; simpl; [reflexivity|now rewrite Hx, IH]. Qed.

Lemma basename_no_slash (p : string) :
  Forall (fun c => Path.isSlash c = false) (list_ascii_of_string p) ->
  Path.basename p = p.
Proof.
  intros Hall. unfold Path.basename.
  assert (Hrev : Forall (fun c => Path.isSlash c = false) (rev (list_ascii_of_string p)))
    by now apply Forall_rev.
  rewrite dropWhile_none by exact Hrev.
  rewrite takeWhile_all.
  - now rewrite rev_involutive, string_of_list_ascii_of_string.
  - eapply List.Forall_impl; [|exact Hrev]. simpl. intros c ->. reflexivity.
Qed.

(** X30.  A file at the root of the repository is scored as a file one
    directory deep: its directory list is the single entry [.], so the
    root-level bonus of 0.1 is not applied, and neither is any directory
    bonus or penalty; its score is the base 0.5, plus 0.3 for an entry
    point, minus the pattern and language penalties. *)
Theorem root_file_gets_no_root_bonus (file : SourceFile) :
  sf_relativePath file <> EmptyString ->
  Forall (fun c => Path.isSlash c = false) (list_ascii_of_string (sf_relativePath file)) ->
  dirsOf (sf_relativePath file) = ["."] /\
  calculateFileImportance file =
  Qmax 0 (Qmin 1
    (let score := 1 # 2 in
     let score :=
       if bool_decide (sf_relativePath file ∈ ENTRY_POINTS) then score + (3 # 10) else score in
     let score :=
       if lowImportancePattern (sf_relativePath file) then score - (15 # 100) else score in
     let score :=
       if String.eqb (sf_language file) "markdown" || String.eqb (sf_language file) "mdx"
       then score - (1 # 10) else score in
     if String.eqb (sf_language file) "json" || String.eqb (sf_language file) "yaml"
     then score - (5 # 100) else score)).
Proof.
  intros Hne Hall.
  assert (Hdirs : dirsOf (sf_relativePath file) = ["."]).
  { unfold dirsOf. now rewrite dirname_no_slash. }
  split; [exact Hdirs|].
  unfold calculateFileImportance. rewrite Hdirs, basename_no_slash by exact Hall.
  reflexivity.
Qed.

End ImportanceFacts.

Module Instances.
Import Samples Examples.
Local Open Scope Q_scope.

Lemma sqrtFloor_zero (x : Q) : x == 0 -> sqrtFloor x == 0.
Proof.
  unfold Qeq, sqrtFloor. simpl. intros H.
  assert (Hn : Qnum x = 0%Z) by lia. rewrite Hn. reflexivity.
Qed.

Lemma zeroLog_nonneg (x : Q) : 1 <= x -> 0 <= zeroLog x.
Proof. intros _. apply Qle_refl. Qed.

(** The scores 3, 1, 2: the second is at most the third, before and after
    normalization. *)
Lemma normalize_monotone_witness :
  nth 1 threeScores 0 <= nth 2 threeScores 0 /\
  nth 1 (Utils.normalize threeScores) 0 <= nth 2 (Utils.normalize threeScores) 0.
Proof.
  assert (H : nth 1 threeScores 0 <= nth 2 threeScores 0) by (vm_compute; discriminate).
  split; [exact H|].
  apply (UtilsFacts.normalize_monotone threeScores 1 2); [simpl; lia|simpl; lia|exact H].
Defined.

(** Five elements in batches of two. *)
Lemma batch_partitions_witness :
  exists batches,
    Batch.batch [1; 2; 3; 4; 5]%nat 2 = Some batches /\
    concat batches = [1; 2; 3; 4; 5]%nat /\
    Forall (fun b => (0 < length b <= 2)%nat) batches /\
    length batches = 3%nat.
Proof. apply (BatchFacts.batch_partitions [1; 2; 3; 4; 5]%nat 2). lia. Defined.

(** Two files chunked in batches of three. *)
Lemma chunkFilesParallel_batch_witness :
  Batch.chunkFilesBatched noPatterns charTokens [helloFile; worldFile] 3 =
  Some (flat_map (fun f => Chunker.chunk noPatterns charTokens (sf_content f) (path f)
                             (sf_relativePath f) (sf_language f)) [helloFile; worldFile]).
Proof.
  apply (BatchFacts.chunkFilesParallel_batch_independent noPatterns charTokens
           [helloFile; worldFile] 3). lia.
Defined.

(** The zero vector against the vector (1, 2). *)
Lemma cosineSimilarity_zero_witness :
  Utils.cosineSimilarity sqrtFloor [0; 0] [1; 2] = Some 0 /\
  Utils.cosineSimilarity sqrtFloor [1; 2] [0; 0] = Some 0.
Proof.
  apply (CosineFacts.cosineSimilarity_zero_vector sqrtFloor [0; 0] [1; 2]).
  - exact sqrtFloor_zero.
  - repeat constructor.
  - reflexivity.
Defined.

(** Two chunks of 10000 tokens under a budget of 50000. *)
Lemma selectWithinBudget_keeps_all_witness :
  Builder.selectWithinBudget 50000 (firstn 2 tenChunks) = firstn 2 tenChunks.
Proof.
  apply (SelectionFacts.selectWithinBudget_keeps_all 50000 (firstn 2 tenChunks)).
  vm_compute. reflexivity.
Defined.

(** The first of two selected chunks. *)
Lemma formatContext_includes_witness :
  JS.includes (Formatter.formatContext [bigChunk 0; bigChunk 1]) (content (bigChunk 0)) = true /\
  JS.includes (Formatter.formatContext [bigChunk 0; bigChunk 1])
              ("## " +:+ relativePath (bigChunk 0) +:+ Formatter.newline) = true.
Proof.
  apply (FormatterFacts.formatContext_includes_selected [bigChunk 0; bigChunk 1] (bigChunk 0)).
  left. reflexivity.
Defined.

(** The chunk of [login.ts] and the query token [login]. *)
Lemma keyword_score_witness :
  0 <= Keyword.scoreOf zeroLog chunkB ["login"] ∅ /\
  (0 < Keyword.scoreOf zeroLog chunkB ["login"] ∅ <->
   exists qt, In qt ["login"] /\ Matching.matches qt chunkB = true).
Proof.
  apply (MatchFacts.keyword_score_positive_iff_match zeroLog chunkB ["login"] ∅).
  exact zeroLog_nonneg.
Defined.

(** The ranking of [a.ts] and [login.ts] for the query [login]. *)
Lemma fast_rank_matches_first_witness :
  exists pre post,
    Keyword.rank zeroLog [chunkA; chunkB] "login" = pre ++ post /\
    Forall (fun sc : ScoredChunk => Matching.relevant "login" sc = true) pre /\
    Forall (fun sc : ScoredChunk => Matching.relevant "login" sc = false) post.
Proof.
  apply (RelevanceFacts.fast_rank_matches_first zeroLog [chunkA; chunkB] "login").
  exact zeroLog_nonneg.
Defined.

(** Ten lines before the first definition. *)
Lemma chunk_preamble_witness :
  exists c later,
    Chunker.chunk defPatterns charTokens withPreamble "/repo/p.py" "p.py" "python"
      = c :: later /\
    Coverage.isPreamble c /\ endLine c = 10%nat /\ Coverage.lineCount c = 10%nat.
Proof.
  apply (CoverageFacts.chunk_preamble_unsplit defPatterns charTokens withPreamble
           "/repo/p.py" "p.py" "python"
           (Chunker.mkBoundary 10 TFunction (Some "f")) []).
  - vm_compute. reflexivity.
  - vm_compute. lia.
Defined.

(** A one-line file of a language without patterns. *)
Lemma chunk_by_size_witness :
  Coverage.tiles 1 (length (Chunker.splitLines "hello"))
    (Chunker.chunk noPatterns charTokens "hello" "/repo/a.txt" "a.txt" "text") /\
  Forall (fun c => (Coverage.lineCount c <= 200)%nat)
    (Chunker.chunk noPatterns charTokens "hello" "/repo/a.txt" "a.txt" "text").
Proof.
  apply (CoverageFacts.chunk_by_size_covers_file noPatterns charTokens "hello"
           "/repo/a.txt" "a.txt" "text").
  reflexivity.
Defined.

(** Two definitions on two lines give no chunk. *)
Lemma chunk_short_file_witness :
  Chunker.chunk defPatterns charTokens twoDefs "/repo/s.py" "s.py" "python" = [].
Proof.
  apply (CoverageFacts.chunk_short_file_dropped defPatterns charTokens twoDefs
           "/repo/s.py" "s.py" "python").
  - vm_compute. lia.
  - vm_compute. lia.
Defined.

(** Two runs over two one-line files. *)
Lemma warm_run_witness :
  let cold := Build.chunkingStep noPatterns charTokens (Build.mkState Cache.empty ∅) 1000
                [helloFile; worldFile] in
  let warm := Build.chunkingStep noPatterns charTokens (snd cold) 2000
                [helloFile; worldFile] in
  map Stored.shown (fst warm) = map Stored.shown (fst cold).
Proof.
  apply (WarmFacts.warm_run_shows_same_chunks noPatterns charTokens
           [helloFile; worldFile] 1000 2000 ∅).
  apply NoDup_cons_2; [|apply NoDup_singleton].
  intros H. apply list_elem_of_singleton in H. discriminate H.
Defined.

(** Two failures, then a value, with [retries = 2], [delay = 500] and
    [backoff = 1.5]: the value is returned after pauses of 500 and 750. *)
Lemma retry_witness :
  Retry.retry flaky 2 500 (3 # 2) = (inr 42%Z, Retry.pauses 500 (3 # 2) 2).
Proof.
  refine (RetryFacts.retry_first_success flaky 2 500 (3 # 2) 2 _ _); [lia|].
  intros j Hj. exists "timeout"%string. unfold flaky.
  destruct (Nat.ltb_spec j 2); [reflexivity|lia].
Defined.

(** [index.ts] at the root: 0.5 + 0.3, and no root-level bonus. *)
Lemma root_file_witness :
  Importance.dirsOf (sf_relativePath rootIndex) = ["."%string] /\
  Importance.calculateFileImportance rootIndex == 8 # 10.
Proof.
  destruct (ImportanceFacts.root_file_gets_no_root_bonus rootIndex) as [H1 H2].
  - discriminate.
  - repeat constructor.
  - split; [exact H1|]. rewrite H2. vm_compute. reflexivity.
Defined.

End Instances.
